(** * VirtualTouchscreen: calibration, prediction queue, finger tracking
      and touch decision, embedded from the C++ sources.

    The development follows the layout of the repository:
    - [F32]            single-precision arithmetic (the C++ [float]);
    - [Common]         Utility/Common: [lerp], [blerp], [tlerp],
                       [xyz_to_3d_index];
    - [ViewCalibrator] Systems/ViewCalibrator: colour-map acquisition
                       indices and [predict];
    - [MaskGenerator]  Systems/MaskGenerator: the prediction delay queue;
    - [Calibrator]     Utility/Calibrator: [capture_image];
    - [FingerTracker]  Systems/FingerTracker: [detect], [focus];
    - [Touch]          main: [find_touch_action];
    - [Utility]        Utility/Common: [make_chessboard], [error_within];
    - [Photometric]    Systems/ViewCalibrator: the calibration pattern,
                       its sample regions and the interpolation factors
                       of [predict];
    - [ScreenDetection] Systems/ViewCalibrator: the corner ordering of
                       [detect_screen] and the ideal corners;
    - [Webcam]         Abstractions/Webcam: the frame latency;
    - [Segmentation]   Systems/MaskGenerator: the shadow mask of
                       [segment];
    - [HullWalk]       Systems/FingerTracker: the breaks of a hull;
    - [Mouse]          Abstractions/Mouse: the button holds;
    - [Main]           main: the processing loop;
    - [Angle]          Utility/Common: [signed_angle_between], with
                       the [atan2] and [fmod] of the C library.

    Integers of the program ([int], [size_t]) are modelled in [Z]; the
    values met here are pixel coordinates, pixel counts and small
    counters, far from the wrap-around of the machine types.  [float]
    is IEEE-754 binary32 with round-to-nearest-even, taken from the
    parameterised specification of the standard library. *)

From Stdlib Require Import ZArith List Lia Bool Strings.Byte.
From Stdlib Require Import Floats.SpecFloat.
From stdpp Require Import base option list.

Open Scope Z_scope.

(* ===================================================================== *)
(** * Single-precision floats                                             *)
(* ===================================================================== *)

Module F32.

Definition prec : Z := 24.
Definition emax : Z := 128.

Definition f32 : Type := spec_float.

Definition add : f32 -> f32 -> f32 := SFadd prec emax.
Definition sub : f32 -> f32 -> f32 := SFsub prec emax.
Definition mul : f32 -> f32 -> f32 := SFmul prec emax.
Definition div : f32 -> f32 -> f32 := SFdiv prec emax.
Definition leb : f32 -> f32 -> bool := SFleb.
Definition eqb : f32 -> f32 -> bool := SFeqb.

(** [static_cast<float>(n)] for an integer [n]. *)
Definition of_int (n : Z) : f32 := binary_normalize prec emax n 0 false.

(** [static_cast<int>(x)]: truncation towards zero; undefined (here
    [None]) for NaN, the infinities and values outside [int]. *)
Definition to_int (x : f32) : option Z :=
  match x with
  | S754_zero _ => Some 0
  | S754_finite s m e =>
      let a := Z.shiftl (Zpos m) e in
      let v := if s then - a else a in
      if (- 2147483648 <=? v) && (v <=? 2147483647) then Some v else None
  | _ => None
  end.

Definition is_finite (x : f32) : bool :=
  match x with
  | S754_zero _ | S754_finite _ _ _ => true
  | _ => false
  end.

(** A well-formed binary32 datum that is neither NaN nor infinite. *)
Definition finite (x : f32) : bool :=
  valid_binary prec emax x && is_finite x.

Definition is_zero (x : f32) : bool :=
  match x with S754_zero _ => true | _ => false end.

Definition zero : f32 := S754_zero false.
Definition one : f32 := of_int 1.

Definition is_negzero (x : f32) : bool :=
  match x with S754_zero true => true | _ => false end.

(** Equal as numbers: the same datum, or two zeros whatever their
    signs. *)
Definition same_value (x y : f32) : Prop :=
  x = y \/ (is_zero x = true /\ is_zero y = true).

(** What a rounding location says about a remainder [r] out of [n]:
    nothing is left, less than half, exactly half, more than half. *)
Definition loc_spec (l : location) (r n : Z) : Prop :=
  match l with
  | loc_Exact => r = 0
  | loc_Inexact Lt => 0 < r /\ 2 * r < n
  | loc_Inexact Eq => 0 < r /\ 2 * r = n
  | loc_Inexact Gt => n < 2 * r
  end.

End F32.

Abbreviation f32 := F32.f32.

(** [cv::Vec3f], [cv::Vec3b] and the operators of [cv::Matx] used by the
    sources.  OpenCV scales a vector channel by channel ([Matx_ScaleOp]),
    and divides by a scalar by scaling with its reciprocal. *)
Record Vec3f : Type := mkVec3f { f0 : f32; f1 : f32; f2 : f32 }.
Record Vec3b : Type := mkVec3b { b0 : Byte.byte; b1 : Byte.byte; b2 : Byte.byte }.

Definition byte_to_Z (b : Byte.byte) : Z := Z.of_N (Byte.to_N b).

Definition vec3f_of_3b (c : Vec3b) : Vec3f :=
  mkVec3f (F32.of_int (byte_to_Z (b0 c)))
          (F32.of_int (byte_to_Z (b1 c)))
          (F32.of_int (byte_to_Z (b2 c))).

Definition vscale (v : Vec3f) (a : f32) : Vec3f :=
  mkVec3f (F32.mul (f0 v) a) (F32.mul (f1 v) a) (F32.mul (f2 v) a).

Definition vdiv (v : Vec3f) (a : f32) : Vec3f :=
  vscale v (F32.div F32.one a).

Definition vadd (u v : Vec3f) : Vec3f :=
  mkVec3f (F32.add (f0 u) (f0 v)) (F32.add (f1 u) (f1 v)) (F32.add (f2 u) (f2 v)).

Definition vsub (u v : Vec3f) : Vec3f :=
  mkVec3f (F32.sub (f0 u) (f0 v)) (F32.sub (f1 u) (f1 v)) (F32.sub (f2 u) (f2 v)).

(** Channelwise product. *)
Definition vmul (u v : Vec3f) : Vec3f :=
  mkVec3f (F32.mul (f0 u) (f0 v)) (F32.mul (f1 u) (f1 v)) (F32.mul (f2 u) (f2 v)).

(** Channelwise [==] of the C++ [float]. *)
Definition veqb (u v : Vec3f) : bool :=
  F32.eqb (f0 u) (f0 v) && F32.eqb (f1 u) (f1 v) && F32.eqb (f2 u) (f2 v).

Definition vfinite (v : Vec3f) : bool :=
  F32.finite (f0 v) && F32.finite (f1 v) && F32.finite (f2 v).

Definition vnegzero (v : Vec3f) : bool :=
  F32.is_negzero (f0 v) || F32.is_negzero (f1 v) || F32.is_negzero (f2 v).

Definition vsame (u v : Vec3f) : Prop :=
  F32.same_value (f0 u) (f0 v) /\ F32.same_value (f1 u) (f1 v)
  /\ F32.same_value (f2 u) (f2 v).

Definition black : Vec3b := mkVec3b Byte.x00 Byte.x00 Byte.x00.

(* ===================================================================== *)
(** * Utility/Common                                                      *)
(* ===================================================================== *)

Module Common.

(** [(z * size + y) * size + x] *)
Definition xyz_to_3d_index (x y z size : Z) : Z :=
  (z * size + y) * size + x.

(** [v0 * (1.0f - x) + v1 * x] *)
Definition lerp (v0 v1 : Vec3f) (x : f32) : Vec3f :=
  vadd (vscale v0 (F32.sub F32.one x)) (vscale v1 x).

Definition blerp (v00 v01 v11 v10 : Vec3f) (x y : f32) : Vec3f :=
  lerp (lerp v00 v10 x) (lerp v01 v11 x) y.

Definition tlerp (v000 v010 v110 v100 v001 v011 v111 v101 : Vec3f)
           (x y z : f32) : Vec3f :=
  lerp (blerp v000 v010 v110 v100 x y) (blerp v001 v011 v111 v101 x y) z.

End Common.

(* ===================================================================== *)
(** * Systems/ViewCalibrator                                              *)
(* ===================================================================== *)

Module ViewCalibrator.
Import Common.

Definition CMAP_SIZE : Z := 8.

(** [1.0f / (CMAP_SIZE - 1.0f)] *)
Definition CMAP_STEP : f32 :=
  F32.div F32.one (F32.sub (F32.of_int CMAP_SIZE) F32.one).

(** The colour map is a [std::array<cv::Vec3f, 8 * 8 * 8>]; a read
    outside of it is undefined behaviour, here [None]. *)
Abbreviation colour_map := (list Vec3f).

Definition cmap_at (cm : colour_map) (i : Z) : option Vec3f :=
  if 0 <=? i then cm !! Z.to_nat i else None.

(** [static_cast<int>(norm_col[i] / CMAP_STEP)] *)
Definition cube_index (n : f32) : option Z :=
  F32.to_int (F32.div n CMAP_STEP).

(** Body of the per-pixel lambda of [predict]: [colour] is the source
    pixel, [reflectance] the entry of the reflectance map at the same
    coordinate, the result is the pixel written to [dst]. *)
Definition predict_pixel (cm : colour_map) (reflectance : Vec3f)
           (colour : Vec3b) : option Vec3f :=
  let norm_col := vdiv (vec3f_of_3b colour) (F32.of_int 255) in
  x ← cube_index (f0 norm_col);
  y ← cube_index (f1 norm_col);
  z ← cube_index (f2 norm_col);
  let sub_coord :=
    vscale (mkVec3f (F32.of_int x) (F32.of_int y) (F32.of_int z)) CMAP_STEP in
  let tlerp_factors := vdiv (vsub norm_col sub_coord) CMAP_STEP in
  v000 ← cmap_at cm (xyz_to_3d_index x y z CMAP_SIZE);
  v010 ← cmap_at cm (xyz_to_3d_index x (y + 1) z CMAP_SIZE);
  v110 ← cmap_at cm (xyz_to_3d_index (x + 1) (y + 1) z CMAP_SIZE);
  v100 ← cmap_at cm (xyz_to_3d_index (x + 1) y z CMAP_SIZE);
  v001 ← cmap_at cm (xyz_to_3d_index x y (z + 1) CMAP_SIZE);
  v011 ← cmap_at cm (xyz_to_3d_index x (y + 1) (z + 1) CMAP_SIZE);
  v111 ← cmap_at cm (xyz_to_3d_index (x + 1) (y + 1) (z + 1) CMAP_SIZE);
  v101 ← cmap_at cm (xyz_to_3d_index (x + 1) y (z + 1) CMAP_SIZE);
  let prediction :=
    tlerp v000 v010 v110 v100 v001 v011 v111 v101
          (f0 tlerp_factors) (f1 tlerp_factors) (f2 tlerp_factors) in
  Some (mkVec3f (F32.mul (f0 prediction) (f0 reflectance))
                (F32.mul (f1 prediction) (f1 reflectance))
                (F32.mul (f2 prediction) (f2 reflectance))).

(** [predict] runs the lambda over every pixel of [src]; images are
    row-major lists of pixels, [refl] is the reflectance map.  The
    result is [None] as soon as one pixel reads outside the map. *)
Definition predict (cm : colour_map) (refl : list Vec3f) (src : list Vec3b)
  : option (list Vec3f) :=
  mapM (fun '(r, c) => predict_pixel cm r c) (zip refl src).

(** The eight colour-map indices read for cube corner [(x, y, z)]. *)
Definition corner_indices (x y z : Z) : list Z :=
  [ xyz_to_3d_index x y z CMAP_SIZE;
    xyz_to_3d_index x (y + 1) z CMAP_SIZE;
    xyz_to_3d_index (x + 1) (y + 1) z CMAP_SIZE;
    xyz_to_3d_index (x + 1) y z CMAP_SIZE;
    xyz_to_3d_index x y (z + 1) CMAP_SIZE;
    xyz_to_3d_index x (y + 1) (z + 1) CMAP_SIZE;
    xyz_to_3d_index (x + 1) (y + 1) (z + 1) CMAP_SIZE;
    xyz_to_3d_index (x + 1) y (z + 1) CMAP_SIZE ].

(** The cube index of one 8-bit channel value, as [predict] derives it. *)
Definition channel_index (b : Byte.byte) : option Z :=
  cube_index (F32.mul (F32.of_int (byte_to_Z b)) (F32.div F32.one (F32.of_int 255))).

(** OpenCV divides a vector by a scalar through the reciprocal; this is
    the cube index a plain division [colour / 255.0f] would give. *)
Definition channel_index_division (b : Byte.byte) : option Z :=
  cube_index (F32.div (F32.of_int (byte_to_Z b)) (F32.of_int 255)).

(** ** Colour-map acquisition in [find_photometric_model]

    The two 16x16 patterns are captured one after the other; for
    pattern [k], cell [(r, c)] the measured colour is stored at
    [(k * 256) + (r * pattern.rows) + c]. *)
Definition PATTERN_ROWS : Z := 16.
Definition PATTERN_COLS : Z := 16.

Definition map_index (rows : Z) (k r c : Z) : Z :=
  (k * 256) + (r * rows) + c.

(** The index the design intends, in the words of the specification:
    [(k * 256) + r * pattern.cols + c]. *)
Definition map_index_intended (cols : Z) (k r c : Z) : Z :=
  (k * 256) + (r * cols) + c.

Definition range (n : Z) : list Z := map Z.of_nat (seq 0 (Z.to_nat n)).

(** The slots written by the three nested loops, in program order. *)
Definition fill_trace (rows cols : Z) : list Z :=
  k ← range 2; r ← range rows; c ← range cols; [map_index rows k r c].

(** The loops themselves: [measured k r c] is the block average, the
    store [m_ColourMap[map_index] = ...] is an in-place update.  An
    index outside the array is undefined behaviour ([None]). *)
Definition store (cm : colour_map) (i : Z) (v : Vec3f) : option colour_map :=
  if (0 <=? i) && (i <? Z.of_nat (length cm))
  then Some (<[Z.to_nat i := v]> cm) else None.

(** The pattern cell whose colour ends up in slot [i]. *)
Definition cell_of_slot (i : Z) : Z * Z * Z := (i / 256, (i mod 256) / 16, i mod 16).

Definition fill_colour_map (measured : Z -> Z -> Z -> Vec3f)
           (rows cols : Z) (cm : colour_map) : option colour_map :=
  foldl (fun acc '(k, r, c) =>
           cm' ← acc; store cm' (map_index rows k r c) (measured k r c))
        (Some cm)
        (k ← range 2; r ← range rows; c ← range cols; [(k, r, c)]).

(** The same loops with the index the design intends. *)
Definition fill_colour_map_intended (measured : Z -> Z -> Z -> Vec3f)
           (rows cols : Z) (cm : colour_map) : option colour_map :=
  foldl (fun acc '(k, r, c) =>
           cm' ← acc; store cm' (map_index_intended cols k r c) (measured k r c))
        (Some cm)
        (k ← range 2; r ← range rows; c ← range cols; [(k, r, c)]).

(** The colour measured for the pattern cell of slot [i]. *)
Definition measured_at (measured : Z -> Z -> Z -> Vec3f) (i : Z) : Vec3f :=
  let '(k, r, c) := cell_of_slot i in measured k r c.

End ViewCalibrator.


(* ===================================================================== *)
(** * Systems/MaskGenerator: the prediction delay queue                   *)
(* ===================================================================== *)

Module MaskGenerator.

Definition prediction_delay : nat := 3.

Section Queue.
(** [Frame] is a predicted background ([CV_32FC3] image), [Screen] a
    captured screen buffer; [predict_screen] stands for the
    conversion, resize and [calibrator.predict] applied to a new
    screen buffer. *)
Context {Frame Screen : Type}.
Variable predict_screen : Screen -> Frame.

(** State shared under [m_PredictionMutex] plus the producer's own
    [prediction_buffer], which survives from one iteration to the
    next. *)
Record state : Type := mkState {
  m_FrameQueue : list Frame;
  m_WriteIndex : nat;
  prediction_buffer : Frame
}.

(** [start]: the queue is resized to [prediction_delay] zeroed
    buffers and the write index reset. *)
Definition start (zeros : Frame) (buf : Frame) : state :=
  mkState (replicate prediction_delay zeros) 0 buf.

(** One iteration of the loop of [predictor_process].  [capture] is
    the outcome of [screen_capture->read]: [Some s] when a new
    screen buffer [s] arrived, [None] on time-out.  The write index
    stays below the size of the queue (lemma [run_invariant]), so the
    store never leaves the vector; an empty queue, for which the C++
    remainder is undefined, does not occur after [start]. *)
Definition predictor_step (st : state) (capture : option Screen) : state :=
  let buf :=
    match capture with
    | Some s => predict_screen s
    | None => prediction_buffer st
    end in
  mkState (<[m_WriteIndex st := buf]> (m_FrameQueue st))
          ((m_WriteIndex st + 1) mod length (m_FrameQueue st))%nat
          buf.

(** The frame an iteration pushes onto the queue. *)
Definition pushed (st : state) (capture : option Screen) : Frame :=
  prediction_buffer (predictor_step st capture).

Definition predictor_run (st : state) (captures : list (option Screen)) : state :=
  foldl predictor_step st captures.

(** All frames pushed by a run, oldest first. *)
Fixpoint pushed_frames (st : state) (captures : list (option Screen)) : list Frame :=
  match captures with
  | [] => []
  | c :: cs => pushed st c :: pushed_frames (predictor_step st c) cs
  end.

(** [read_prediction]: the frame copied to [dst]. *)
Definition read_prediction (st : state) : option Frame :=
  m_FrameQueue st !! m_WriteIndex st.

End Queue.

End MaskGenerator.

(* ===================================================================== *)
(** * Utility/Calibrator: settle-and-average capture                      *)
(* ===================================================================== *)

(** Double precision, for the [CV_64FC3] accumulator of [capture_image]. *)
Module F64.
Definition prec : Z := 53.
Definition emax : Z := 1024.
Definition f64 : Type := spec_float.
Definition div : f64 -> f64 -> f64 := SFdiv prec emax.
Definition of_int (n : Z) : f64 := binary_normalize prec emax n 0 false.

(** [cvRound]: the nearest integer, ties to even. *)
Definition round_int (x : f64) : Z :=
  match x with
  | S754_finite s m e =>
      let a :=
        if 0 <=? e then Z.shiftl (Zpos m) e
        else
          let d := 2 ^ (- e) in
          let q := Zpos m / d in
          let r := Zpos m mod d in
          match Z.compare (2 * r) d with
          | Lt => q
          | Gt => q + 1
          | Eq => if Z.even q then q else q + 1
          end in
      if s then - a else a
  | _ => 0
  end.

(** [cv::saturate_cast<uchar>(double)] *)
Definition saturate_u8 (x : f64) : Z := Z.max 0 (Z.min 255 (round_int x)).
End F64.

Module Calibrator.

(** An 8-bit image, flattened: one [Z] in [0, 255] per channel value. *)
Abbreviation Image := (list Z).

(** What the routine does to the outside world, in order. *)
Inductive event : Type :=
| EvShow (image : Image)      (* cv::imshow(window_name, image) *)
| EvSleep (ms : Z)            (* std::this_thread::sleep_for *)
| EvDrop (k : nat)            (* webcam.drop_frame() consumed camera frame k *)
| EvRead (k : nat).           (* webcam.next_frame(dst) decoded camera frame k *)

#[global] Instance event_eq_dec : EqDecision event.
Proof. solve_decision. Defined.

(** The camera stream position and the log of events so far. *)
Record world : Type := mkWorld { cursor : nat; log : list event }.

(** State-and-failure monad of the routine ([None]: a [CV_Assert]
    failed). *)
Definition M (A : Type) : Type := world -> option (A * world).

#[global] Instance M_ret : MRet M := fun A a w => Some (a, w).
#[global] Instance M_bind : MBind M :=
  fun A B f m w => match m w with Some (a, w') => f a w' | None => None end.

Definition emit (e : event) : M unit :=
  fun w => Some (tt, mkWorld (cursor w) (log w ++ [e])).
Definition cv_assert (b : bool) : M unit :=
  fun w => if b then Some (tt, w) else None.

Section Capture.
(** The frames the camera delivers, in order, and its resolution. *)
Variable frames : nat -> Image.
Variable width height : Z.

Definition drop_frame : M unit :=
  fun w => Some (tt, mkWorld (S (cursor w)) (log w ++ [EvDrop (cursor w)])).

Definition next_frame : M Image :=
  fun w => Some (frames (cursor w),
                 mkWorld (S (cursor w)) (log w ++ [EvRead (cursor w)])).

(** [cv::accumulate(dst, average)]: sizes must agree.  The sums of
    8-bit values are exact in the double accumulator. *)
Definition accumulate (dst : Image) (average : list Z) : M (list Z) :=
  _ ← cv_assert (bool_decide (length dst = length average));
  mret (zip_with Z.add average dst).

(** The averaging loop: [i] runs over [capture_samples] iterations. *)
Fixpoint average_loop (n : nat) (dst : Image) (average : list Z)
  : M (Image * list Z) :=
  match n with
  | O => mret (dst, average)
  | S n' =>
      dst' ← next_frame;
      average' ← accumulate dst' average;
      average_loop n' dst' average'
  end.

(** [cv::divide(average, Scalar::all(capture_samples), average)]
    followed by [average.convertTo(dst, CV_8UC3)]. *)
Definition divide_convert (average : list Z) (capture_samples : Z) : Image :=
  map (fun s => F64.saturate_u8 (F64.div (F64.of_int s) (F64.of_int capture_samples)))
      average.

Definition capture_image (image : Image) (settle_time_ms capture_samples : Z)
  : M Image :=
  _ ← cv_assert (0 <=? settle_time_ms);
  _ ← cv_assert (1 <=? capture_samples);
  _ ← emit (EvShow image);
  _ ← emit (EvSleep settle_time_ms);
  _ ← drop_frame;
  _ ← drop_frame;
  _ ← drop_frame;
  _ ← next_frame;
  _ ← next_frame;
  dst ← next_frame;
  if 1 <? capture_samples then
    '(_, average) ← average_loop (Z.to_nat capture_samples) dst
                      (replicate (Z.to_nat (height * width * 3)) 0);
    mret (divide_convert average capture_samples)
  else mret dst.

(** The routine as the specification words it: display, sleep,
    discard three frames, then read [N_samples] frames and return
    their pixelwise mean cast to 8 bits. *)
Definition capture_spec (image : Image) (settle_time_ms capture_samples : Z)
  : M Image :=
  _ ← cv_assert (0 <=? settle_time_ms);
  _ ← cv_assert (1 <=? capture_samples);
  _ ← emit (EvShow image);
  _ ← emit (EvSleep settle_time_ms);
  _ ← drop_frame;
  _ ← drop_frame;
  _ ← drop_frame;
  '(_, average) ← average_loop (Z.to_nat capture_samples) []
                    (replicate (Z.to_nat (height * width * 3)) 0);
  mret (divide_convert average capture_samples).

(** The pixelwise mean, cast to 8 bits, of camera frames
    [first, first + n). *)
Definition sum_frames (first n : nat) : list Z :=
  foldl (fun acc k => zip_with Z.add acc (frames k))
        (replicate (Z.to_nat (height * width * 3)) 0)
        (seq first n).

Definition mean_frames (first n : nat) : Image :=
  divide_convert (sum_frames first n) (Z.of_nat n).

End Capture.

End Calibrator.


(* ===================================================================== *)
(** * Geometry: [cv::Point], [cv::Rect], binary masks                     *)
(* ===================================================================== *)

Record Point : Type := mkPoint { px : Z; py : Z }.
Record Rect : Type := mkRect { rx : Z; ry : Z; rwidth : Z; rheight : Z }.

#[global] Instance Point_eq_dec : EqDecision Point.
Proof. solve_decision. Defined.
#[global] Instance Rect_eq_dec : EqDecision Rect.
Proof. solve_decision. Defined.

Definition padd (a b : Point) : Point := mkPoint (px a + px b) (py a + py b).
Definition psub (a b : Point) : Point := mkPoint (px a - px b) (py a - py b).
Definition pdot (a b : Point) : Z := px a * px b + py a * py b.
(** [Point / int]: integer division of each coordinate. *)
Definition pdiv (a : Point) (d : Z) : Point := mkPoint (px a ÷ d) (py a ÷ d).

(** [cv::Rect(pt1, pt2)]: the corners in any order. *)
Definition rect_of_points (p1 p2 : Point) : Rect :=
  let x := Z.min (px p1) (px p2) in
  let y := Z.min (py p1) (py p2) in
  mkRect x y (Z.max (px p1) (px p2) - x) (Z.max (py p1) (py p2) - y).

Definition rect_br (r : Rect) : Point := mkPoint (rx r + rwidth r) (ry r + rheight r).

(** [r.contains(q)]: the right and bottom edges are exclusive. *)
Definition rect_contains (r : Rect) (q : Point) : Prop :=
  rx r <= px q < rx r + rwidth r /\ ry r <= py q < ry r + rheight r.

(** A single-channel 8-bit mask: its size and which pixels are nonzero.
    A rectangle covers the columns [rx .. rx + rwidth - 1] and the rows
    [ry .. ry + rheight - 1]: its right and bottom edges are exclusive. *)
Record Mask : Type := mkMask { cols : Z; rows : Z; nonzero : Z -> Z -> bool }.

Definition full_frame (m : Mask) : Rect := mkRect 0 0 (cols m) (rows m).

Definition rect_inside (r : Rect) (m : Mask) : bool :=
  (0 <=? rx r) && (0 <=? rwidth r) && (rx r + rwidth r <=? cols m) &&
  (0 <=? ry r) && (0 <=? rheight r) && (ry r + rheight r <=? rows m).

Definition zrange (lo n : Z) : list Z := map (fun k => lo + Z.of_nat k) (seq 0 (Z.to_nat n)).

Definition count_in (m : Mask) (r : Rect) : Z :=
  Z.of_nat (length (filter (fun p => nonzero m (fst p) (snd p) = true)
                           (y ← zrange (ry r) (rheight r);
                            x ← zrange (rx r) (rwidth r); [(x, y)]))).

(** [cv::countNonZero(mask(roi))]; taking a sub-matrix outside of the
    image raises an OpenCV error ([None]). *)
Definition countNonZero_roi (m : Mask) (r : Rect) : option Z :=
  if rect_inside r m then Some (count_in m r) else None.

(* ===================================================================== *)
(** * Systems/FingerTracker                                               *)
(* ===================================================================== *)

Module FingerTracker.

Definition MIN_CONTOUR_AREA : Z := 500.
Definition ARC_MIN_SCORE : Z := 50.
Definition ARC_TEST_LENGTH : Z := 450.
Definition NONMAX_PROXIMIITY : Z := 500.
Definition MAX_TRACKING_RANGE : Z := 75.
Definition MAX_TRACKING_LIFE : Z := 10.
Definition FOCUS_RESET_TIME : Z := 10.
Definition CALIB_OUTPUT_WIDTH : Z := 640.
Definition CALIB_OUTPUT_HEIGHT : Z := 480.

Record Fingertip : Type := mkFingertip {
  point : Point;
  com : Point;
  age : Z;
  id : Z
}.

#[global] Instance Fingertip_eq_dec : EqDecision Fingertip.
Proof. solve_decision. Defined.

Abbreviation Contour := (list Point).
Abbreviation Candidate := (Point * Point)%type.

(** The members of the class that outlive a call.  [m_Candidates] is
    empty between two calls of [detect] and is kept local to it;
    [m_NextID] is the process-wide counter. *)
Record tracker : Type := mkTracker {
  m_TrackingRegion : Rect;
  m_TrackingResetTimer : Z;
  m_NextID : Z;
  m_TrackingMemory : list (Fingertip * Z)
}.

(** The freshly constructed tracker. *)
Definition init : tracker := mkTracker (mkRect 0 0 0 0) 0 0 [].

(** [contour[i]]; an index outside of the vector is undefined
    behaviour ([None]). *)
Definition at_ (contour : Contour) (i : Z) : option Point :=
  if 0 <=? i then contour !! Z.to_nat i else None.

Definition size (contour : Contour) : Z := Z.of_nat (length contour).

(** Arithmetic on [size_t] wraps modulo [2^64]. *)
Definition wrap64 (z : Z) : Z := z mod 2 ^ 64.

Definition edge_test (region : Rect) (pt : Point) : bool :=
  (px pt =? rx region) || (py pt =? ry region) ||
  (px pt =? px (rect_br region) - 1) || (py pt =? py (rect_br region) - 1).

(** [-0.05f * (x * x) + 175] below 40, [-0.001f * (x * x) + 75.0f] from
    there on. *)
Definition arc_char_max (x : Z) : f32 :=
  if x <? 40 then
    F32.add (F32.mul (SFopp (F32.div (F32.of_int 5) (F32.of_int 100))) (F32.of_int (x * x)))
            (F32.of_int 175)
  else
    F32.add (F32.mul (SFopp (F32.div (F32.of_int 1) (F32.of_int 1000))) (F32.of_int (x * x)))
            (F32.of_int 75).

(** [std::max<float>(-0.1f * (x * x) + 50.0f, 10)] *)
Definition arc_char_min (x : Z) : f32 :=
  let a := F32.add (F32.mul (SFopp (F32.div (F32.of_int 1) (F32.of_int 10))) (F32.of_int (x * x)))
                   (F32.of_int 50) in
  let b := F32.of_int 10 in
  if SFltb a b then b else a.

(** [(contour[(best + 15) % n] + contour[(best - 15 + n) % n]) / 2] *)
Definition centre_of_mass (contour : Contour) (best : Z) : option Point :=
  a ← at_ contour (wrap64 (best + 15) mod size contour);
  b ← at_ contour (wrap64 (best - 15 + size contour) mod size contour);
  Some (pdiv (padd a b) 2).

(** State of the loop over the hull: [last], [best], [best_score] and
    the candidates emitted so far. *)
Record cluster_state : Type := mkCluster {
  last : Z;
  best : Z;
  best_score : Z;
  m_Candidates : list Candidate
}.

Section Detect.
(** What the tracker takes from OpenCV and the C library:
    - [findContours mask region]: the external contours of
      [mask(region)], without approximation, offset by [region.tl()];
    - [convexHull contour]: the hull as indices into the contour;
    - [arc_angle v u]: [fmod(360.0f + signed_angle_between(v, u), 360.0f)],
      the angle in degrees computed with [atan2]; [Angle.arc_angle]
      below is this function.
    Taking [mask(m_TrackingRegion)] raises an OpenCV error when the
    region leaves the mask; that error is not modelled, the results
    on [detect] are about the calls that return. *)
Variable findContours : Mask -> Rect -> list Contour.
Variable convexHull : Contour -> list Z.
Variable arc_angle : Point -> Point -> f32.

(** Twice [cv::contourArea(contour)]: the absolute value of the
    shoelace sum. *)
Definition contourArea2 (contour : Contour) : Z :=
  match contour with
  | [] => 0
  | p0 :: _ =>
      Z.abs (fst (foldl (fun '(acc, prev) p =>
                           (acc + (px prev * py p - px p * py prev), p))
                        (0, List.last contour p0) contour))
  end.

(** The steps [i = 4 .. ARC_TEST_LENGTH + 3] of [arc_score], from step
    [i] on, [n] steps being left. *)
Fixpoint arc_walk (region : Rect) (contour : Contour) (index : Z) (ref : Point)
         (n : nat) (i : Z) (score : Z) : option Z :=
  match n with
  | O => Some score
  | S n' =>
      prev ← at_ contour (wrap64 (index - i + size contour) mod size contour);
      next ← at_ contour (wrap64 (index + i) mod size contour);
      if edge_test region prev || edge_test region next then Some score
      else
        let angle := arc_angle (psub next ref) (psub prev ref) in
        if SFltb angle (arc_char_min i) || SFltb (arc_char_max i) angle
        then Some score
        else arc_walk region contour index ref n' (i + 1) (score + 1)
  end.

Definition arc_score (region : Rect) (contour : Contour) (index : Z) : option Z :=
  ref ← at_ contour index;
  if edge_test region ref then Some 0
  else arc_walk region contour index ref (Z.to_nat ARC_TEST_LENGTH) 4 0.

(** Position in the hull of its first point on the region edge, or the
    size of the hull when there is none. *)
Fixpoint find_offset (region : Rect) (contour : Contour) (hull : list Z) (offset : Z)
  : option Z :=
  match hull with
  | [] => Some offset
  | h :: rest =>
      p ← at_ contour h;
      if edge_test region p then Some offset
      else find_offset region contour rest (offset + 1)
  end.

(** One iteration of the loop over the extremities. *)
Definition cluster_step (region : Rect) (contour : Contour) (index : Z)
           (st : cluster_state) : option cluster_state :=
  score ← arc_score region contour index;
  ci ← at_ contour index;
  cl ← at_ contour (last st);
  let v := psub ci cl in
  st1 ←
    (if NONMAX_PROXIMIITY <? pdot v v then
       cands ←
         (if best st =? -1 then Some (m_Candidates st)
          else
            tip ← at_ contour (best st);
            c ← centre_of_mass contour (best st);
            Some (m_Candidates st ++ [(tip, c)]));
       Some (mkCluster index (-1) ARC_MIN_SCORE cands)
     else Some (mkCluster index (best st) (best_score st) (m_Candidates st)));
  if best_score st1 <? score
  then Some (mkCluster (last st1) index score (m_Candidates st1))
  else Some st1.

(** The hull indices in the order the loop visits them:
    [m_Extremities[(offset + i) % m_Extremities.size()]]. *)
Definition visit_order (hull : list Z) (offset : Z) : list (option Z) :=
  map (fun i => hull !! Z.to_nat ((offset + Z.of_nat i) mod Z.of_nat (length hull)))
      (seq 0 (length hull)).

Fixpoint cluster_loop (region : Rect) (contour : Contour)
         (order : list (option Z)) (st : cluster_state) : option cluster_state :=
  match order with
  | [] => Some st
  | oi :: rest =>
      index ← oi;
      st' ← cluster_step region contour index st;
      cluster_loop region contour rest st'
  end.

(** The body of the loop over the contours: the candidates this
    contour adds to [m_Candidates]. *)
Definition contour_candidates (region : Rect) (contour : Contour)
           (cands : list Candidate) : option (list Candidate) :=
  if contourArea2 contour <? 2 * MIN_CONTOUR_AREA then Some cands
  else
    let hull := convexHull contour in
    match hull with
    | [] => Some cands
    | _ =>
        offset ← find_offset region contour hull 0;
        st ← cluster_loop region contour (visit_order hull offset)
                          (mkCluster offset (-1) ARC_MIN_SCORE cands);
        Some (m_Candidates st)
    end.

Definition find_candidates (region : Rect) (mask : Mask) : option (list Candidate) :=
  foldl (fun acc contour => cands ← acc; contour_candidates region contour cands)
        (Some []) (findContours mask region).

(** ** Tracking *)

(** [std::swap(v[i], v.back()); v.pop_back();] *)
Definition swap_remove {A : Type} (v : list A) (i : nat) : list A :=
  match List.last (map Some v) None with
  | Some b => removelast (<[i := b]> v)
  | None => v
  end.

(** The inner loop: the closest candidate strictly nearer than the
    running [closest_distance_sqr], as an index, or [-1]. *)
Fixpoint closest_candidate (finger_point : Point) (cands : list Candidate)
         (c : Z) (closest_distance_sqr : Z) (match_index : Z) : Z :=
  match cands with
  | [] => match_index
  | candidate :: rest =>
      let offset := psub finger_point (fst candidate) in
      let distance_sqr := pdot offset offset in
      if distance_sqr <? closest_distance_sqr
      then closest_candidate finger_point rest (c + 1) distance_sqr c
      else closest_candidate finger_point rest (c + 1) closest_distance_sqr match_index
  end.

Definition find_match (finger_point : Point) (cands : list Candidate) : Z :=
  closest_candidate finger_point cands 0 (MAX_TRACKING_RANGE ^ 2) (-1).

(** The loop over the tracking memory.  Every iteration either moves
    on to the next entry or removes the current one, so the number of
    iterations [n] left is the number of entries from [m] on. *)
Fixpoint match_loop (n : nat) (m : nat) (memory : list (Fingertip * Z))
         (cands : list Candidate) (fingertips : list Fingertip)
  : list (Fingertip * Z) * list Candidate * list Fingertip :=
  match n with
  | O => (memory, cands, fingertips)
  | S n' =>
      match memory !! m with
      | None => (memory, cands, fingertips)
      | Some (finger, life) =>
          let match_index := find_match (point finger) cands in
          match (if 0 <=? match_index then cands !! Z.to_nat match_index else None) with
          | Some candidate =>
              match_loop n' m (swap_remove memory m)
                         (swap_remove cands (Z.to_nat match_index))
                         (fingertips ++
                            [mkFingertip (fst candidate) (snd candidate)
                                         (age finger + 1) (id finger)])
          | None => match_loop n' (S m) memory cands fingertips
          end
      end
  end.

(** Remaining candidates become fingers of age one with fresh ids. *)
Fixpoint add_new (cands : list Candidate) (next_id : Z) (fingertips : list Fingertip)
  : list Fingertip * Z :=
  match cands with
  | [] => (fingertips, next_id)
  | candidate :: rest =>
      add_new rest (next_id + 1)
              (fingertips ++ [mkFingertip (fst candidate) (snd candidate) 1 next_id])
  end.

(** First loop of [update_tracking_memory]: lives are decremented in
    place, dead entries removed. *)
Fixpoint age_loop (n : nat) (m : nat) (memory : list (Fingertip * Z))
  : list (Fingertip * Z) :=
  match n with
  | O => memory
  | S n' =>
      match memory !! m with
      | None => memory
      | Some (finger, life) =>
          let memory' := <[m := (finger, life - 1)]> memory in
          if life - 1 <=? 0 then age_loop n' m (swap_remove memory' m)
          else age_loop n' (S m) memory'
      end
  end.

Definition update_tracking_memory (memory : list (Fingertip * Z))
           (fingertips : list Fingertip) : list (Fingertip * Z) :=
  age_loop (length memory) 0 memory ++ map (fun f => (f, MAX_TRACKING_LIFE)) fingertips.

(** From the matching loop to the end of [detect]: the fingertips
    returned, the next id and the new tracking memory. *)
Definition track (memory : list (Fingertip * Z)) (cands : list Candidate) (next_id : Z)
  : list Fingertip * Z * list (Fingertip * Z) :=
  let '(memory1, cands1, tracked) := match_loop (length memory) 0 memory cands [] in
  let '(fingertips, next_id') := add_new cands1 next_id tracked in
  (fingertips, next_id', update_tracking_memory memory1 fingertips).

(** The head of [detect]: the countdown and the tracking region the
    call works in. *)
Definition update_region (t : tracker) (mask : Mask) : Z * Rect :=
  let timer := m_TrackingResetTimer t - 1 in
  if timer <=? 0 then (timer, full_frame mask) else (timer, m_TrackingRegion t).

Definition detect (t : tracker) (mask : Mask) : option (list Fingertip * tracker) :=
  let '(timer, region) := update_region t mask in
  cands ← find_candidates region mask;
  let '(fingertips, next_id, memory) := track (m_TrackingMemory t) cands (m_NextID t) in
  Some (fingertips, mkTracker region timer next_id memory).

End Detect.

(** Successive calls of [detect], one per frame. *)
Fixpoint detect_all (findContours : Mask -> Rect -> list Contour)
         (convexHull : Contour -> list Z) (arc_angle : Point -> Point -> f32)
         (masks : list Mask) (t : tracker) : option tracker :=
  match masks with
  | [] => Some t
  | mask :: rest =>
      r ← detect findContours convexHull arc_angle t mask;
      detect_all findContours convexHull arc_angle rest r.2
  end.

(** [focus(point, size)] with [size = (width, height)]. *)
Definition focus (t : tracker) (p : Point) (width height : Z) : tracker :=
  let half_w := width ÷ 2 in
  let half_h := height ÷ 2 in
  let top_left := mkPoint (Z.max (px p - half_w) 0) (Z.max (py p - half_h) 0) in
  let bot_right :=
    mkPoint (Z.min (px p + half_w) (CALIB_OUTPUT_WIDTH - 1))
            (Z.min (py p + half_h) (CALIB_OUTPUT_HEIGHT - 1)) in
  mkTracker (rect_of_points top_left bot_right) FOCUS_RESET_TIME
            (m_NextID t) (m_TrackingMemory t).

(** The region and countdown after the heads of [n] further calls of
    [detect] on frames of the size of [mask]; the rest of [detect]
    leaves both alone. *)
Fixpoint after_detects (n : nat) (mask : Mask) (timer : Z) (region : Rect) : Z * Rect :=
  match n with
  | O => (timer, region)
  | S n' =>
      let '(timer', region') :=
        update_region (mkTracker region timer 0 []) mask in
      after_detects n' mask timer' region'
  end.

(** The focused region as the specification words it: the square
    [point - size/2, point + size/2] clamped to the view [R], the
    calibrated output of 640 x 480, as a rectangle between its two
    corners. *)
Definition view_square (p : Point) (width height : Z) : Rect :=
  let x0 := Z.max (px p - width ÷ 2) 0 in
  let y0 := Z.max (py p - height ÷ 2) 0 in
  let x1 := Z.min (px p + width ÷ 2) CALIB_OUTPUT_WIDTH in
  let y1 := Z.min (py p + height ÷ 2) CALIB_OUTPUT_HEIGHT in
  mkRect x0 y0 (x1 - x0) (y1 - y0).

(** The region the [k]-th call of [detect] after a [focus] works in
    ([k] from 1), the frames having the size of [mask]. *)
Definition region_in_effect (t : tracker) (mask : Mask) (k : nat) : Rect :=
  (after_detects k mask (m_TrackingResetTimer t) (m_TrackingRegion t)).2.

(** Every hull point visited after [prev] lies within the clustering
    distance of the one visited just before it: the visited points form
    a single cluster. *)
Fixpoint within_chain (contour : Contour) (prev : Z) (order : list Z) : bool :=
  match order with
  | [] => true
  | i :: rest =>
      match at_ contour prev, at_ contour i with
      | Some a, Some b =>
          (pdot (psub b a) (psub b a) <=? NONMAX_PROXIMIITY) && within_chain contour i rest
      | _, _ => false
      end
  end.

End FingerTracker.

(* ===================================================================== *)
(** * main: the touch decider                                             *)
(* ===================================================================== *)

Module Touch.
Import FingerTracker.

Definition MIN_FINGER_AGE : Z := 5.

(** The loop over the fingertips: [last_id] is [last_fingertip.id],
    the state is [oldest_age] and [chosen_fingertip]. *)
Fixpoint choose (last_id : Z) (fingertips : list Fingertip) (oldest_age : Z)
         (chosen : option Fingertip) : option Fingertip :=
  match fingertips with
  | [] => chosen
  | fingertip :: rest =>
      if id fingertip =? last_id then Some fingertip
      else if oldest_age <=? age fingertip
           then choose last_id rest (age fingertip) (Some fingertip)
           else choose last_id rest oldest_age chosen
  end.

Definition choose_fingertip (last_id : Z) (fingertips : list Fingertip) : option Fingertip :=
  choose last_id fingertips MIN_FINGER_AGE None.

(** The first fingertip carrying a given id. *)
Fixpoint first_with_id (last_id : Z) (fingertips : list Fingertip) : option Fingertip :=
  match fingertips with
  | [] => None
  | f :: rest => if id f =? last_id then Some f else first_with_id last_id rest
  end.

(** [cv::norm(com - point) + 7] truncated to [int]: the square root is
    taken in double precision, whose floor on an integer argument of
    this size is the integer square root. *)
Definition radius (com point : Point) : Z :=
  let d := psub com point in Z.sqrt (pdot d d) + 7.

Definition touch_roi (shadow_mask : Mask) (com point : Point) : Rect :=
  let r := radius com point in
  rect_of_points
    (mkPoint (Z.max (px com - r) 0) (Z.max (py com - r) 0))
    (mkPoint (Z.min (px com + r) (cols shadow_mask - 2))
             (Z.min (py com + r) (rows shadow_mask - 2))).

Definition touch_thresh : Z := 20.
Definition hover_thresh : Z := 30.

(** [static_cast<float>(shadow) / static_cast<float>(foreground)] *)
Definition ratio (shadow foreground : Z) : f32 :=
  F32.div (F32.of_int shadow) (F32.of_int foreground).

(** The two tests at the end: [Some true] a touch, [Some false] a
    hover, [None] neither. *)
Definition ratio_test (shadow foreground : Z) : option bool :=
  let ratio := ratio shadow foreground in
  if F32.leb ratio (F32.div (F32.of_int touch_thresh) (F32.of_int 100)) then Some true
  else if F32.leb ratio (F32.div (F32.of_int hover_thresh) (F32.of_int 100)) then Some false
  else None.

(** The outcome of a call: an OpenCV error ([Raised]) or the returned
    optional action together with the new [last_fingertip]. *)
Inductive outcome : Type :=
| Raised
| Returned (action : option (Point * bool)) (last_fingertip : Fingertip).

Definition find_touch_action (last_fingertip : Fingertip)
           (fingertips : list Fingertip) (foreground_mask shadow_mask : Mask)
  : outcome :=
  match choose_fingertip (id last_fingertip) fingertips with
  | Some chosen =>
      let roi := touch_roi shadow_mask (com chosen) (point chosen) in
      match countNonZero_roi shadow_mask roi, countNonZero_roi foreground_mask roi with
      | Some shadow, Some foreground =>
          match ratio_test shadow foreground with
          | Some touch => Returned (Some (point chosen, touch)) chosen
          | None => Returned None chosen
          end
      | _, _ => Raised
      end
  | None => Returned None last_fingertip
  end.

(** The default-constructed [last_fingertip]. *)
Definition no_fingertip : Fingertip := mkFingertip (mkPoint 0 0) (mkPoint 0 0) 0 0.

(** The touch test as the specification words it: the square of side
    [2r] centred on [com], clipped to the frame, and the decision on
    the exact ratio of the two counts in it. *)
Definition spec_roi (m : Mask) (com point : Point) : Rect :=
  let r := radius com point in
  let x0 := Z.max (px com - r) 0 in
  let y0 := Z.max (py com - r) 0 in
  let x1 := Z.min (px com + r) (cols m) in
  let y1 := Z.min (py com + r) (rows m) in
  mkRect x0 y0 (x1 - x0) (y1 - y0).

Definition spec_decision (shadow foreground : Z) : option bool :=
  if (0 <? foreground) && (100 * shadow <=? 20 * foreground) then Some true
  else if (0 <? foreground) && (100 * shadow <=? 30 * foreground) then Some false
  else None.

(** The action the specification announces for a chosen fingertip. *)
Definition spec_action (foreground_mask shadow_mask : Mask) (chosen : Fingertip)
  : option (Point * bool) :=
  let roi := spec_roi shadow_mask (com chosen) (point chosen) in
  match spec_decision (count_in shadow_mask roi) (count_in foreground_mask roi) with
  | Some touch => Some (point chosen, touch)
  | None => None
  end.

(** The rectangle [touch_roi] comes to for a centre of mass inside the
    frame: the square of side [2r] around [com] cut to the columns
    below [cols - 2] and the rows below [rows - 2]. *)
Definition clipped_roi (m : Mask) (com point : Point) : Rect :=
  let r := radius com point in
  let x0 := Z.max (px com - r) 0 in
  let y0 := Z.max (py com - r) 0 in
  let x1 := Z.min (px com + r) (cols m - 2) in
  let y1 := Z.min (py com + r) (rows m - 2) in
  mkRect x0 y0 (x1 - x0) (y1 - y0).

End Touch.

(* ===================================================================== *)
(** * Utility/Common: the chessboard and the error test                   *)
(* ===================================================================== *)

Module Utility.

(** [cv::repeat(src, ny, nx, dst)]: [src] tiled [ny] times down and
    [nx] times across; both counts must be positive. *)
Definition repeat {A : Type} (src : list (list A)) (ny nx : Z) : option (list (list A)) :=
  if (0 <? ny) && (0 <? nx)
  then Some (mjoin (replicate (Z.to_nat ny)
                      (map (fun row => mjoin (replicate (Z.to_nat nx) row)) src)))
  else None.

(** [make_chessboard(size, colour_1, colour_2)]: the image as a list of
    rows, [None] when a [CV_Assert] fails.  [%] and [/] are those of the
    C++ [int]. *)
Definition make_chessboard {A : Type} (width height : Z) (colour_1 colour_2 : A)
  : option (list (list A)) :=
  if (Z.rem width 2 =? 0) && (Z.rem height 2 =? 0) then
    if (1 <? width) && (1 <? height) then
      repeat [[colour_1; colour_2]; [colour_2; colour_1]] (height ÷ 2) (width ÷ 2)
    else None
  else None.

(** [(std::abs(actual - sample) / actual) <= percentage_error] *)
Definition error_within (actual sample percentage_error : f32) : bool :=
  F32.leb (F32.div (SFabs (F32.sub actual sample)) actual) percentage_error.

End Utility.

(* ===================================================================== *)
(** * Systems/ViewCalibrator: the photometric patterns                    *)
(* ===================================================================== *)

Module Photometric.
Import Common ViewCalibrator.

(** [cvRound]: the same rule in both precisions. *)
Definition cvRound (x : f32) : Z := F64.round_int x.

(** [cv::saturate_cast<uint8_t>(float)] *)
Definition saturate_u8 (x : f32) : Z := Z.max 0 (Z.min 255 (cvRound x)).

(** The grid node a map index stands for:
    [x = map_index % CMAP_SIZE], [y = (map_index / CMAP_SIZE) % CMAP_SIZE],
    [z = map_index / (CMAP_SIZE * CMAP_SIZE)], with the operators of the
    C++ [int]. *)
Definition node_of_index (map_index : Z) : Z * Z * Z :=
  (Z.rem map_index CMAP_SIZE,
   Z.rem (map_index ÷ CMAP_SIZE) CMAP_SIZE,
   map_index ÷ (CMAP_SIZE * CMAP_SIZE)).

(** [cv::saturate_cast<uint8_t>(x * CMAP_STEP * 255.0f)] *)
Definition level (x : Z) : Z :=
  saturate_u8 (F32.mul (F32.mul (F32.of_int x) CMAP_STEP) (F32.of_int 255)).

(** Pixel [i] of pattern [k], as [pattern.at<cv::Vec3b>(i)] receives
    it, and the whole 16x16 pattern in row-major order. *)
Definition pattern_pixel (k i : Z) : Z * Z * Z :=
  let map_index := (k * 256) + i in
  let '(x, y, z) := node_of_index map_index in
  (level x, level y, level z).

Definition pattern (k : Z) : list (Z * Z * Z) :=
  map (pattern_pixel k) (range 256).

(** [sample_size] and the region [roi] of pattern cell [(r, c)] in the
    corrected capture, for an output of [width] x [height] and the
    16x16 pattern. *)
Definition sample_width (width : Z) : Z := width ÷ PATTERN_COLS.
Definition sample_height (height : Z) : Z := height ÷ PATTERN_ROWS.

Definition sample_roi (width height r c : Z) : Rect :=
  mkRect (c * sample_width width) (r * sample_height height)
         (sample_width width) (sample_height height).

(** The pixels [(row, column)] the two inner loops read for a cell. *)
Definition sample_reads (width height r c : Z) : list (Z * Z) :=
  let roi := sample_roi width height r c in
  rr ← range (rheight roi); rc ← range (rwidth roi); [(rr + ry roi, rc + rx roi)].

(** The interpolation factor [predict] derives for one 8-bit channel
    value: [(norm_col - sub_coord) / CMAP_STEP] for that channel. *)
Definition channel_factor (b : Byte.byte) : option f32 :=
  let norm := F32.mul (F32.of_int (byte_to_Z b)) (F32.div F32.one (F32.of_int 255)) in
  x ← cube_index norm;
  Some (F32.mul (F32.sub norm (F32.mul (F32.of_int x) CMAP_STEP))
                (F32.div F32.one CMAP_STEP)).

End Photometric.

(* ===================================================================== *)
(** * Systems/ViewCalibrator: the corners of the screen                   *)
(* ===================================================================== *)

Module ScreenDetection.

(** [cv::Point2f] with the operators used on it. *)
Record Point2f : Type := mkPoint2f { x2f : f32; y2f : f32 }.

Definition of_point (p : Point) : Point2f :=
  mkPoint2f (F32.of_int (px p)) (F32.of_int (py p)).

Definition add2f (a b : Point2f) : Point2f :=
  mkPoint2f (F32.add (x2f a) (x2f b)) (F32.add (y2f a) (y2f b)).

(** [a * p] for a [float] [a]. *)
Definition scale2f (a : f32) (p : Point2f) : Point2f :=
  mkPoint2f (F32.mul (x2f p) a) (F32.mul (y2f p) a).

(** The default-constructed point. *)
Definition origin2f : Point2f := mkPoint2f F32.zero F32.zero.

(** [0.25f * (corners[0] + corners[1] + corners[2] + corners[3])];
    reading past the end of the vector is undefined ([None]). *)
Definition centroid (corners : list Point2f) : option Point2f :=
  c0 ← corners !! 0%nat; c1 ← corners !! 1%nat;
  c2 ← corners !! 2%nat; c3 ← corners !! 3%nat;
  Some (scale2f (F32.div F32.one (F32.of_int 4))
                (add2f (add2f (add2f c0 c1) c2) c3)).

(** The index a corner is sorted into. *)
Definition quadrant (centre corner : Point2f) : nat :=
  if SFltb (x2f corner) (x2f centre)
  then (if SFltb (y2f corner) (y2f centre) then 0 else 1)
  else (if SFltb (y2f corner) (y2f centre) then 3 else 2).

(** The re-ordering loop at the end of [detect_screen]:
    [ordered_corners] starts as four default points. *)
Definition order_corners (corners : list Point2f) : option (list Point2f) :=
  centre ← centroid corners;
  Some (foldl (fun ordered corner => <[quadrant centre corner := corner]> ordered)
              (replicate 4 origin2f) corners).

(** The test on a vertex of the simplified contour. *)
Definition touches_border (cols rows : Z) (vertex : Point) : bool :=
  (px vertex <=? 0) || (py vertex <=? 0)
  || (cols - 1 <=? px vertex) || (rows - 1 <=? py vertex).

Section Tail.
(** [cv::cornerSubPix] refines the corners in place. *)
Variable cornerSubPix : list Point2f -> list Point2f.

(** [detect_screen] from the simplified contour on: [Some None] is
    [std::nullopt]. *)
Definition ordered_screen_corners (cols rows : Z) (screen_contour : list Point)
  : option (option (list Point2f)) :=
  if negb (length screen_contour =? 4)%nat then Some None
  else if existsb (touches_border cols rows) screen_contour then Some None
  else
    ordered ← order_corners (cornerSubPix (map of_point screen_contour));
    Some (Some ordered).
End Tail.

(** The ideal screen corners of [find_geometric_model] for an output
    of [width] x [height]: [tl], [(tl.x, br.y)], [br], [(br.x, tl.y)]. *)
Definition ideal_screen_corners (width height : Z) : list Point2f :=
  let tl := mkPoint2f (F32.of_int 0) (F32.of_int 0) in
  let br := mkPoint2f (F32.of_int width) (F32.of_int height) in
  [ mkPoint2f (x2f tl) (y2f tl); mkPoint2f (x2f tl) (y2f br);
    mkPoint2f (x2f br) (y2f br); mkPoint2f (x2f br) (y2f tl) ].

End ScreenDetection.

(* ===================================================================== *)
(** * Abstractions/Webcam: the frame period                               *)
(* ===================================================================== *)

Module Webcam.

(** [std::round] on a [float] followed by the conversion to [int]:
    the nearest integer, halves away from zero; undefined ([None]) for
    NaN, the infinities and values outside [int]. *)
Definition round_to_int (x : f32) : option Z :=
  match x with
  | S754_zero _ => Some 0
  | S754_finite s m e =>
      let a :=
        if 0 <=? e then Z.shiftl (Zpos m) e
        else
          let d := 2 ^ (- e) in
          if 2 * (Zpos m mod d) <? d then Zpos m / d else Zpos m / d + 1 in
      let v := if s then - a else a in
      if (- 2147483648 <=? v) && (v <=? 2147483647) then Some v else None
  | _ => None
  end.

(** [latency_ms(std::round(1000.0f / static_cast<float>(framerate)))] *)
Definition latency_ms (framerate : Z) : option Z :=
  round_to_int (F32.div (F32.of_int 1000) (F32.of_int framerate)).

End Webcam.

(* ===================================================================== *)
(** * Systems/MaskGenerator: the shadow mask                              *)
(* ===================================================================== *)

Module Segmentation.

Definition SHADOW_OFFSET : Z := 50.

(** A single-channel 8-bit image: the value at column [x], row [y]. *)
Abbreviation Gray := (Z -> Z -> Z).

(** [cv::threshold] with [THRESH_BINARY] and [THRESH_BINARY_INV],
    [maxval = 255], for a threshold that is not negative: on 8-bit data
    OpenCV compares with the floor of the threshold. *)
Definition threshold_binary (thresh : Z) (src : Gray) : Gray :=
  fun x y => if thresh <? src x y then 255 else 0.

Definition threshold_binary_inv (thresh : Z) (src : Gray) : Gray :=
  fun x y => if thresh <? src x y then 0 else 255.

Definition bitwise_not (src : Gray) : Gray := fun x y => 255 - src x y.

(** [dst.setTo(value, mask)]: where the mask is not zero. *)
Definition setTo (value : Z) (mask dst : Gray) : Gray :=
  fun x y => if mask x y =? 0 then dst x y else value.

(** [cvFloor] of a [float] value; undefined ([None]) when it is not
    finite or leaves [int]. *)
Definition cvFloor (x : f32) : option Z :=
  match x with
  | S754_zero _ => Some 0
  | S754_finite s m e =>
      let v :=
        if 0 <=? e then (if s then - Z.shiftl (Zpos m) e else Z.shiftl (Zpos m) e)
        else (if s then - (Zpos m) else Zpos m) / 2 ^ (- e) in
      if (- 2147483648 <=? v) && (v <=? 2147483647) then Some v else None
  | _ => None
  end.

(** The threshold of the last call: [m_AmbientIntensity + SHADOW_OFFSET]. *)
Definition shadow_thresh (m_AmbientIntensity : f32) : option Z :=
  cvFloor (F32.add m_AmbientIntensity (F32.of_int SHADOW_OFFSET)).

(** The end of [segment], from the last threshold of the foreground
    mask on.  [smoothed] is the mask after [cv::boxFilter], [gray] the
    view converted with [COLOR_BGR2GRAY]; the result is the pair
    (foreground mask, shadow mask). *)
Definition masks (m_AmbientIntensity : f32) (smoothed gray : Gray) : option (Gray * Gray) :=
  thresh ← shadow_thresh m_AmbientIntensity;
  let foreground_mask := threshold_binary 192 smoothed in
  let m_BackgroundMask := bitwise_not foreground_mask in
  let m_ForegroundView := setTo 255 m_BackgroundMask gray in
  Some (foreground_mask, threshold_binary_inv thresh m_ForegroundView).

(** An image of [cols] x [rows] seen as a mask. *)
Definition mask_of (cols rows : Z) (g : Gray) : Mask :=
  mkMask cols rows (fun x y => negb (g x y =? 0)).

End Segmentation.

(* ===================================================================== *)
(** * Systems/FingerTracker: counting the clusters of a hull              *)
(* ===================================================================== *)

Module HullWalk.
Import FingerTracker.

(** The number of hull points, in visiting order, that lie farther than
    the clustering distance from the point visited before them;
    [prev] is the value of [last] when the loop starts. *)
Fixpoint breaks (contour : Contour) (prev : Z) (order : list Z) : nat :=
  match order with
  | [] => 0%nat
  | i :: rest =>
      match at_ contour prev, at_ contour i with
      | Some a, Some b =>
          let jump := NONMAX_PROXIMIITY <? pdot (psub b a) (psub b a) in
          ((if jump then 1 else 0) + breaks contour i rest)%nat
      | _, _ => 0%nat
      end
  end.

End HullWalk.

(* ===================================================================== *)
(** * Abstractions/Mouse: the button state                                *)
(* ===================================================================== *)

Module Mouse.

(** The flags of the [INPUT] records handed to [SendInput]. *)
Inductive input : Type :=
| MOUSEEVENTF_LEFTDOWN
| MOUSEEVENTF_LEFTUP
| MOUSEEVENTF_RIGHTDOWN
| MOUSEEVENTF_RIGHTUP.

#[global] Instance input_eq_dec : EqDecision input.
Proof. solve_decision. Defined.

(** The two flags of the class; both start [false].  [move] reads and
    writes neither of them and sends no button input: the cursor
    position it maintains is kept apart, in [Cursor] below. *)
Record buttons : Type := mkButtons {
  m_LeftClickDown : bool;
  m_RightClickDown : bool
}.

Definition released : buttons := mkButtons false false.

(** Each function returns the new flags and the inputs it sent. *)
Definition hold_left (b : buttons) : buttons * list input :=
  (mkButtons true (m_RightClickDown b), [MOUSEEVENTF_LEFTDOWN]).

Definition hold_right (b : buttons) : buttons * list input :=
  (mkButtons (m_LeftClickDown b) true, [MOUSEEVENTF_RIGHTDOWN]).

Definition release_hold (b : buttons) : buttons * list input :=
  let left := if m_LeftClickDown b then [MOUSEEVENTF_LEFTUP] else [] in
  let right := if m_RightClickDown b then [MOUSEEVENTF_RIGHTUP] else [] in
  (mkButtons false false, left ++ right).

(** A call of one of the three, and a sequence of calls on one mouse. *)
Inductive call : Type := HoldLeft | HoldRight | ReleaseHold.

Definition perform (c : call) (b : buttons) : buttons * list input :=
  match c with
  | HoldLeft => hold_left b
  | HoldRight => hold_right b
  | ReleaseHold => release_hold b
  end.

Fixpoint perform_all (calls : list call) (b : buttons) : buttons * list input :=
  match calls with
  | [] => (b, [])
  | c :: rest =>
      let '(b1, sent1) := perform c b in
      let '(b2, sent2) := perform_all rest b1 in
      (b2, sent1 ++ sent2)
  end.

(** What the inputs do to the buttons of the system: a pair (left is
    down, right is down). *)
Definition press (held : bool * bool) (i : input) : bool * bool :=
  match i with
  | MOUSEEVENTF_LEFTDOWN => (true, snd held)
  | MOUSEEVENTF_LEFTUP => (false, snd held)
  | MOUSEEVENTF_RIGHTDOWN => (fst held, true)
  | MOUSEEVENTF_RIGHTUP => (fst held, false)
  end.

(** No release of a button that is not down. *)
Fixpoint releases_held (held : bool * bool) (sent : list input) : bool :=
  match sent with
  | [] => true
  | i :: rest =>
      match i with
      | MOUSEEVENTF_LEFTUP => fst held
      | MOUSEEVENTF_RIGHTUP => snd held
      | _ => true
      end && releases_held (press held i) rest
  end.

End Mouse.

(* ===================================================================== *)
(** * main: one turn of the processing loop                               *)
(* ===================================================================== *)

Module Main.
Import FingerTracker Touch Mouse.

Section Loop.
Variable findContours : Mask -> Rect -> list Contour.
Variable convexHull : Contour -> list Z.
Variable arc_angle : Point -> Point -> f32.
(** The cursor side of [Mouse]: its state and [move(coord, smoothing)]. *)
Context {Cursor : Type}.
Variable move : Cursor -> Point -> bool -> Cursor.

(** What lives across the turns of the loop: the tracker, the
    [thread_local last_fingertip] of [find_touch_action], the mouse,
    and the button inputs sent so far. *)
Record state : Type := mkState {
  finger_tracker : tracker;
  last_fingertip : Fingertip;
  cursor : Cursor;
  mouse : buttons;
  sent : list input
}.

Definition start (c : Cursor) : state :=
  mkState init no_fingertip c released [].

(** The body of the loop from [finger_tracker.detect] on, for the two
    masks [segment] produced; [None] when OpenCV raises.  The result
    carries the action the turn acted upon. *)
Definition turn (s : state) (foreground_mask shadow_mask : Mask)
  : option (state * option (Point * bool)) :=
  '(fingertips, tracker1) ←
     detect findContours convexHull arc_angle (finger_tracker s) foreground_mask;
  match find_touch_action (last_fingertip s) fingertips foreground_mask shadow_mask with
  | Raised => None
  | Returned (Some (point, touch)) last =>
      let tracker2 := focus tracker1 point 256 256 in
      let cursor1 := move (cursor s) point true in
      let '(mouse1, sent1) :=
        if touch then hold_left (mouse s) else (mouse s, []) in
      Some (mkState tracker2 last cursor1 mouse1 (sent s ++ sent1), Some (point, touch))
  | Returned None last =>
      let '(mouse1, sent1) := release_hold (mouse s) in
      Some (mkState tracker1 last (cursor s) mouse1 (sent s ++ sent1), None)
  end.

(** The turns for a sequence of mask pairs; the actions are listed in
    order. *)
Fixpoint turns (s : state) (frames : list (Mask * Mask))
  : option (state * list (option (Point * bool))) :=
  match frames with
  | [] => Some (s, [])
  | (foreground_mask, shadow_mask) :: rest =>
      '(s1, action) ← turn s foreground_mask shadow_mask;
      '(s2, actions) ← turns s1 rest;
      Some (s2, action :: actions)
  end.

End Loop.

(** The left button after a sequence of actions, as the loop leaves it:
    a touch presses, no action releases, a hover changes nothing. *)
Definition left_after (held : bool) (actions : list (option (Point * bool))) : bool :=
  foldl (fun h a => match a with
                    | Some (_, touch) => h || touch
                    | None => false
                    end) held actions.

Definition is_touch (a : option (Point * bool)) : bool :=
  match a with Some (_, true) => true | _ => false end.

End Main.

(* ===================================================================== *)
(** * Utility/Common: the angle between two vectors                       *)
(* ===================================================================== *)

Module Angle.
Import ScreenDetection.

(** ** The C library on [float]

    [std::atan2] and [fmod] are not part of the repository.  [fmod] is
    exact and is written out.  [atan2] is the arctangent of IEEE 754:
    the angle is computed in fixed point, to more than forty bits of
    the result, and rounded to the nearest [float], which is what
    the library returns up to its last bit. *)

(** [sum_k (-1)^k t^(2k+1) / (2k+1)] for [t = T / 2^P], at scale [2^P];
    [pw] is [t^(2k+1)], [k] the index of the term and [n] the number
    of terms left. *)
Fixpoint atan_series (P T2 : Z) (n : nat) (k : Z) (pw acc : Z) : Z :=
  match n with
  | O => acc
  | S n' =>
      let term := pw / (2 * k + 1) in
      atan_series P T2 n' (k + 1) (Z.shiftr (pw * T2) P)
                  (if Z.even k then acc + term else acc - term)
  end.

Definition atan_small (n : nat) (P T : Z) : Z :=
  atan_series P (Z.shiftr (T * T) P) n 0 T 0.

(** Machin: [pi = 16 atan (1/5) - 4 atan (1/239)], at scale [2^128]. *)
Definition pi_128 : Z :=
  Eval vm_compute in
    16 * atan_small 64 128 (Z.shiftl 1 128 / 5) - 4 * atan_small 64 128 (Z.shiftl 1 128 / 239).

(** [pi] at scale [2^P]. *)
Definition pi_fix (P : Z) : Z := Z.shiftl pi_128 (P - 128).

(** [atan t = 2 atan (t / (1 + sqrt (1 + t^2)))] *)
Definition halve (P T : Z) : Z :=
  Z.shiftl T P / (Z.shiftl 1 P + Z.sqrt (Z.shiftl 1 (2 * P) + T * T)).

(** The arctangent of [T / 2^P], for [0 <= T <= 2^P], at scale [2^P]:
    three halvings bring [t] below [1/10], where eight terms of the
    series give more than forty bits. *)
Definition atan_fix (P T : Z) : Z :=
  8 * atan_small 8 P (halve P (halve P (halve P T))).

(** The angle of the point [(X, Y)] with [0 < X] or [0 < Y], both not
    negative, at scale [2^P]. *)
Definition angle_fix (P Y X : Z) : Z :=
  if Y <=? X then atan_fix P (Z.shiftl Y P / X)
  else pi_fix P / 2 - atan_fix P (Z.shiftl X P / Y).

Definition sign_of (x : f32) : bool :=
  match x with
  | S754_zero s | S754_infinity s | S754_finite s _ _ => s
  | S754_nan => false
  end.

(** A multiple of pi with the sign of [y], rounded to [float]:
    [num / den * pi]. *)
Definition pi_times (s : bool) (num den : Z) : f32 :=
  let a := num * pi_128 / den in
  binary_normalize F32.prec F32.emax (if s then - a else a) (- 128) false.

(** [std::atan2(y, x)] on [float], with the special values of IEEE 754:
    the angle of the point [(x, y)], between [-pi] and [pi], with the
    sign of [y]. *)
Definition atan2f (y x : f32) : f32 :=
  match y, x with
  | S754_nan, _ | _, S754_nan => S754_nan
  | S754_zero sy, _ => if sign_of x then pi_times sy 1 1 else S754_zero sy
  | S754_infinity sy, S754_infinity sx =>
      if sx then pi_times sy 3 4 else pi_times sy 1 4
  | S754_infinity sy, _ => pi_times sy 1 2
  | S754_finite sy _ _, S754_zero _ => pi_times sy 1 2
  | S754_finite sy _ _, S754_infinity sx =>
      if sx then pi_times sy 1 1 else S754_zero sy
  | S754_finite sy my ey, S754_finite sx mx ex =>
      let e := Z.min ey ex in
      let Y := Z.shiftl (Zpos my) (ey - e) in
      let X := Z.shiftl (Zpos mx) (ex - e) in
      let P := 48 + Z.abs (Z.log2 Y - Z.log2 X) in
      let a := angle_fix P Y X in
      let a := if sx then pi_fix P - a else a in
      binary_normalize F32.prec F32.emax (if sy then - a else a) (- P) false
  end.

(** [fmod(x, y)] on [float]: [x - n * y] for the integer [n] that
    [x / y] truncates to; the result is exact and has the sign of [x]. *)
Definition fmodf (x y : f32) : f32 :=
  match x, y with
  | S754_nan, _ | _, S754_nan | S754_infinity _, _ | _, S754_zero _ => S754_nan
  | S754_zero _, _ | _, S754_infinity _ => x
  | S754_finite sx mx ex, S754_finite _ my ey =>
      let e := Z.min ex ey in
      let r := Z.shiftl (Zpos mx) (ex - e) mod Z.shiftl (Zpos my) (ey - e) in
      if r =? 0 then S754_zero sx
      else binary_normalize F32.prec F32.emax (if sx then - r else r) e false
  end.

(** ** [signed_angle_between] *)

(** [std::numbers::pi], the [double] [0x400921FB54442D18]. *)
Definition pi64 : F64.f64 := S754_finite false 7074237752028440 (- 51).

(** [180.0f / std::numbers::pi], a [double]. *)
Definition degrees_per_radian : F64.f64 :=
  Eval vm_compute in F64.div (F64.of_int 180) pi64.

(** The conversion of a [double] to [float]. *)
Definition to_float (x : F64.f64) : f32 :=
  match x with
  | S754_finite s m e =>
      binary_normalize F32.prec F32.emax (if s then Zneg m else Zpos m) e s
  | _ => x
  end.

(** [std::atan2(u.x * v.y - u.y * v.x, u.x * v.x + u.y * v.y)
      * (180.0f / std::numbers::pi)]: the arctangent is taken on
    [float], the factor and the product are [double], the value
    returned is a [float]. *)
Definition signed_angle_between (v u : Point2f) : f32 :=
  to_float
    (SFmul F64.prec F64.emax
       (atan2f (F32.sub (F32.mul (x2f u) (y2f v)) (F32.mul (y2f u) (x2f v)))
               (F32.add (F32.mul (x2f u) (x2f v)) (F32.mul (y2f u) (y2f v))))
       degrees_per_radian).

(** [fmod(360.0f + signed_angle_between(v, u), 360.0f)] for two
    differences of contour points. *)
Definition arc_angle (v u : Point) : f32 :=
  fmodf (F32.add (F32.of_int 360) (signed_angle_between (of_point v) (of_point u)))
        (F32.of_int 360).

End Angle.

(* ===================================================================== *)
(** * Sample inputs                                                       *)
(* ===================================================================== *)

Module Samples.
Import FingerTracker.

Local Abbreviation P := mkPoint.

(** A blank 640x480 mask; the contours below are what [findContours]
    reports for the blobs they outline, from the topmost-leftmost
    pixel on and counter-clockwise on the screen; the hulls list the
    indices [convexHull] reports for them, from the rightmost point on
    and against the order of the contour. *)
Definition blank : Mask := mkMask 640 480 (fun _ _ => false).

(** The outline of a rounded blob: the ellipse of half-axes 32 and 16
    around (24, 110), cut by the left border of the frame; 138
    boundary pixels. *)
Definition round_blob : Contour :=
  [
   P 24 94; P 23 95; P 22 95; P 21 95; P 20 95; P 19 95; P 18 95; P 17 95;
   P 16 95; P 15 95; P 14 95; P 13 95; P 12 96; P 11 96; P 10 96; P 9 96;
   P 8 97; P 7 97; P 6 97; P 5 98; P 4 98; P 3 98; P 2 99; P 1 99;
   P 0 100; P 0 101; P 0 102; P 0 103; P 0 104; P 0 105; P 0 106; P 0 107;
   P 0 108; P 0 109; P 0 110; P 0 111; P 0 112; P 0 113; P 0 114; P 0 115;
   P 0 116; P 0 117; P 0 118; P 0 119; P 0 120; P 1 121; P 2 121; P 3 122;
   P 4 122; P 5 122; P 6 123; P 7 123; P 8 123; P 9 124; P 10 124; P 11 124;
   P 12 124; P 13 125; P 14 125; P 15 125; P 16 125; P 17 125; P 18 125; P 19 125;
   P 20 125; P 21 125; P 22 125; P 23 125; P 24 126; P 25 125; P 26 125; P 27 125;
   P 28 125; P 29 125; P 30 125; P 31 125; P 32 125; P 33 125; P 34 125; P 35 125;
   P 36 124; P 37 124; P 38 124; P 39 124; P 40 123; P 41 123; P 42 123; P 43 122;
   P 44 122; P 45 122; P 46 121; P 47 121; P 48 120; P 49 119; P 50 119; P 51 118;
   P 52 117; P 53 116; P 54 115; P 54 114; P 55 113; P 55 112; P 55 111; P 56 110;
   P 55 109; P 55 108; P 55 107; P 54 106; P 54 105; P 53 104; P 52 103; P 51 102;
   P 50 101; P 49 101; P 48 100; P 47 99; P 46 99; P 45 98; P 44 98; P 43 98;
   P 42 97; P 41 97; P 40 97; P 39 96; P 38 96; P 37 96; P 36 96; P 35 95;
   P 34 95; P 33 95; P 32 95; P 31 95; P 30 95; P 29 95; P 28 95; P 27 95;
   P 26 95; P 25 95 ].

(** Its convex hull, as indices into the contour. *)
Definition round_blob_hull : list Z :=
  [103; 100; 98; 94; 91; 89; 83; 79; 68; 57; 53; 47; 45; 44; 24; 23; 21; 15; 11; 0; 127; 123; 117; 115; 112; 108; 106].

(** The outline of an arm 21 pixels wide that enters from the right
    border and ends in a round tip at (570, 110): the tip, the lower
    side, the border from the bottom up and the upper side; 166
    boundary pixels. *)
Definition arm : Contour :=
  [
   P 580 100; P 579 101; P 578 101; P 577 101; P 576 101; P 575 102; P 574 102; P 573 103;
   P 572 104; P 572 105; P 571 106; P 571 107; P 571 108; P 571 109; P 570 110; P 571 111;
   P 571 112; P 571 113; P 571 114; P 572 115; P 572 116; P 573 117; P 574 118; P 575 118;
   P 576 119; P 577 119; P 578 119; P 579 119; P 580 120 ] ++
  map (fun k => P (581 + k) 120) (zrange 0 59) ++
  map (fun k => P 639 (119 - k)) (zrange 0 20) ++
  map (fun k => P (638 - k) 100) (zrange 0 58).

Definition arm_hull : list Z := [87; 28; 24; 22; 20; 18; 14; 10; 8; 6; 4; 0; 107].

(** The mask that holds this arm, and a [findContours] that reports
    the arm for the masks that hold it. *)
Definition arm_mask : Mask :=
  mkMask 640 480
    (fun x y => ((580 <=? x) && (x <=? 639) && (100 <=? y) && (y <=? 120))
                || ((x - 580) * (x - 580) + (y - 110) * (y - 110) <=? 100)).

Definition see_arm : Mask -> Rect -> list Contour :=
  fun mask _ => if nonzero mask 600 110 then [arm] else [].

(** [Angle.arc_angle], with 0 for the vectors whose coordinates are so
    far beyond the range of [int] that it is not a number. *)
Definition angle_or_zero (v u : Point) : f32 :=
  match Angle.arc_angle v u with
  | S754_nan => F32.zero
  | angle => angle
  end.

(** Two 20x20 masks: foreground in the columns from 16 on, shadow in
    the columns from 18 on; and a finger near the right border. *)
Definition fg20 : Mask := mkMask 20 20 (fun x _ => 16 <=? x).
Definition sh20 : Mask := mkMask 20 20 (fun x _ => 18 <=? x).
Definition finger20 : Fingertip := mkFingertip (P 15 10) (P 15 10) 5 1.

End Samples.

(* ===================================================================== *)
(** * Properties                                                          *)
(* ===================================================================== *)

(** ** Single precision: rounding facts *)

Section SinglePrecision.

Lemma shr_1_nonneg (mrs : shr_record) : 0 <= shr_m mrs -> 0 <= shr_m (shr_1 mrs).
Proof.
  destruct mrs as [m r s]. simpl. intros Hm.
  destruct m as [|p|p]; [simpl; lia | destruct p; simpl; lia | lia].
Qed.

Lemma iter_pos_invariant {A : Type} (P : A -> Prop) (f : A -> A) :
  (forall x, P x -> P (f x)) -> forall n x, P x -> P (SpecFloat.iter_pos f n x).
Proof.
  intros Hf. induction n as [n IH|n IH|]; intros x Hx; simpl; auto.
Qed.

Lemma shr_nonneg (mrs : shr_record) (e n : Z) :
  0 <= shr_m mrs -> 0 <= shr_m (fst (shr mrs e n)).
Proof.
  intros Hm. unfold shr. destruct n as [|p|p]; simpl; try exact Hm.
  apply (iter_pos_invariant (fun x => 0 <= shr_m x)); [apply shr_1_nonneg | exact Hm].
Qed.

Lemma shr_fexp_nonneg (m e : Z) (l : location) :
  0 <= m -> 0 <= shr_m (fst (shr_fexp F32.prec F32.emax m e l)).
Proof.
  intros Hm. unfold shr_fexp. apply shr_nonneg.
  destruct l as [|[]]; exact Hm.
Qed.

Lemma round_nearest_even_nonneg (m : Z) (l : location) :
  0 <= m -> 0 <= round_nearest_even m l.
Proof.
  intros Hm. destruct l as [|[]]; simpl; try lia. destruct (Z.even m); lia.
Qed.

Lemma binary_round_aux_not_nan (s : bool) (m e : Z) (l : location) :
  0 <= m -> binary_round_aux F32.prec F32.emax s m e l <> S754_nan.
Proof.
  intros Hm. unfold binary_round_aux.
  pose proof (shr_fexp_nonneg m e l Hm) as H1.
  destruct (shr_fexp F32.prec F32.emax m e l) as [mrs' e'].
  simpl in H1.
  pose proof (shr_fexp_nonneg (round_nearest_even (shr_m mrs') (loc_of_shr_record mrs')) e' loc_Exact
                (round_nearest_even_nonneg _ _ H1)) as H2.
  destruct (shr_fexp F32.prec F32.emax _ e' loc_Exact) as [mrs'' e''].
  simpl in H2.
  destruct (shr_m mrs'') as [|p|p]; [discriminate | | lia].
  destruct (e'' <=? F32.emax - F32.prec); discriminate.
Qed.

Lemma digits2_pos_shift23 (m : positive) :
  Zpos (digits2_pos (m * 8388608)) = Zpos (digits2_pos m) + 23.
Proof.
  rewrite Pos.mul_comm.
  change (8388608 * m)%positive
    with (m~0~0~0~0~0~0~0~0~0~0~0~0~0~0~0~0~0~0~0~0~0~0~0)%positive.
  cbn [digits2_pos]. lia.
Qed.

Lemma mul_one_r (x : spec_float) :
  valid_binary F32.prec F32.emax x = true -> F32.mul x F32.one = x.
Proof.
  intros Hv. destruct x as [s|s| |s m e]; [destruct s; reflexivity | destruct s; reflexivity | reflexivity | ].
  change F32.one with (S754_finite false 8388608 (-23)).
  unfold F32.mul, SFmul. rewrite xorb_false_r.
  simpl in Hv. unfold bounded, canonical_mantissa in Hv.
  apply andb_true_iff in Hv as [Hc He]. apply Z.eqb_eq in Hc. apply Z.leb_le in He.
  unfold binary_round_aux.
  unfold shr_fexp at 1. unfold Zdigits2.
  rewrite digits2_pos_shift23.
  replace (Z.pos (digits2_pos m) + 23 + (e + -23)) with (Z.pos (digits2_pos m) + e) by lia.
  rewrite Hc. replace (e - (e + -23)) with 23 by lia.
  rewrite Pos.mul_comm.
  change (8388608 * m)%positive
    with (m~0~0~0~0~0~0~0~0~0~0~0~0~0~0~0~0~0~0~0~0~0~0~0)%positive.
  unfold shr_record_of_loc, shr.
  cbn [SpecFloat.iter_pos shr_1 orb].
  cbn [shr_m loc_of_shr_record round_nearest_even].
  replace (e + -23 + 23) with e by lia.
  unfold shr_fexp, Zdigits2. rewrite Hc, Z.sub_diag.
  cbn [shr shr_record_of_loc shr_m].
  destruct (e <=? F32.emax - F32.prec) eqn:E; [reflexivity | lia].
Qed.

Lemma digits2_pos_bounds (p : positive) :
  2 ^ (Zpos (digits2_pos p) - 1) <= Zpos p < 2 ^ Zpos (digits2_pos p).
Proof.
  induction p as [p IH|p IH|]; simpl digits2_pos.
  - rewrite Pos2Z.inj_succ. replace (Z.succ (Z.pos (digits2_pos p)) - 1) with (Z.succ (Z.pos (digits2_pos p) - 1)) by lia.
    rewrite !Z.pow_succ_r by lia. lia.
  - rewrite Pos2Z.inj_succ. replace (Z.succ (Z.pos (digits2_pos p)) - 1) with (Z.succ (Z.pos (digits2_pos p) - 1)) by lia.
    rewrite !Z.pow_succ_r by lia. lia.
  - simpl. lia.
Qed.

Lemma digits2_pos_unique (p : positive) (d : Z) :
  0 < d -> 2 ^ (d - 1) <= Zpos p < 2 ^ d -> Zpos (digits2_pos p) = d.
Proof.
  intros Hd [Hlo Hhi]. pose proof (digits2_pos_bounds p) as [Blo Bhi].
  assert (H1 : d - 1 < Zpos (digits2_pos p)).
  { apply (Z.pow_lt_mono_r_iff 2); lia. }
  assert (H2 : Zpos (digits2_pos p) - 1 < d).
  { apply (Z.pow_lt_mono_r_iff 2); lia. }
  lia.
Qed.

Lemma iter_xO_spec (p : positive) (n : positive) :
  Zpos (Pos.iter xO p n) = Zpos p * 2 ^ Zpos n.
Proof.
  revert p. induction n as [|n IH] using Pos.peano_ind; intros p.
  - simpl. lia.
  - rewrite Pos.iter_succ, Pos2Z.inj_succ, Z.pow_succ_r by lia.
    rewrite Pos2Z.inj_xO, IH. lia.
Qed.

(** An exact, canonical mantissa goes through rounding unchanged. *)
Lemma binary_round_aux_canonical (s : bool) (m : positive) (e : Z) :
  bounded F32.prec F32.emax m e = true ->
  binary_round_aux F32.prec F32.emax s (Zpos m) e loc_Exact = S754_finite s m e.
Proof.
  intros Hb. unfold bounded, canonical_mantissa in Hb.
  apply andb_true_iff in Hb as [Hc He]. apply Z.eqb_eq in Hc.
  unfold binary_round_aux, shr_fexp, Zdigits2.
  rewrite Hc, Z.sub_diag. cbn [shr shr_record_of_loc shr_m loc_of_shr_record round_nearest_even].
  rewrite Hc, Z.sub_diag. cbn [shr shr_record_of_loc shr_m].
  rewrite He. reflexivity.
Qed.

Lemma bounded_24 (m : positive) (e : Z) :
  2 ^ 23 <= Zpos m < 2 ^ 24 -> -149 <= e <= 104 -> bounded F32.prec F32.emax m e = true.
Proof.
  intros Hm He. unfold bounded, canonical_mantissa.
  rewrite (digits2_pos_unique m 24) by lia.
  unfold fexp, emin, F32.prec, F32.emax. apply andb_true_iff. split; [apply Z.eqb_eq | apply Z.leb_le]; lia.
Qed.

(** The binary32 image of a positive integer below [2^24] is exact:
    the integer shifted up to a 24-bit mantissa. *)
Lemma of_int_pos (n : Z) :
  0 < n < 2 ^ 24 ->
  exists k, 0 <= k <= 23 /\ 2 ^ 23 <= n * 2 ^ k < 2 ^ 24
            /\ F32.of_int n = S754_finite false (Z.to_pos (n * 2 ^ k)) (- k).
Proof.
  intros Hn. destruct n as [|p|p]; try lia.
  pose proof (digits2_pos_bounds p) as [Blo Bhi].
  set (d := Zpos (digits2_pos p)) in *.
  assert (Hd : 1 <= d <= 24).
  { split; [unfold d; lia|].
    assert (d - 1 < 24) by (apply (Z.pow_lt_mono_r_iff 2); lia). lia. }
  exists (24 - d).
  assert (Hscale : 2 ^ 23 <= Zpos p * 2 ^ (24 - d) < 2 ^ 24).
  { replace (2 ^ 23) with (2 ^ (d - 1) * 2 ^ (24 - d))
      by (rewrite <- Z.pow_add_r by lia; f_equal; lia).
    replace (2 ^ 24) with (2 ^ d * 2 ^ (24 - d))
      by (rewrite <- Z.pow_add_r by lia; f_equal; lia).
    assert (0 < 2 ^ (24 - d)) by (apply Z.pow_pos_nonneg; lia).
    nia. }
  split; [lia|]. split; [exact Hscale|].
  unfold F32.of_int, binary_normalize, binary_round.
  replace (fexp F32.prec F32.emax (Zpos (digits2_pos p) + 0)) with (d - 24)
    by (unfold fexp, emin, F32.prec, F32.emax; fold d; lia).
  unfold shl_align.
  destruct (d - 24 - 0) as [|q|q] eqn:Eq; try lia.
  - assert (d = 24) by lia. replace (24 - d) with 0 by lia.
    rewrite Z.mul_1_r. simpl Z.to_pos. simpl (- 0).
    apply binary_round_aux_canonical, bounded_24; [|lia].
    replace (24 - d) with 0 in Hscale by lia. lia.
  - assert (Hq : Zpos q = 24 - d) by lia.
    assert (Hm : Zpos (Pos.iter xO p q) = Zpos p * 2 ^ (24 - d))
      by (rewrite iter_xO_spec, Hq; reflexivity).
    rewrite <- Hm. simpl Z.to_pos.
    replace (- (24 - d)) with (d - 24) by lia.
    apply binary_round_aux_canonical, bounded_24; [rewrite Hm; exact Hscale | lia].
Qed.

Lemma new_location_spec (n r : Z) :
  0 < n -> 0 <= r < n -> F32.loc_spec (new_location n r) r n.
Proof.
  intros Hn Hr. unfold new_location, new_location_even, new_location_odd.
  destruct (Z.even n) eqn:En.
  - destruct (r =? 0) eqn:Er; [apply Z.eqb_eq in Er; exact Er|].
    apply Z.eqb_neq in Er. destruct (Z.compare_spec (2 * r) n); cbn [F32.loc_spec]; lia.
  - destruct (r =? 0) eqn:Er; [apply Z.eqb_eq in Er; exact Er|].
    apply Z.eqb_neq in Er.
    assert (Hodd : 2 * r <> n).
    { intros <-. rewrite Z.even_mul in En. discriminate. }
    destruct (Z.compare_spec (2 * r + 1) n); cbn [F32.loc_spec]; lia.
Qed.

Lemma loc_of_record_of_loc (m : Z) (l : location) :
  loc_of_shr_record (shr_record_of_loc m l) = l /\ shr_m (shr_record_of_loc m l) = m.
Proof. destruct l as [|[]]; split; reflexivity. Qed.

(** Rounding to nearest moves by at most one half. *)
Lemma round_nearest_even_bound (q r n : Z) (l : location) :
  0 <= r < n -> F32.loc_spec l r n ->
  let M := round_nearest_even q l in
  (2 * M - 1) * n <= 2 * (q * n + r) <= (2 * M + 1) * n
  /\ q <= M <= q + 1 /\ (M = q + 1 -> n <= 2 * r).
Proof.
  intros Hr Hl. destruct l as [|[]]; cbn [F32.loc_spec round_nearest_even] in *.
  - nia.
  - destruct (Z.even q); nia.
  - nia.
  - nia.
Qed.

(** One shift to the right halves the mantissa and keeps track of what
    falls off. *)
Lemma shr_1_spec (q r n : Z) (l : location) :
  0 < q -> 0 <= r < n -> F32.loc_spec l r n ->
  shr_m (shr_1 (shr_record_of_loc q l)) = q / 2
  /\ F32.loc_spec (loc_of_shr_record (shr_1 (shr_record_of_loc q l)))
              ((q mod 2) * n + r) (2 * n).
Proof.
  intros Hq Hr Hl.
  destruct q as [|p|p]; try lia.
  destruct p as [p|p|].
  - assert (Hd : Zpos p~1 / 2 = Zpos p) by (rewrite Pos2Z.inj_xI; symmetry; apply Z.div_unique with 1; lia).
    assert (Hm : Zpos p~1 mod 2 = 1) by (rewrite Pos2Z.inj_xI; symmetry; apply Z.mod_unique with (Zpos p); lia).
    rewrite Hd, Hm. destruct l as [|[]]; cbn [F32.loc_spec loc_of_shr_record shr_1 shr_record_of_loc shr_m orb] in *; split; try reflexivity; lia.
  - assert (Hd : Zpos p~0 / 2 = Zpos p) by (rewrite Pos2Z.inj_xO; symmetry; apply Z.div_unique with 0; lia).
    assert (Hm : Zpos p~0 mod 2 = 0) by (rewrite Pos2Z.inj_xO; symmetry; apply Z.mod_unique with (Zpos p); lia).
    rewrite Hd, Hm. destruct l as [|[]]; cbn [F32.loc_spec loc_of_shr_record shr_1 shr_record_of_loc shr_m orb] in *; split; try reflexivity; lia.
  - change (1 / 2) with 0. change (1 mod 2) with 1.
    destruct l as [|[]]; cbn [F32.loc_spec loc_of_shr_record shr_1 shr_record_of_loc shr_m orb] in *; split; try reflexivity; lia.
Qed.

Lemma fexp_24 (e : Z) : -125 <= e -> fexp F32.prec F32.emax (24 + e) = e.
Proof. intros He. unfold fexp, emin, F32.prec, F32.emax. lia. Qed.

Lemma fexp_25 (e : Z) : -126 <= e -> fexp F32.prec F32.emax (25 + e) = e + 1.
Proof. intros He. unfold fexp, emin, F32.prec, F32.emax. lia. Qed.

(** The tail of [binary_round_aux] on a mantissa of 24 bits. *)
Lemma round_tail_24 (M e : Z) :
  2 ^ 23 <= M < 2 ^ 24 -> -125 <= e <= 104 ->
  (let '(mrs'', e'') := shr_fexp F32.prec F32.emax M e loc_Exact in
   match shr_m mrs'' with
   | 0 => S754_zero false
   | Zpos m => if e'' <=? F32.emax - F32.prec then S754_finite false m e'' else S754_infinity false
   | Zneg _ => S754_nan
   end) = S754_finite false (Z.to_pos M) e.
Proof.
  intros HM He. destruct M as [|Mp|Mp]; try lia.
  unfold shr_fexp, Zdigits2. rewrite (digits2_pos_unique Mp 24) by lia.
  rewrite fexp_24, Z.sub_diag by lia. cbn [shr shr_record_of_loc shr_m].
  destruct (e <=? F32.emax - F32.prec) eqn:E; [reflexivity|]. unfold F32.emax, F32.prec in E. lia.
Qed.

(** The quotient of two 24-bit mantissas: the rounded mantissa has 24
    bits again and is within one half of the exact quotient. *)
Lemma div_mantissas (m1 m2 : positive) (e1 e2 : Z) :
  2 ^ 23 <= Zpos m1 < 2 ^ 24 -> 2 ^ 23 <= Zpos m2 < 2 ^ 24 ->
  -23 <= e1 <= 0 -> -23 <= e2 <= 0 ->
  exists (M : positive) (E : Z),
    F32.div (S754_finite false m1 e1) (S754_finite false m2 e2) = S754_finite false M E
    /\ 2 ^ 23 <= Zpos M < 2 ^ 24
    /\ ((E = e1 - e2 - 24
         /\ (2 * Zpos M - 1) * Zpos m2 <= 2 * (Zpos m1 * 2 ^ 24) <= (2 * Zpos M + 1) * Zpos m2)
        \/ (E = e1 - e2 - 23
            /\ (2 * Zpos M - 1) * Zpos m2 <= Zpos m1 * 2 ^ 24 <= (2 * Zpos M + 1) * Zpos m2)).
Proof.
  intros H1 H2 He1 He2.
  unfold F32.div, SFdiv. cbn [xorb]. unfold SFdiv_core_binary, Zdigits2.
  rewrite (digits2_pos_unique m1 24), (digits2_pos_unique m2 24) by lia.
  replace (Z.min (fexp F32.prec F32.emax (24 + e1 - (24 + e2))) (e1 - e2)) with (e1 - e2 - 24)
    by (unfold fexp, emin, F32.prec, F32.emax; lia).
  replace (e1 - e2 - (e1 - e2 - 24)) with 24 by lia. cbv beta iota.
  rewrite Z.shiftl_mul_pow2 by lia.
  pose proof (Z_div_mod (Zpos m1 * 2 ^ 24) (Zpos m2) ltac:(lia)) as Hdm.
  destruct (Z.div_eucl (Zpos m1 * 2 ^ 24) (Zpos m2)) as [q r]. destruct Hdm as [HN Hr].
  pose proof (new_location_spec (Zpos m2) r ltac:(lia) Hr) as Hloc.
  generalize dependent (new_location (Zpos m2) r). intros l Hloc.
  set (e' := e1 - e2 - 24).
  assert (Hq : 2 ^ 23 <= q < 2 ^ 25) by nia.
  unfold binary_round_aux.
  destruct (Z_lt_le_dec (Zpos m1) (Zpos m2)) as [Hlt | Hge].
  - (* the quotient has 24 bits *)
    assert (Hq24 : q < 2 ^ 24) by nia.
    destruct q as [|qp|qp]; try lia.
    unfold shr_fexp at 1, Zdigits2. rewrite (digits2_pos_unique qp 24) by lia.
    rewrite fexp_24, Z.sub_diag by (unfold e'; lia). cbn [shr].
    destruct (loc_of_record_of_loc (Zpos qp) l) as [-> ->].
    pose proof (round_nearest_even_bound (Zpos qp) r (Zpos m2) l Hr Hloc) as (Hb & HM & Hup).
    set (M := round_nearest_even (Zpos qp) l) in *.
    assert (HM24 : 2 ^ 23 <= M < 2 ^ 24).
    { split; [lia|]. destruct (Z.eq_dec M (Zpos qp + 1)) as [Hc|Hc]; [|lia].
      specialize (Hup Hc). nia. }
    rewrite round_tail_24 by (unfold e'; lia).
    exists (Z.to_pos M), e'. rewrite Z2Pos.id by lia.
    split; [reflexivity|]. split; [exact HM24|]. left. split; [reflexivity|].
    rewrite HN. replace (Zpos m2 * Zpos qp + r) with (Zpos qp * Zpos m2 + r) by lia. exact Hb.
  - (* the quotient has 25 bits: one shift *)
    assert (Hq24 : 2 ^ 24 <= q) by nia.
    destruct q as [|qp|qp]; try lia.
    unfold shr_fexp at 1, Zdigits2. rewrite (digits2_pos_unique qp 25) by lia.
    rewrite fexp_25 by (unfold e'; lia).
    replace (e' + 1 - e') with 1 by lia. cbn [shr SpecFloat.iter_pos].
    pose proof (shr_1_spec (Zpos qp) r (Zpos m2) l ltac:(lia) Hr Hloc) as [Hm Hl'].
    generalize dependent (shr_1 (shr_record_of_loc (Zpos qp) l)). intros mrs Hm Hl'.
    rewrite Hm.
    assert (Hr' : 0 <= Zpos qp mod 2 * Zpos m2 + r < 2 * Zpos m2).
    { pose proof (Z.mod_pos_bound (Zpos qp) 2 ltac:(lia)). nia. }
    pose proof (round_nearest_even_bound (Zpos qp / 2) _ (2 * Zpos m2) _ Hr' Hl')
      as (Hb & HM & Hup).
    set (M := round_nearest_even (Zpos qp / 2) (loc_of_shr_record mrs)) in *.
    pose proof (Z.div_mod (Zpos qp) 2 ltac:(lia)) as Hq2.
    pose proof (Z.mod_pos_bound (Zpos qp) 2 ltac:(lia)) as Hq2b.
    assert (HM24 : 2 ^ 23 <= M < 2 ^ 24).
    { split; [lia|]. destruct (Z.eq_dec M (Zpos qp / 2 + 1)) as [Hc|Hc]; [|lia].
      specialize (Hup Hc). nia. }
    rewrite round_tail_24 by (unfold e'; lia).
    exists (Z.to_pos M), (e' + 1). rewrite Z2Pos.id by lia.
    split; [reflexivity|]. split; [exact HM24|]. right. split; [unfold e'; lia|].
    rewrite HN. nia.
Qed.

(** The quotient of two positive integers below [2^24], as binary32
    computes it. *)
Lemma div_ints (a b : Z) :
  0 < a < 2 ^ 24 -> 0 < b < 2 ^ 24 ->
  exists (M : positive) (E : Z),
    F32.div (F32.of_int a) (F32.of_int b) = S754_finite false M E
    /\ 2 ^ 23 <= Zpos M < 2 ^ 24 /\ E <= 0
    /\ (2 * Zpos M - 1) * b <= 2 * (a * 2 ^ (- E)) <= (2 * Zpos M + 1) * b.
Proof.
  intros HS HF.
  destruct (of_int_pos a HS) as (k1 & Hk1 & Hm1 & ->).
  destruct (of_int_pos b HF) as (k2 & Hk2 & Hm2 & ->).
  destruct (div_mantissas (Z.to_pos (a * 2 ^ k1)) (Z.to_pos (b * 2 ^ k2)) (- k1) (- k2))
    as (M & E & Hdiv & HM & Hcase); rewrite ?Z2Pos.id by lia; try lia.
  exists M, E. split; [exact Hdiv|]. split; [exact HM|].
  rewrite !Z2Pos.id in Hcase by lia.
  assert (Hp2 : 0 < 2 ^ k2) by (apply Z.pow_pos_nonneg; lia).
  destruct Hcase as [(HE & Hb) | (HE & Hb)].
  - split; [lia|].
    assert (Hpow : 2 ^ (- E) * 2 ^ k2 = 2 ^ k1 * 2 ^ 24).
    { rewrite <- !Z.pow_add_r by lia. f_equal. lia. }
    split; apply (Z.mul_le_mono_pos_r _ _ (2 ^ k2) Hp2); nia.
  - split; [lia|].
    assert (Hpow : 2 * (2 ^ (- E) * 2 ^ k2) = 2 ^ k1 * 2 ^ 24).
    { replace 2 with (2 ^ 1) at 1 by reflexivity.
      rewrite <- !Z.pow_add_r by lia. f_equal. lia. }
    split; apply (Z.mul_le_mono_pos_r _ _ (2 ^ k2) Hp2); nia.
Qed.

Lemma leb_finite_pos (M mt : positive) (E et : Z) :
  SFleb (S754_finite false M E) (S754_finite false mt et) = true
  <-> E < et \/ (E = et /\ Zpos M <= Zpos mt).
Proof.
  unfold SFleb, SFcompare.
  destruct (Z.compare_spec E et) as [Heq | Hlt | Hgt].
  - change (Pos.compare_cont Eq M mt) with (Pos.compare M mt).
    destruct (Pos.compare_spec M mt) as [H|H|H]; split; intros; try discriminate; try reflexivity; try lia.
  - split; [intros _; left; exact Hlt | reflexivity].
  - split; [discriminate | lia].
Qed.

(** Against the touch threshold the rounded quotient decides as the
    exact one. *)
Lemma leb_touch_thresh (a b : Z) :
  0 < a < 2 ^ 24 -> 0 < b < 2 ^ 24 ->
  SFleb (F32.div (F32.of_int a) (F32.of_int b)) (F32.div (F32.of_int 20) (F32.of_int 100)) = true <-> 5 * a <= b.
Proof.
  intros HS HF. destruct (div_ints a b HS HF) as (M & E & -> & HM & HE & Hb).
  change (F32.div (F32.of_int 20) (F32.of_int 100)) with (S754_finite false 13421773 (-26)).
  rewrite leb_finite_pos.
  assert (HP : 0 < 2 ^ (- E)) by (apply Z.pow_pos_nonneg; lia).
  split.
  - intros [Hlt | [-> HMt]].
    + assert (2 ^ 27 <= 2 ^ (- E)) by (apply Z.pow_le_mono_r; lia). nia.
    + change (2 ^ (- -26)) with 67108864 in *. nia.
  - intros H5. destruct (Z_lt_le_dec E (-26)) as [Hlt | Hge]; [left; exact Hlt | right].
    assert (E = -26).
    { destruct (Z.eq_dec E (-26)) as [|Hne]; [assumption|].
      assert (2 ^ (- E) <= 2 ^ 25) by (apply Z.pow_le_mono_r; lia). nia. }
    subst E. split; [reflexivity|]. change (2 ^ (- -26)) with 67108864 in *. nia.
Qed.

(** Against the hover threshold too, as long as the divisor stays
    at most [2^21]. *)
Lemma leb_hover_thresh (a b : Z) :
  0 < a < 2 ^ 24 -> 0 < b <= 2 ^ 21 ->
  SFleb (F32.div (F32.of_int a) (F32.of_int b)) (F32.div (F32.of_int 30) (F32.of_int 100)) = true
  <-> 10 * a <= 3 * b.
Proof.
  intros HS HF. destruct (div_ints a b HS ltac:(lia)) as (M & E & -> & HM & HE & Hb).
  change (F32.div (F32.of_int 30) (F32.of_int 100)) with (S754_finite false 10066330 (-25)).
  rewrite leb_finite_pos.
  assert (HP : 0 < 2 ^ (- E)) by (apply Z.pow_pos_nonneg; lia).
  split.
  - intros [Hlt | [-> HMt]].
    + assert (2 ^ 26 <= 2 ^ (- E)) by (apply Z.pow_le_mono_r; lia). nia.
    + change (2 ^ (- -25)) with 33554432 in *. nia.
  - intros H5. destruct (Z_lt_le_dec E (-25)) as [Hlt | Hge]; [left; exact Hlt | right].
    assert (E = -25).
    { destruct (Z.eq_dec E (-25)) as [|Hne]; [assumption|].
      assert (2 ^ (- E) <= 2 ^ 24) by (apply Z.pow_le_mono_r; lia). nia. }
    subst E. split; [reflexivity|]. change (2 ^ (- -25)) with 33554432 in *. nia.
Qed.


End SinglePrecision.

(** ** The colour map: acquisition indices and the reads of [predict] *)

Section ColourMap.
Import Common ViewCalibrator.

Lemma range_spec (n i : Z) : i ∈ range n ↔ 0 <= i < n.
Proof.
  unfold range. rewrite list_elem_of_fmap. split.
  - intros (k & -> & Hk). apply elem_of_seq in Hk. lia.
  - intros H. exists (Z.to_nat i). split; [lia|]. apply elem_of_seq. lia.
Qed.

Lemma cmap_at_Some (cm : colour_map) (i : Z) :
  0 <= i < Z.of_nat (length cm) -> is_Some (cmap_at cm i).
Proof.
  intros H. unfold cmap_at. destruct (0 <=? i) eqn:E; [|lia].
  apply lookup_lt_is_Some. lia.
Qed.

(** Every 8-bit channel value lands in a cube cell between 0 and 6. *)
Lemma channel_index_range (b : Byte.byte) :
  exists x, channel_index b = Some x /\ 0 <= x <= 6.
Proof.
  destruct b; vm_compute; eexists; (split; [reflexivity|]); split; discriminate.
Qed.

(** So does a plain division by 255. *)
Lemma channel_index_division_range (b : Byte.byte) :
  exists x, channel_index_division b = Some x /\ 0 <= x <= 6.
Proof.
  destruct b; vm_compute; eexists; (split; [reflexivity|]); split; discriminate.
Qed.

(** Stores at consecutive slots fill a vector from left to right. *)
Lemma store_consecutive (g : Z -> Vec3f) (todo done : list Vec3f) :
  foldl (fun acc i => cm ← acc; store cm i (g i)) (Some (done ++ todo))
        (map Z.of_nat (seq (length done) (length todo)))
  = Some (done ++ map g (map Z.of_nat (seq (length done) (length todo)))).
Proof.
  revert done. induction todo as [|x todo IH]; intros done; simpl; [reflexivity|].
  unfold store at 2.
  destruct ((0 <=? Z.of_nat (length done))
            && (Z.of_nat (length done) <? Z.of_nat (length (done ++ x :: todo)))) eqn:E.
  - cbn [mbind option_bind]. rewrite Nat2Z.id.
    rewrite insert_app_r_alt, Nat.sub_diag by lia. cbn [insert list_insert].
    replace (done ++ g (Z.of_nat (length done)) :: todo)
      with ((done ++ [g (Z.of_nat (length done))]) ++ todo) by (by rewrite <- app_assoc).
    replace (S (length done)) with (length (done ++ [g (Z.of_nat (length done))]))
      by (rewrite length_app; simpl; lia).
    rewrite IH, <- app_assoc. reflexivity.
  - apply andb_false_iff in E as [E|E];
      [apply Z.leb_gt in E | apply Z.ltb_ge in E; rewrite length_app in E; cbn [length] in E];
      lia.
Qed.

Lemma foldl_ext_in {A B : Type} (f g : A -> B -> A) (l : list B) (a : A) :
  (forall acc x, x ∈ l -> f acc x = g acc x) -> foldl f a l = foldl g a l.
Proof.
  revert a. induction l as [|x l IH]; intros a Hfg; [reflexivity|]. simpl.
  rewrite Hfg by left. apply IH. intros acc y Hy. apply Hfg. by right.
Qed.

Lemma slot_of_cell (i : Z) :
  0 <= i -> map_index PATTERN_ROWS (i / 256) (i mod 256 / 16) (i mod 16) = i.
Proof.
  intros Hi. unfold map_index, PATTERN_ROWS.
  pose proof (Z.div_mod i 256 ltac:(lia)) as H1.
  pose proof (Z.div_mod (i mod 256) 16 ltac:(lia)) as H2.
  pose proof (Z.mod_pos_bound i 256 ltac:(lia)) as B1.
  pose proof (Z.mod_pos_bound (i mod 256) 16 ltac:(lia)) as B2.
  assert (H3 : i mod 16 = (i mod 256) mod 16).
  { symmetry. apply Z.mod_unique with (q := 16 * (i / 256) + i mod 256 / 16); lia. }
  lia.
Qed.

(** After the loops of [find_photometric_model] every slot of the
    colour map holds the colour measured for its own pattern cell. *)
Lemma fill_colour_map_spec (measured : Z -> Z -> Z -> Vec3f) (cm : colour_map) :
  length cm = 512%nat ->
  fill_colour_map measured PATTERN_ROWS PATTERN_COLS cm
  = Some (map (fun i => measured (i / 256) (i mod 256 / 16) (i mod 16)) (range 512)).
Proof.
  intros Hlen. unfold fill_colour_map.
  assert (Hcells : (k ← range 2; r ← range PATTERN_ROWS; c ← range PATTERN_COLS; [(k, r, c)])
                   = map cell_of_slot (range 512)) by (vm_compute; reflexivity).
  rewrite Hcells, foldl_fmap.
  rewrite (foldl_ext_in _
             (fun acc i => cm' ← acc;
                store cm' i (measured (i / 256) (i mod 256 / 16) (i mod 16)))).
  - pose proof (store_consecutive
                  (fun i => measured (i / 256) (i mod 256 / 16) (i mod 16)) cm []) as H.
    simpl length in H. rewrite Hlen in H. exact H.
  - intros acc i Hi. apply range_spec in Hi.
    unfold cell_of_slot. cbv beta iota. rewrite slot_of_cell by lia. reflexivity.
Qed.

Lemma lookup_map_range (A : Type) (g : Z -> A) (n i : Z) :
  0 <= i < n -> map g (range n) !! Z.to_nat i = Some (g i).
Proof.
  intros Hi. unfold range. rewrite !list_lookup_fmap.
  rewrite lookup_seq_lt by lia. simpl. by rewrite Z2Nat.id by lia.
Qed.

(** C9.  On the 16x16 pattern the index the code computes,
    [(k * 256) + r * pattern.rows + c], is the intended
    [(k * 256) + r * pattern.cols + c] for every cell, so the loops
    fill the colour map as the loops with the intended index do.
    They are the stores at the slots 0, 1, ..., 511, one after the
    other: each slot is written exactly once and ends up with the
    colour measured for its own pattern cell. *)
Theorem map_index_rows_cols_agree (measured : Z -> Z -> Z -> Vec3f) (cm : colour_map) :
  length cm = 512%nat ->
  (forall k r c : Z,
      map_index PATTERN_ROWS k r c = map_index_intended PATTERN_COLS k r c)
  /\ fill_colour_map measured PATTERN_ROWS PATTERN_COLS cm
     = fill_colour_map_intended measured PATTERN_ROWS PATTERN_COLS cm
  /\ fill_colour_map measured PATTERN_ROWS PATTERN_COLS cm
     = foldl (fun acc i => cm' ← acc; store cm' i (measured_at measured i)) (Some cm)
             (fill_trace PATTERN_ROWS PATTERN_COLS)
  /\ fill_trace PATTERN_ROWS PATTERN_COLS = range 512
  /\ Forall (fun i => count_occ Z.eq_dec (fill_trace PATTERN_ROWS PATTERN_COLS) i = 1%nat)
            (range 512)
  /\ exists cm',
       fill_colour_map measured PATTERN_ROWS PATTERN_COLS cm = Some cm'
       /\ length cm' = 512%nat
       /\ forall i, 0 <= i < 512 -> cmap_at cm' i = Some (measured_at measured i).
Proof.
  intros Hlen.
  assert (Htrace : fill_trace PATTERN_ROWS PATTERN_COLS = range 512)
    by (vm_compute; reflexivity).
  assert (Hcells : (k ← range 2; r ← range PATTERN_ROWS; c ← range PATTERN_COLS; [(k, r, c)])
                   = map cell_of_slot (range 512)) by (vm_compute; reflexivity).
  split; [reflexivity|]. split; [reflexivity|]. split; [|split; [exact Htrace|split]].
  - unfold fill_colour_map. rewrite Hcells, Htrace, foldl_fmap.
    apply foldl_ext_in. intros acc i Hi. apply range_spec in Hi.
    unfold measured_at, cell_of_slot. cbv beta iota. rewrite slot_of_cell by lia. reflexivity.
  - rewrite Htrace. apply Forall_forall. intros i Hi.
    apply (proj1 (NoDup_count_occ' Z.eq_dec (range 512))).
    + apply NoDup_ListNoDup, NoDup_fmap_2; [|apply NoDup_seq]. intros a b Hab. lia.
    + by apply list_elem_of_In.
  - rewrite (fill_colour_map_spec measured cm Hlen). eexists. split; [reflexivity|].
    split; [unfold range; by rewrite !length_map, length_seq|].
    intros i Hi. unfold cmap_at. destruct (0 <=? i) eqn:E; [|lia].
    rewrite (lookup_map_range _ _ 512 i Hi). reflexivity.
Qed.

Lemma map_index_rows_cols_agree_witness :
  let measured := fun k r c => mkVec3f (F32.of_int k) (F32.of_int r) (F32.of_int c) in
  exists cm',
    fill_colour_map measured PATTERN_ROWS PATTERN_COLS (replicate 512 (mkVec3f F32.zero F32.zero F32.zero))
    = Some cm'
    /\ cmap_at cm' 300 = Some (measured 1 2 12).
Proof.
  intros measured.
  destruct (map_index_rows_cols_agree measured
              (replicate 512 (mkVec3f F32.zero F32.zero F32.zero)) eq_refl)
    as (_ & _ & _ & _ & _ & cm' & Hfill & _ & Hslot).
  exists cm'. split; [exact Hfill|].
  exact (Hslot 300 ltac:(lia)).
Defined.

Lemma corner_indices_bound (x y z : Z) :
  0 <= x <= 6 -> 0 <= y <= 6 -> 0 <= z <= 6 ->
  Forall (fun i => 0 <= i < 512) (corner_indices x y z).
Proof.
  intros Hx Hy Hz. unfold corner_indices, xyz_to_3d_index, CMAP_SIZE.
  repeat constructor; lia.
Qed.

Lemma predict_pixel_channels (cm : colour_map) (reflectance : Vec3f) (colour : Vec3b)
      (x y z : Z) :
  channel_index (b0 colour) = Some x ->
  channel_index (b1 colour) = Some y ->
  channel_index (b2 colour) = Some z ->
  Forall (fun i => is_Some (cmap_at cm i)) (corner_indices x y z) ->
  is_Some (predict_pixel cm reflectance colour).
Proof.
  intros Hx Hy Hz Hread. unfold predict_pixel.
  change (cube_index (f0 (vdiv (vec3f_of_3b colour) (F32.of_int 255))))
    with (channel_index (b0 colour)).
  change (cube_index (f1 (vdiv (vec3f_of_3b colour) (F32.of_int 255))))
    with (channel_index (b1 colour)).
  change (cube_index (f2 (vdiv (vec3f_of_3b colour) (F32.of_int 255))))
    with (channel_index (b2 colour)).
  rewrite Hx, Hy, Hz. cbn [mbind option_bind].
  unfold corner_indices in Hread.
  repeat match goal with
         | H : Forall _ (_ :: _) |- _ =>
             apply Forall_cons_1 in H; destruct H as [[? ->] H]; cbn [mbind option_bind]
         end.
  eexists; reflexivity.
Qed.

(** C10.  For every 8-bit pixel the cube indices [x], [y], [z] that
    [predict] derives lie between 0 and 6 (255 gives 6: the
    single-precision quotient stays below 7), hence the eight indices
    [xyz_to_3d_index] yields for the corners [x or x+1], [y or y+1],
    [z or z+1] are inside the 512-entry colour map, every read
    succeeds and the pixel is predicted. *)
Theorem predict_reads_in_bounds (cm : colour_map) (reflectance : Vec3f) (colour : Vec3b) :
  length cm = 512%nat ->
  exists x y z : Z,
    channel_index (b0 colour) = Some x /\
    channel_index (b1 colour) = Some y /\
    channel_index (b2 colour) = Some z /\
    (0 <= x <= 6 /\ 0 <= y <= 6 /\ 0 <= z <= 6) /\
    Forall (fun i => 0 <= i < 512 /\ is_Some (cmap_at cm i)) (corner_indices x y z) /\
    is_Some (predict_pixel cm reflectance colour) /\
    channel_index Byte.xff = Some 6.
Proof.
  intros Hlen.
  destruct (channel_index_range (b0 colour)) as (x & Hx & Bx).
  destruct (channel_index_range (b1 colour)) as (y & Hy & By).
  destruct (channel_index_range (b2 colour)) as (z & Hz & Bz).
  exists x, y, z.
  assert (Hread : Forall (fun i => 0 <= i < 512 /\ is_Some (cmap_at cm i))
                         (corner_indices x y z)).
  { eapply Forall_impl; [apply corner_indices_bound; assumption|].
    intros i Hi. cbv beta in Hi. split; [exact Hi|]. apply cmap_at_Some. lia. }
  split; [exact Hx|]. split; [exact Hy|]. split; [exact Hz|].
  split; [tauto|]. split; [exact Hread|]. split; [|reflexivity].
  apply (predict_pixel_channels cm reflectance colour x y z Hx Hy Hz).
  eapply Forall_impl; [exact Hread|]. intros i [_ Hi]. exact Hi.
Qed.

Lemma predict_reads_in_bounds_witness :
  exists x y z : Z,
    channel_index Byte.xff = Some x /\
    channel_index Byte.x80 = Some y /\
    channel_index Byte.x00 = Some z /\
    (0 <= x <= 6 /\ 0 <= y <= 6 /\ 0 <= z <= 6) /\
    Forall (fun i => 0 <= i < 512 /\
                     is_Some (cmap_at (replicate 512 (mkVec3f F32.one F32.one F32.one)) i))
           (corner_indices x y z) /\
    is_Some (predict_pixel (replicate 512 (mkVec3f F32.one F32.one F32.one))
                           (mkVec3f F32.one F32.one F32.one)
                           (mkVec3b Byte.xff Byte.x80 Byte.x00)) /\
    channel_index Byte.xff = Some 6.
Proof.
  apply (predict_reads_in_bounds (replicate 512 (mkVec3f F32.one F32.one F32.one))
           (mkVec3f F32.one F32.one F32.one) (mkVec3b Byte.xff Byte.x80 Byte.x00)).
  reflexivity.
Defined.

(** The whole image is predicted: no pixel makes [predict] fail. *)
Lemma predict_total (cm : colour_map) (refl : list Vec3f) (src : list Vec3b) :
  length cm = 512%nat -> is_Some (predict cm refl src).
Proof.
  intros Hlen. unfold predict. apply mapM_is_Some, Forall_forall.
  intros [r c] _.
  destruct (channel_index_range (b0 c)) as (x & Hx & Bx).
  destruct (channel_index_range (b1 c)) as (y & Hy & By).
  destruct (channel_index_range (b2 c)) as (z & Hz & Bz).
  apply (predict_pixel_channels cm r c x y z Hx Hy Hz).
  eapply Forall_impl; [apply corner_indices_bound; assumption|].
  intros i Hi. cbv beta in Hi. apply cmap_at_Some. lia.
Qed.

End ColourMap.

(** ** The delay queue *)

Section DelayQueue.
Import MaskGenerator.
Context {Frame Screen : Type}.
Variable predict_screen : Screen -> Frame.

Local Abbreviation step := (predictor_step predict_screen).
Local Abbreviation run := (predictor_run predict_screen).
Local Abbreviation frames_of := (pushed_frames predict_screen).

Lemma mod_slots_differ (a b D : nat) :
  (a < b)%nat -> (b < a + D)%nat -> (a mod D)%nat <> (b mod D)%nat.
Proof.
  intros Hab Hb E.
  assert (HD : D <> 0%nat) by lia.
  pose proof (Nat.div_mod a D HD) as Ha.
  pose proof (Nat.div_mod b D HD) as Hb'.
  rewrite E in Ha.
  assert (Hq : (a / D < b / D)%nat) by nia.
  nia.
Qed.

Lemma run_snoc (st : @state Frame) (cs : list (option Screen)) (c : option Screen) :
  run st (cs ++ [c]) = step (run st cs) c.
Proof. unfold predictor_run. by rewrite foldl_app. Qed.

Lemma frames_of_snoc (st : @state Frame) (cs : list (option Screen)) (c : option Screen) :
  frames_of st (cs ++ [c]) = frames_of st cs ++ [pushed predict_screen (run st cs) c].
Proof.
  revert st. induction cs as [|c' cs IH]; intros st; simpl; [reflexivity|].
  by rewrite IH.
Qed.

Lemma frames_of_length (st : @state Frame) (cs : list (option Screen)) :
  length (frames_of st cs) = length cs.
Proof. revert st. induction cs as [|c cs IH]; intros st; simpl; [|rewrite IH]; reflexivity. Qed.

(** What one iteration does to the shared state. *)
Lemma step_spec (st : @state Frame) (c : option Screen) :
  (m_WriteIndex st < length (m_FrameQueue st))%nat ->
  m_FrameQueue (step st c) = <[m_WriteIndex st := pushed predict_screen st c]> (m_FrameQueue st)
  /\ m_FrameQueue (step st c) !! m_WriteIndex st = Some (pushed predict_screen st c)
  /\ m_WriteIndex (step st c) = ((m_WriteIndex st + 1) mod length (m_FrameQueue st))%nat
  /\ length (m_FrameQueue (step st c)) = length (m_FrameQueue st).
Proof.
  intros Hw. unfold pushed, predictor_step; simpl.
  repeat split.
  - by apply list_lookup_insert_eq.
  - by rewrite length_insert.
Qed.

(** After [n] iterations the write index has advanced [n] times and
    the frame of iteration [k] is still in its slot as long as fewer
    than [D] iterations followed it. *)
Lemma run_invariant (st : @state Frame) (cs : list (option Screen)) :
  let D := length (m_FrameQueue st) in
  (m_WriteIndex st < D)%nat ->
  length (m_FrameQueue (run st cs)) = D
  /\ m_WriteIndex (run st cs) = ((m_WriteIndex st + length cs) mod D)%nat
  /\ forall k, (k < length cs)%nat -> (length cs <= k + D)%nat ->
       m_FrameQueue (run st cs) !! ((m_WriteIndex st + k) mod D)%nat = frames_of st cs !! k.
Proof.
  intros D Hw. induction cs as [|c cs IH] using rev_ind.
  - simpl. split; [reflexivity|]. split.
    + rewrite Nat.add_0_r, Nat.mod_small; [reflexivity|exact Hw].
    + intros k Hk. simpl in Hk. lia.
  - destruct IH as (Hlen & Hidx & Hslots).
    rewrite run_snoc, frames_of_snoc, length_app.
    change (length [c]) with 1%nat.
    assert (HD : D <> 0%nat) by lia.
    assert (Hw' : (m_WriteIndex (run st cs) < length (m_FrameQueue (run st cs)))%nat).
    { rewrite Hlen, Hidx. by apply Nat.mod_upper_bound. }
    destruct (step_spec (run st cs) c Hw') as (Hq & Hnew & Hnext & Hlen').
    split; [by rewrite Hlen', Hlen|]. split.
    + rewrite Hnext, Hlen, Hidx. rewrite Nat.Div0.add_mod_idemp_l. f_equal. lia.
    + intros k Hk HkD.
      destruct (decide (k = length cs)) as [->|Hne].
      * rewrite <- Hidx, Hnew.
        rewrite lookup_app_r by (rewrite frames_of_length; lia).
        rewrite frames_of_length, Nat.sub_diag. reflexivity.
      * rewrite Hq, list_lookup_insert_ne.
        -- rewrite Hslots by lia.
           rewrite lookup_app_l by (rewrite frames_of_length; lia). reflexivity.
        -- rewrite Hidx. intros E. symmetry in E. revert E.
           apply mod_slots_differ; lia.
Qed.

(** C2.  Each iteration of the producer copies one predicted frame
    into slot [write_index] and advances the index by one modulo [D],
    with or without a new screen buffer; [read_prediction] returns the
    frame in slot [write_index]; after at least [D] iterations that is
    the oldest of the [D] frames pushed last, the one pushed [D - 1]
    iterations before the newest, and the queue holds exactly these
    [D] frames in ring order. *)
Theorem read_prediction_oldest (st : @state Frame) (captures : list (option Screen)) :
  let D := length (m_FrameQueue st) in
  let n := length captures in
  (0 < D)%nat -> (m_WriteIndex st < D)%nat -> (D <= n)%nat ->
  (forall (s : @state Frame) (c : option Screen),
      length (m_FrameQueue s) = D -> (m_WriteIndex s < D)%nat ->
      m_FrameQueue (step s c) = <[m_WriteIndex s := pushed predict_screen s c]> (m_FrameQueue s)
      /\ m_WriteIndex (step s c) = ((m_WriteIndex s + 1) mod D)%nat)
  /\ length (frames_of st captures) = n
  /\ read_prediction (run st captures)
     = m_FrameQueue (run st captures) !! m_WriteIndex (run st captures)
  /\ read_prediction (run st captures) = frames_of st captures !! (n - 1 - (D - 1))%nat
  /\ is_Some (read_prediction (run st captures))
  /\ forall j, (j < D)%nat ->
       m_FrameQueue (run st captures) !! ((m_WriteIndex (run st captures) + j) mod D)%nat
       = frames_of st captures !! (n - D + j)%nat.
Proof.
  intros D n HD Hw Hn.
  destruct (run_invariant st captures Hw) as (Hlen & Hidx & Hslots).
  fold D in Hlen, Hidx, Hslots. fold n in Hidx, Hslots.
  assert (Hring : forall j, (j < D)%nat ->
     m_FrameQueue (run st captures) !! ((m_WriteIndex (run st captures) + j) mod D)%nat
     = frames_of st captures !! (n - D + j)%nat).
  { intros j Hj. rewrite <- Hslots by lia.
    f_equal. rewrite Hidx, Nat.Div0.add_mod_idemp_l.
    replace (m_WriteIndex st + n + j)%nat with (m_WriteIndex st + (n - D + j) + 1 * D)%nat by lia.
    by rewrite Nat.Div0.mod_add. }
  assert (Hread : read_prediction (run st captures)
                  = frames_of st captures !! (n - 1 - (D - 1))%nat).
  { unfold read_prediction. specialize (Hring 0%nat HD).
    rewrite Nat.add_0_r in Hring. rewrite Nat.mod_small in Hring.
    - rewrite Hring. f_equal. lia.
    - rewrite Hidx. apply Nat.mod_upper_bound. lia. }
  split; [|split; [|split; [|split; [|split]]]].
  - intros s c Hs Hws. rewrite <- Hs in Hws.
    destruct (step_spec s c Hws) as (H1 & _ & H3 & _). rewrite <- Hs. by split.
  - apply frames_of_length.
  - reflexivity.
  - exact Hread.
  - rewrite Hread. apply lookup_lt_is_Some. rewrite frames_of_length. fold n. lia.
  - exact Hring.
Qed.

End DelayQueue.

Lemma read_prediction_oldest_witness :
  let predict_screen := fun s : Z => 2 * s in
  let st := MaskGenerator.start 0 0 in
  let captures := [Some 1; None; Some 3; Some 4; None] in
  MaskGenerator.read_prediction (MaskGenerator.predictor_run predict_screen st captures)
  = Some 6
  /\ MaskGenerator.pushed_frames predict_screen st captures = [2; 2; 6; 8; 8].
Proof.
  intros predict_screen st captures.
  destruct (read_prediction_oldest predict_screen st captures)
    as (_ & _ & _ & Hread & _); [simpl; lia | simpl; lia | simpl; lia |].
  split; [exact Hread | reflexivity].
Defined.

(** ** Fingertip selection *)

Section Selection.
Import FingerTracker Touch.

Lemma first_with_id_None (last_id : Z) (fingertips : list Fingertip) :
  first_with_id last_id fingertips = None <->
  forall f, f ∈ fingertips -> id f <> last_id.
Proof.
  induction fingertips as [|g rest IH]; simpl.
  - split; [intros _ f Hf; inversion Hf | reflexivity].
  - destruct (id g =? last_id) eqn:E.
    + split; [discriminate|]. intros H. exfalso.
      apply (H g); [left | by apply Z.eqb_eq].
    + rewrite IH. apply Z.eqb_neq in E. split.
      * intros H f Hf. apply elem_of_cons in Hf as [->|Hf]; [exact E | by apply H].
      * intros H f Hf. apply H. by right.
Qed.

Lemma first_with_id_Some (last_id : Z) (fingertips : list Fingertip) (c : Fingertip) :
  first_with_id last_id fingertips = Some c -> c ∈ fingertips /\ id c = last_id.
Proof.
  induction fingertips as [|g rest IH]; simpl; [discriminate|].
  destruct (id g =? last_id) eqn:E.
  - intros [= <-]. split; [left | by apply Z.eqb_eq].
  - intros H. destruct (IH H) as [Hin Hid]. split; [by right | exact Hid].
Qed.

(** With a fingertip of the remembered id in the list, the loop stops
    on the first such fingertip, whatever it had chosen before. *)
Lemma choose_id_match (last_id : Z) (fingertips : list Fingertip) (oldest_age : Z)
      (chosen : option Fingertip) (c : Fingertip) :
  first_with_id last_id fingertips = Some c ->
  choose last_id fingertips oldest_age chosen = Some c.
Proof.
  revert oldest_age chosen.
  induction fingertips as [|g rest IH]; intros oldest_age chosen; simpl; [discriminate|].
  destruct (id g =? last_id); [trivial|].
  intros H. destruct (oldest_age <=? age g); by apply IH.
Qed.

(** Without one, the loop keeps the last fingertip of greatest age
    among those at least as old as [oldest_age]. *)
Lemma choose_by_age (last_id : Z) (fingertips : list Fingertip) (oldest_age : Z)
      (chosen : option Fingertip) :
  first_with_id last_id fingertips = None ->
  match choose last_id fingertips oldest_age chosen with
  | Some c =>
      (c ∈ fingertips /\ oldest_age <= age c /\ forall f, f ∈ fingertips -> age f <= age c)
      \/ (chosen = Some c /\ forall f, f ∈ fingertips -> age f < oldest_age)
  | None => chosen = None /\ forall f, f ∈ fingertips -> age f < oldest_age
  end.
Proof.
  revert oldest_age chosen.
  induction fingertips as [|g rest IH]; intros oldest_age chosen; simpl.
  - intros _. destruct chosen as [c0|].
    + right. split; [reflexivity|]. intros f Hf. inversion Hf.
    + split; [reflexivity|]. intros f Hf. inversion Hf.
  - destruct (id g =? last_id); [discriminate|]. intros Hnone.
    destruct (oldest_age <=? age g) eqn:E.
    + apply Z.leb_le in E.
      specialize (IH (age g) (Some g) Hnone).
      destruct (choose last_id rest (age g) (Some g)) as [c|].
      * left. destruct IH as [(Hin & Hage & Hmax) | (Hc & Hlt)].
        -- split; [by right|]. split; [lia|].
           intros f Hf. apply elem_of_cons in Hf as [->|Hf]; [lia | by apply Hmax].
        -- injection Hc as <-. split; [left|]. split; [lia|].
           intros f Hf. apply elem_of_cons in Hf as [->|Hf]; [lia|].
           specialize (Hlt f Hf). lia.
      * destruct IH as [Hc _]. discriminate.
    + apply Z.leb_gt in E.
      specialize (IH oldest_age chosen Hnone).
      destruct (choose last_id rest oldest_age chosen) as [c|].
      * destruct IH as [(Hin & Hage & Hmax) | (Hc & Hlt)].
        -- left. split; [by right|]. split; [lia|].
           intros f Hf. apply elem_of_cons in Hf as [->|Hf]; [lia | by apply Hmax].
        -- right. split; [exact Hc|].
           intros f Hf. apply elem_of_cons in Hf as [->|Hf]; [lia | by apply Hlt].
      * destruct IH as [Hc Hlt]. split; [exact Hc|].
        intros f Hf. apply elem_of_cons in Hf as [->|Hf]; [lia | by apply Hlt].
Qed.

Lemma choose_fingertip_cases (last_id : Z) (fingertips : list Fingertip) :
  match first_with_id last_id fingertips with
  | Some c => choose_fingertip last_id fingertips = Some c
  | None =>
      match choose_fingertip last_id fingertips with
      | Some c => c ∈ fingertips /\ MIN_FINGER_AGE <= age c
                  /\ forall f, f ∈ fingertips -> age f <= age c
      | None => forall f, f ∈ fingertips -> age f < MIN_FINGER_AGE
      end
  end.
Proof.
  destruct (first_with_id last_id fingertips) as [c|] eqn:E.
  - by apply choose_id_match.
  - pose proof (choose_by_age last_id fingertips MIN_FINGER_AGE None E) as H.
    unfold choose_fingertip.
    destruct (choose last_id fingertips MIN_FINGER_AGE None) as [c|].
    + destruct H as [H | [H _]]; [exact H | discriminate].
    + apply H.
Qed.

(** Whatever is chosen is a listed fingertip with the remembered id or
    of age at least five. *)
Lemma choose_fingertip_sound (last_id : Z) (fingertips : list Fingertip) (c : Fingertip) :
  choose_fingertip last_id fingertips = Some c ->
  c ∈ fingertips /\ (id c = last_id \/ MIN_FINGER_AGE <= age c).
Proof.
  intros Hc. pose proof (choose_fingertip_cases last_id fingertips) as H.
  destruct (first_with_id last_id fingertips) as [c'|] eqn:E.
  - rewrite Hc in H. injection H as ->.
    destruct (first_with_id_Some _ _ _ E). split; [assumption | by left].
  - rewrite Hc in H. destruct H as (Hin & Hage & _). split; [assumption | by right].
Qed.

(** An action always points at the chosen fingertip. *)
Lemma find_touch_action_point (last_fingertip : Fingertip) (fingertips : list Fingertip)
      (foreground_mask shadow_mask : Mask) (p : Point) (touch : bool) (last' : Fingertip) :
  find_touch_action last_fingertip fingertips foreground_mask shadow_mask
  = Returned (Some (p, touch)) last' ->
  choose_fingertip (id last_fingertip) fingertips = Some last' /\ point last' = p.
Proof.
  unfold find_touch_action.
  destruct (choose_fingertip (id last_fingertip) fingertips) as [c|]; [|discriminate].
  destruct (countNonZero_roi shadow_mask _) as [s|]; [|discriminate].
  destruct (countNonZero_roi foreground_mask _) as [f|]; [|discriminate].
  destruct (ratio_test s f) as [t|]; [|discriminate].
  intros [= <- <- <-]. split; reflexivity.
Qed.

(** A call that returns remembers the selected fingertip, whether or
    not it has an action for it, and keeps the old one when none is
    selected. *)
Lemma find_touch_action_remembers (last_fingertip : Fingertip) (fingertips : list Fingertip)
      (foreground_mask shadow_mask : Mask) (action : option (Point * bool))
      (last' : Fingertip) :
  find_touch_action last_fingertip fingertips foreground_mask shadow_mask
  = Returned action last' ->
  match choose_fingertip (id last_fingertip) fingertips with
  | Some c => last' = c /\ (forall p touch, action = Some (p, touch) -> p = point c)
  | None => last' = last_fingertip /\ action = None
  end.
Proof.
  unfold find_touch_action.
  destruct (choose_fingertip (id last_fingertip) fingertips) as [c|].
  - destruct (countNonZero_roi shadow_mask _) as [s|]; [|discriminate].
    destruct (countNonZero_roi foreground_mask _) as [f|]; [|discriminate].
    destruct (ratio_test s f) as [t|]; intros [= <- <-].
    + split; [reflexivity|]. by intros p touch [= <- _].
    + split; [reflexivity|]. intros p touch [=].
  - intros [= <- <-]. split; reflexivity.
Qed.

(** C4, amended.  The id the decider remembers is [last_fingertip.id]:
    0 before any selection, and after a call the id of the fingertip
    that call selected, whether or not it produced an action (the old
    one when nothing was selected).  With that id: if some candidate
    carries it, the (first) candidate with that id is selected;
    otherwise the oldest candidate of age at least 5 is selected, and
    none if there is no such candidate; a candidate of age below 5
    whose id is not the remembered one is never selected and no action
    ever points at it. *)
Theorem fingertip_selection (last_fingertip : Fingertip) (fingertips : list Fingertip) :
  let last_id := id last_fingertip in
  id no_fingertip = 0
  /\ (forall foreground_mask shadow_mask action last',
        find_touch_action last_fingertip fingertips foreground_mask shadow_mask
        = Returned action last' ->
        match choose_fingertip last_id fingertips with
        | Some c => last' = c /\ (forall p touch, action = Some (p, touch) -> p = point c)
        | None => last' = last_fingertip /\ action = None
        end)
  /\ (forall f, f ∈ fingertips -> id f = last_id ->
        exists c, choose_fingertip last_id fingertips = Some c
                  /\ c ∈ fingertips /\ id c = last_id
                  /\ first_with_id last_id fingertips = Some c)
  /\ ((forall f, f ∈ fingertips -> id f <> last_id) ->
      match choose_fingertip last_id fingertips with
      | Some c => c ∈ fingertips /\ 5 <= age c /\ forall f, f ∈ fingertips -> age f <= age c
      | None => forall f, f ∈ fingertips -> age f < 5
      end)
  /\ (forall c, choose_fingertip last_id fingertips = Some c ->
        c ∈ fingertips /\ (id c = last_id \/ 5 <= age c))
  /\ (forall foreground_mask shadow_mask p touch last',
        find_touch_action last_fingertip fingertips foreground_mask shadow_mask
        = Returned (Some (p, touch)) last' ->
        last' ∈ fingertips /\ point last' = p /\ (id last' = last_id \/ 5 <= age last')).
Proof.
  intros last_id.
  pose proof (choose_fingertip_cases last_id fingertips) as Hcases.
  split; [reflexivity|]. split; [|split; [|split; [|split]]].
  - intros fg sh action last'. apply find_touch_action_remembers.
  - intros f Hf Hid.
    destruct (first_with_id last_id fingertips) as [c|] eqn:E.
    + exists c. destruct (first_with_id_Some _ _ _ E). auto.
    + exfalso. apply (proj1 (first_with_id_None last_id fingertips) E f Hf Hid).
  - intros Hnone. apply first_with_id_None in Hnone. rewrite Hnone in Hcases. exact Hcases.
  - apply choose_fingertip_sound.
  - intros fg sh p touch last' Hact.
    apply find_touch_action_point in Hact as [Hc <-].
    apply choose_fingertip_sound in Hc as [Hin Hor]. auto.
Qed.

End Selection.

(** C4 as stated fails: the id remembered is not the id last acted on.
    Finger [a] (id 1) is selected and touched; then finger [b] (id 2)
    is selected while the shadow test gives no action; in the third
    call both are listed and [b] is selected and acted on, although
    [a] carries the id last acted on and is the older one.  And on the
    very first call, nothing having been acted on, a finger of age 1
    is selected and touched because its id is 0. *)
Lemma last_acted_on_id_passed_over :
  let a := FingerTracker.mkFingertip (mkPoint 15 10) (mkPoint 15 10) 5 1 in
  let b := FingerTracker.mkFingertip (mkPoint 15 12) (mkPoint 15 12) 5 2 in
  let a' := FingerTracker.mkFingertip (mkPoint 15 10) (mkPoint 15 10) 7 1 in
  let b' := FingerTracker.mkFingertip (mkPoint 15 12) (mkPoint 15 12) 6 2 in
  let young := FingerTracker.mkFingertip (mkPoint 15 10) (mkPoint 15 10) 1 0 in
  Touch.find_touch_action Touch.no_fingertip [a] Samples.fg20 Samples.sh20
  = Touch.Returned (Some (mkPoint 15 10, true)) a
  /\ Touch.find_touch_action a [b] Samples.fg20 Samples.fg20 = Touch.Returned None b
  /\ Touch.find_touch_action b [a'; b'] Samples.fg20 Samples.sh20
     = Touch.Returned (Some (mkPoint 15 12, true)) b'
  /\ Touch.find_touch_action Touch.no_fingertip [young] Samples.fg20 Samples.sh20
     = Touch.Returned (Some (mkPoint 15 10, true)) young.
Proof.
  intros a b a' b' young. repeat split; vm_compute; reflexivity.
Qed.

(** ** Fingertip detection: the loop over the hull *)

Section Clusters.
Import FingerTracker Samples.
Variable convexHull : Contour -> list Z.
Variable arc_angle : Point -> Point -> f32.
Variable region : Rect.
Variable contour : Contour.

Lemma at_Some_size (i : Z) (p : Point) : at_ contour i = Some p -> 0 < size contour.
Proof.
  unfold at_, size. destruct (0 <=? i); [|discriminate].
  intros H. apply lookup_lt_Some in H. lia.
Qed.

Lemma at_mod (z : Z) : 0 < size contour -> is_Some (at_ contour (z mod size contour)).
Proof.
  intros Hs. unfold at_.
  pose proof (Z.mod_pos_bound z (size contour) Hs) as Hb.
  destruct (0 <=? z mod size contour) eqn:E; [|lia].
  apply lookup_lt_is_Some. unfold size in *. lia.
Qed.

(** The arc test always comes to an end with a score. *)
Lemma arc_walk_total (index : Z) (ref : Point) (n : nat) (i score : Z) :
  0 < size contour ->
  is_Some (arc_walk arc_angle region contour index ref n i score).
Proof.
  intros Hs. revert i score. induction n as [|n IH]; intros i score; simpl.
  - by eexists.
  - destruct (at_mod (wrap64 (index - i + size contour)) Hs) as [prev ->].
    destruct (at_mod (wrap64 (index + i)) Hs) as [next ->].
    cbn [mbind option_bind].
    destruct (edge_test region prev || edge_test region next); [by eexists|].
    destruct (SFltb _ _ || SFltb _ _); [by eexists | apply IH].
Qed.

Lemma arc_score_total (index : Z) :
  is_Some (at_ contour index) -> is_Some (arc_score arc_angle region contour index).
Proof.
  intros [ref Href]. unfold arc_score. rewrite Href. cbn [mbind option_bind].
  destruct (edge_test region ref); [by eexists|].
  apply arc_walk_total. by eapply at_Some_size.
Qed.

(** A step that stays in the cluster, or that opens a new cluster
    while no best point is recorded, emits nothing. *)
Lemma cluster_step_quiet (index : Z) (st : cluster_state) (ci cl : Point) :
  at_ contour index = Some ci ->
  at_ contour (last st) = Some cl ->
  pdot (psub ci cl) (psub ci cl) <= NONMAX_PROXIMIITY \/ best st = -1 ->
  exists st', cluster_step arc_angle region contour index st = Some st'
              /\ m_Candidates st' = m_Candidates st /\ last st' = index.
Proof.
  intros Hci Hcl Hquiet. unfold cluster_step.
  destruct (arc_score_total index) as [score ->]; [by eexists|].
  rewrite Hci, Hcl. cbn [mbind option_bind].
  destruct (NONMAX_PROXIMIITY <? pdot (psub ci cl) (psub ci cl)) eqn:Ejump.
  - apply Z.ltb_lt in Ejump. destruct Hquiet as [Hnear | Hbest]; [lia|].
    rewrite Hbest. cbn.
    destruct (ARC_MIN_SCORE <? score); eexists; (split; [reflexivity|]); split; reflexivity.
  - cbn.
    destruct (best_score st <? score); eexists; (split; [reflexivity|]); split; reflexivity.
Qed.

(** Along a chain of hull points each within the clustering distance
    of its predecessor the loop emits nothing, whatever the scores. *)
Lemma cluster_loop_quiet (order : list Z) (st : cluster_state) :
  within_chain contour (last st) order = true ->
  exists st', cluster_loop arc_angle region contour (map Some order) st = Some st'
              /\ m_Candidates st' = m_Candidates st.
Proof.
  revert st. induction order as [|i rest IH]; intros st Hchain; simpl.
  - by eexists.
  - simpl in Hchain.
    destruct (at_ contour (last st)) as [cl|] eqn:Hcl; [|discriminate].
    destruct (at_ contour i) as [ci|] eqn:Hci; [|discriminate].
    apply andb_true_iff in Hchain as [Hnear Hrest]. apply Z.leb_le in Hnear.
    destruct (cluster_step_quiet i st ci cl Hci Hcl (or_introl Hnear))
      as (st1 & -> & Hc1 & Hl1).
    cbn [mbind option_bind].
    rewrite <- Hl1 in Hrest. destruct (IH st1 Hrest) as (st' & -> & Hc').
    exists st'. split; [reflexivity | congruence].
Qed.

(** C1 (what the code does).  When the hull points, in the order the
    loop visits them, form a single cluster -- each within squared
    distance 500 of the one before -- the loop over the hull ends
    without having emitted a candidate: a candidate is pushed only
    when a later hull point opens a new cluster, and nothing is pushed
    after the loop.  This holds whatever the arc scores are, also when
    the cluster holds a point scoring more than 50. *)
Theorem single_cluster_emits_nothing (offset first : Z) (rest : list Z)
        (cands : list Candidate) :
  find_offset region contour (convexHull contour) 0 = Some offset ->
  visit_order (convexHull contour) offset = map Some (first :: rest) ->
  is_Some (at_ contour offset) ->
  within_chain contour first (first :: rest) = true ->
  contour_candidates convexHull arc_angle region contour cands = Some cands.
Proof.
  intros Hoff Hvisit [cl Hcl] Hchain. unfold contour_candidates.
  destruct (contourArea2 contour <? 2 * MIN_CONTOUR_AREA); [reflexivity|].
  destruct (convexHull contour) as [|h hull] eqn:Hhull; [reflexivity|].
  rewrite Hoff. cbn [mbind option_bind]. rewrite Hvisit.
  change (map Some (first :: rest)) with (Some first :: map Some rest).
  cbn [cluster_loop mbind option_bind].
  simpl in Hchain.
  destruct (at_ contour first) as [ci|] eqn:Hci; [|discriminate].
  apply andb_true_iff in Hchain as [_ Hrest].
  destruct (cluster_step_quiet first (mkCluster offset (-1) ARC_MIN_SCORE cands) ci cl
              Hci Hcl (or_intror eq_refl)) as (st1 & -> & Hc1 & Hl1).
  cbn [mbind option_bind].
  rewrite <- Hl1 in Hrest. destruct (cluster_loop_quiet rest st1 Hrest) as (st' & -> & Hc').
  cbn [mbind option_bind]. rewrite Hc', Hc1. reflexivity.
Qed.

End Clusters.

Lemma single_cluster_emits_nothing_witness :
  let region := full_frame Samples.blank in
  (2 * FingerTracker.MIN_CONTOUR_AREA <= FingerTracker.contourArea2 Samples.round_blob)
  /\ FingerTracker.within_chain Samples.round_blob 44
       [44; 24; 23; 21; 15; 11; 0; 127; 123; 117; 115; 112; 108; 106; 103;
        100; 98; 94; 91; 89; 83; 79; 68; 57; 53; 47; 45] = true
  /\ FingerTracker.arc_score Angle.arc_angle region Samples.round_blob 103 = Some 55
  /\ FingerTracker.contour_candidates (fun _ => Samples.round_blob_hull) Angle.arc_angle
       region Samples.round_blob [] = Some [].
Proof.
  intros region.
  split; [vm_compute; discriminate|].
  split; [vm_compute; reflexivity|].
  split; [vm_compute; reflexivity|].
  apply (single_cluster_emits_nothing (fun _ => Samples.round_blob_hull) Angle.arc_angle
           region Samples.round_blob 13 44
           [24; 23; 21; 15; 11; 0; 127; 123; 117; 115; 112; 108; 106; 103;
            100; 98; 94; 91; 89; 83; 79; 68; 57; 53; 47; 45] []).
  - vm_compute; reflexivity.
  - vm_compute; reflexivity.
  - vm_compute. eexists; reflexivity.
  - vm_compute; reflexivity.
Defined.

(** ** Tracking across frames *)

Section Tracking.
Import FingerTracker Samples.
Variable findContours : Mask -> Rect -> list Contour.
Variable convexHull : Contour -> list Z.
Variable arc_angle : Point -> Point -> f32.

(** The only candidate is the match when it is strictly closer than
    the tracking range. *)
Lemma find_match_single (p : Point) (candidate : Candidate) :
  pdot (psub p (fst candidate)) (psub p (fst candidate)) < MAX_TRACKING_RANGE ^ 2 ->
  find_match p [candidate] = 0.
Proof.
  intros Hd. unfold find_match; simpl.
  destruct (_ <? _) eqn:E; [reflexivity|]. apply Z.ltb_ge in E. lia.
Qed.

Lemma find_match_single_far (p : Point) (candidate : Candidate) :
  MAX_TRACKING_RANGE ^ 2 <= pdot (psub p (fst candidate)) (psub p (fst candidate)) ->
  find_match p [candidate] = -1.
Proof.
  intros Hd. unfold find_match; simpl.
  destruct (_ <? _) eqn:E; [|reflexivity]. apply Z.ltb_lt in E. lia.
Qed.

(** One remembered finger, one candidate in range. *)
Lemma track_single (f : Fingertip) (life : Z) (tip c : Point) (next_id : Z) :
  pdot (psub (point f) tip) (psub (point f) tip) < MAX_TRACKING_RANGE ^ 2 ->
  track [(f, life)] [(tip, c)] next_id
  = ([mkFingertip tip c (age f + 1) (id f)], next_id,
     [(mkFingertip tip c (age f + 1) (id f), MAX_TRACKING_LIFE)]).
Proof.
  intros Hd. unfold track.
  cbn [length match_loop lookup list_lookup].
  rewrite (find_match_single (point f) (tip, c) Hd). reflexivity.
Qed.

Lemma swap_remove_length {A : Type} (v : list A) (i : nat) :
  length (swap_remove v i) = pred (length v).
Proof.
  unfold swap_remove. destruct v as [|a v]; [reflexivity|].
  destruct (List.last (map Some (a :: v)) None) as [b|] eqn:E.
  - rewrite removelast_firstn_len, length_take, length_insert. lia.
  - exfalso. revert E. generalize a. induction v as [|a' v IH]; intros a0; simpl in *.
    + discriminate.
    + apply IH.
Qed.

(** The loops over the tracking memory run to their end: once the
    count of iterations covers the entries from [m] on, more of them
    change nothing. *)
Lemma match_loop_fuel (n n' m : nat) (memory : list (Fingertip * Z))
      (cands : list Candidate) (out : list Fingertip) :
  (length memory <= m + n)%nat -> (n <= n')%nat ->
  match_loop n' m memory cands out = match_loop n m memory cands out.
Proof.
  revert n' m memory cands out.
  induction n as [|n IH]; intros n' m memory cands out Hlen Hn.
  - assert (Hnone : memory !! m = None) by (apply lookup_ge_None; lia).
    destruct n'; simpl; [reflexivity|]. by rewrite Hnone.
  - destruct n' as [|n']; [lia|]. simpl.
    destruct (memory !! m) as [[finger life]|] eqn:Hm; [|reflexivity].
    destruct (if 0 <=? find_match (point finger) cands
              then cands !! Z.to_nat (find_match (point finger) cands) else None)
      as [candidate|].
    + apply IH; [rewrite swap_remove_length; lia | lia].
    + apply IH; lia.
Qed.

Lemma age_loop_fuel (n n' m : nat) (memory : list (Fingertip * Z)) :
  (length memory <= m + n)%nat -> (n <= n')%nat ->
  age_loop n' m memory = age_loop n m memory.
Proof.
  revert n' m memory.
  induction n as [|n IH]; intros n' m memory Hlen Hn.
  - assert (Hnone : memory !! m = None) by (apply lookup_ge_None; lia).
    destruct n'; simpl; [reflexivity|]. by rewrite Hnone.
  - destruct n' as [|n']; [lia|]. simpl.
    destruct (memory !! m) as [[finger life]|] eqn:Hm; [|reflexivity].
    destruct (life - 1 <=? 0).
    + apply IH; [rewrite swap_remove_length, length_insert; lia | lia].
    + apply IH; [rewrite length_insert; lia | lia].
Qed.

(** C8.  With a single fingertip [f] in the tracking memory and a call
    of [detect] whose detection phase yields the single candidate
    [(tip, c)] at squared distance below [75^2] of [f], the call
    returns exactly one fingertip: the candidate under the id of [f],
    with the age of [f] plus one.  No fresh id is consumed, so the
    candidate is not emitted a second time as a new finger, and the
    memory holds the returned fingertip with a full life. *)
Theorem tracked_finger_keeps_id (t : tracker) (mask : Mask) (f : Fingertip) (life : Z)
        (tip c : Point) :
  m_TrackingMemory t = [(f, life)] ->
  find_candidates findContours convexHull arc_angle (update_region t mask).2 mask
  = Some [(tip, c)] ->
  pdot (psub (point f) tip) (psub (point f) tip) < 75 ^ 2 ->
  exists t',
    detect findContours convexHull arc_angle t mask
    = Some ([mkFingertip tip c (age f + 1) (id f)], t')
    /\ m_NextID t' = m_NextID t
    /\ m_TrackingMemory t' = [(mkFingertip tip c (age f + 1) (id f), 10)].
Proof.
  intros Hmem Hcands Hd. unfold detect.
  destruct (update_region t mask) as [timer region]. simpl in Hcands.
  rewrite Hcands. cbn [mbind option_bind].
  rewrite Hmem, (track_single f life tip c (m_NextID t) Hd).
  eexists. split; [reflexivity|]. split; reflexivity.
Qed.

End Tracking.

Lemma tracked_finger_keeps_id_witness :
  let t := FingerTracker.mkTracker (mkRect 0 0 640 480) 0 7
             [(FingerTracker.mkFingertip (mkPoint 573 112) (mkPoint 584 112) 3 4, 10)] in
  exists t',
    FingerTracker.detect (fun _ _ => [Samples.arm]) (fun _ => Samples.arm_hull)
                         Angle.arc_angle t Samples.blank
    = Some ([FingerTracker.mkFingertip (mkPoint 570 110) (mkPoint 581 110) (3 + 1) 4], t')
    /\ FingerTracker.m_NextID t' = 7
    /\ FingerTracker.m_TrackingMemory t'
       = [(FingerTracker.mkFingertip (mkPoint 570 110) (mkPoint 581 110) (3 + 1) 4, 10)].
Proof.
  intros t.
  apply (tracked_finger_keeps_id (fun _ _ => [Samples.arm]) (fun _ => Samples.arm_hull)
           Angle.arc_angle t Samples.blank
           (FingerTracker.mkFingertip (mkPoint 573 112) (mkPoint 584 112) 3 4) 10
           (mkPoint 570 110) (mkPoint 581 110)).
  - reflexivity.
  - vm_compute; reflexivity.
  - vm_compute; reflexivity.
Defined.

(** ** Focus *)

Section Focus.
Import FingerTracker Samples.
Variable findContours : Mask -> Rect -> list Contour.
Variable convexHull : Contour -> list Z.
Variable arc_angle : Point -> Point -> f32.

(** The rest of [detect] leaves the countdown and the region as its
    head set them. *)
Lemma detect_region (t t' : tracker) (mask : Mask) (fingertips : list Fingertip) :
  detect findContours convexHull arc_angle t mask = Some (fingertips, t') ->
  (m_TrackingResetTimer t', m_TrackingRegion t') = update_region t mask.
Proof.
  unfold detect. destruct (update_region t mask) as [timer region].
  destruct (find_candidates _ _ _ region mask) as [cands|]; [|discriminate].
  cbn [mbind option_bind].
  destruct (track (m_TrackingMemory t) cands (m_NextID t)) as [[fs next_id] memory].
  intros [= <- <-]. reflexivity.
Qed.

(** The pixels of the focused region, for a square that meets the
    view: those of the square inside the view that are not on its last
    column or row. *)
Lemma focus_region_pixels (t : tracker) (p : Point) (width height : Z) (q : Point) :
  0 <= width -> 0 <= height ->
  - (width ÷ 2) <= px p <= CALIB_OUTPUT_WIDTH - 1 + width ÷ 2 ->
  - (height ÷ 2) <= py p <= CALIB_OUTPUT_HEIGHT - 1 + height ÷ 2 ->
  rect_contains (m_TrackingRegion (focus t p width height)) q
  <-> rect_contains (view_square p width height) q
      /\ px q < CALIB_OUTPUT_WIDTH - 1 /\ py q < CALIB_OUTPUT_HEIGHT - 1.
Proof.
  intros Hw Hh Hx Hy.
  unfold rect_contains, focus, view_square, rect_of_points; simpl.
  unfold CALIB_OUTPUT_WIDTH, CALIB_OUTPUT_HEIGHT in *.
  pose proof (Z.quot_pos width 2 Hw ltac:(lia)).
  pose proof (Z.quot_pos height 2 Hh ltac:(lia)).
  lia.
Qed.

Lemma focus_region_clear (t : tracker) (p : Point) (width height : Z) :
  0 <= width -> 0 <= height ->
  - (width ÷ 2) <= px p -> px p + width ÷ 2 < CALIB_OUTPUT_WIDTH ->
  - (height ÷ 2) <= py p -> py p + height ÷ 2 < CALIB_OUTPUT_HEIGHT ->
  m_TrackingRegion (focus t p width height) = view_square p width height.
Proof.
  intros Hw Hh Hx Hx' Hy Hy'. unfold focus, view_square, rect_of_points; simpl.
  unfold CALIB_OUTPUT_WIDTH, CALIB_OUTPUT_HEIGHT in *.
  pose proof (Z.quot_pos width 2 Hw ltac:(lia)).
  pose proof (Z.quot_pos height 2 Hh ltac:(lia)).
  f_equal; lia.
Qed.

(** While the countdown stays above zero the region is kept. *)
Lemma after_detects_keep (k : nat) (mask : Mask) (timer : Z) (region : Rect) :
  Z.of_nat k < timer ->
  after_detects k mask timer region = (timer - Z.of_nat k, region).
Proof.
  revert timer. induction k as [|k IH]; intros timer Hk; simpl.
  - f_equal. lia.
  - unfold update_region; simpl. destruct (timer - 1 <=? 0) eqn:E; [lia|].
    rewrite IH by lia. f_equal. lia.
Qed.

Lemma after_detects_add (a b : nat) (mask : Mask) (timer : Z) (region : Rect) :
  after_detects (a + b) mask timer region
  = after_detects b mask (after_detects a mask timer region).1
                         (after_detects a mask timer region).2.
Proof.
  revert timer region. induction a as [|a IH]; intros timer region; simpl; [reflexivity|].
  destruct (update_region _ mask) as [timer1 region1]. apply IH.
Qed.

(** The call that brings the countdown to zero resets the region. *)
Lemma after_detects_reset (k : nat) (mask : Mask) (timer : Z) (region : Rect) :
  timer = Z.of_nat k + 1 ->
  after_detects (k + 1) mask timer region = (0, full_frame mask).
Proof.
  intros Ht. rewrite after_detects_add, (after_detects_keep k mask timer region) by lia.
  simpl. unfold update_region; simpl.
  destruct (timer - Z.of_nat k - 1 <=? 0) eqn:E; [f_equal; lia | lia].
Qed.

Lemma detect_all_region (masks : list Mask) (mask : Mask) (t t' : tracker) :
  Forall (fun m => cols m = cols mask /\ rows m = rows mask) masks ->
  detect_all findContours convexHull arc_angle masks t = Some t' ->
  (m_TrackingResetTimer t', m_TrackingRegion t')
  = after_detects (length masks) mask (m_TrackingResetTimer t) (m_TrackingRegion t).
Proof.
  revert t. induction masks as [|m rest IH]; intros t Hsize; simpl.
  - intros [= <-]. reflexivity.
  - apply Forall_cons_1 in Hsize as [[Hc Hr] Hrest].
    destruct (detect findContours convexHull arc_angle t m) as [[fs t1]|] eqn:Hd;
      [|discriminate].
    cbn [mbind option_bind snd]. intros Hall.
    apply detect_region in Hd. rewrite (IH t1 Hrest Hall).
    assert (Hu : update_region (mkTracker (m_TrackingRegion t) (m_TrackingResetTimer t) 0 [])
                               mask = update_region t m).
    { unfold update_region, full_frame; simpl. rewrite Hc, Hr. reflexivity. }
    rewrite Hu, <- Hd. reflexivity.
Qed.

(** C5, amended.  After [focus(point, size)], for a size that is not
    negative and a square [point - size/2, point + size/2] that meets
    the view, the tracking region holds the pixels of the square
    clamped to the view except those of the last column and the last
    row of the view (it is the clamped square when the square stays
    clear of them), and the countdown stands at 10.  Every call of
    [detect] decrements it.  The first nine calls work in the focused
    region; the tenth brings the countdown to zero and resets the
    region to the full frame before it looks for contours, so the
    tenth detection already runs on the full frame. *)
Theorem focus_countdown (t : tracker) (p : Point) (width height : Z) (mask : Mask) :
  0 <= width -> 0 <= height ->
  - (width ÷ 2) <= px p <= CALIB_OUTPUT_WIDTH - 1 + width ÷ 2 ->
  - (height ÷ 2) <= py p <= CALIB_OUTPUT_HEIGHT - 1 + height ÷ 2 ->
  let t0 := focus t p width height in
  let region := m_TrackingRegion t0 in
  (forall q, rect_contains region q
             <-> rect_contains (view_square p width height) q
                 /\ px q < CALIB_OUTPUT_WIDTH - 1 /\ py q < CALIB_OUTPUT_HEIGHT - 1)
  /\ (px p + width ÷ 2 < CALIB_OUTPUT_WIDTH -> py p + height ÷ 2 < CALIB_OUTPUT_HEIGHT ->
      region = view_square p width height)
  /\ m_TrackingResetTimer t0 = 10
  /\ (forall k, (1 <= k <= 9)%nat ->
        after_detects k mask 10 region = (10 - Z.of_nat k, region)
        /\ region_in_effect t0 mask k = region)
  /\ after_detects 10 mask 10 region = (0, full_frame mask)
  /\ region_in_effect t0 mask 10 = full_frame mask
  /\ (forall masks t',
        Forall (fun m => cols m = cols mask /\ rows m = rows mask) masks ->
        detect_all findContours convexHull arc_angle masks t0 = Some t' ->
        (length masks <= 10)%nat ->
        m_TrackingResetTimer t' = 10 - Z.of_nat (length masks)
        /\ m_TrackingRegion t' = if (length masks <? 10)%nat then region else full_frame mask).
Proof.
  intros Hw Hh Hx Hy t0 region.
  assert (Htimer : m_TrackingResetTimer t0 = 10) by reflexivity.
  assert (Hkeep : forall k, (k <= 9)%nat ->
            after_detects k mask 10 region = (10 - Z.of_nat k, region))
    by (intros k Hk; apply after_detects_keep; lia).
  assert (Hreset : after_detects 10 mask 10 region = (0, full_frame mask))
    by (apply (after_detects_reset 9 mask 10 region); reflexivity).
  split; [intros q; by apply focus_region_pixels|].
  split; [intros Hx' Hy'; apply focus_region_clear; lia|].
  split; [exact Htimer|]. split; [|split; [|split]].
  - intros k Hk. split; [apply Hkeep; lia|].
    unfold region_in_effect. fold region. rewrite Htimer, Hkeep by lia. reflexivity.
  - exact Hreset.
  - unfold region_in_effect. fold region. rewrite Htimer, Hreset. reflexivity.
  - intros masks t' Hsize Hall Hlen.
    apply (detect_all_region masks mask) in Hall; [|exact Hsize].
    fold region in Hall. rewrite Htimer in Hall.
    destruct (length masks <? 10)%nat eqn:E.
    + apply Nat.ltb_lt in E. rewrite Hkeep in Hall by lia. by injection Hall.
    + apply Nat.ltb_ge in E. replace (length masks) with 10%nat in * by lia.
      rewrite Hreset in Hall. by injection Hall.
Qed.

End Focus.

Lemma focus_countdown_witness :
  let t0 := FingerTracker.focus FingerTracker.init (mkPoint 600 240) 256 256 in
  FingerTracker.m_TrackingRegion t0 = mkRect 472 112 167 256
  /\ FingerTracker.view_square (mkPoint 600 240) 256 256 = mkRect 472 112 168 256
  /\ (rect_contains (FingerTracker.m_TrackingRegion t0) (mkPoint 638 240)
      <-> rect_contains (FingerTracker.view_square (mkPoint 600 240) 256 256) (mkPoint 638 240)
          /\ 638 < FingerTracker.CALIB_OUTPUT_WIDTH - 1
          /\ 240 < FingerTracker.CALIB_OUTPUT_HEIGHT - 1)
  /\ FingerTracker.m_TrackingResetTimer t0 = 10
  /\ FingerTracker.region_in_effect t0 Samples.blank 9 = mkRect 472 112 167 256
  /\ FingerTracker.region_in_effect t0 Samples.blank 10 = mkRect 0 0 640 480.
Proof.
  intros t0.
  destruct (focus_countdown (fun _ _ => []) (fun _ => []) Angle.arc_angle
              FingerTracker.init (mkPoint 600 240) 256 256 Samples.blank)
    as (Hpix & _ & Htimer & Hnine & _ & Hten & _);
    [vm_compute; discriminate | vm_compute; discriminate
     | vm_compute; split; discriminate
     | vm_compute; split; discriminate |].
  split; [reflexivity|]. split; [reflexivity|].
  split; [exact (Hpix (mkPoint 638 240))|]. split; [exact Htimer|].
  split; [apply (Hnine 9%nat); lia | exact Hten].
Defined.

(** C5 as stated fails.  The focused region is not in effect for each
    of the ten detections that follow a [focus]: the tenth runs on the
    full frame.  The region is not the square clamped to the view: for
    a square that reaches the right border it stops one column short
    of it.  For a point whose square lies beyond the view the region
    lies outside of the view, and for a negative size it is not empty. *)
Lemma focus_as_stated_fails :
  let t0 := FingerTracker.focus FingerTracker.init (mkPoint 320 240) 256 256 in
  ~ (forall k, (1 <= k <= 10)%nat ->
       FingerTracker.region_in_effect t0 Samples.blank k = FingerTracker.m_TrackingRegion t0)
  /\ FingerTracker.m_TrackingRegion
       (FingerTracker.focus FingerTracker.init (mkPoint 600 240) 256 256)
     = mkRect 472 112 167 256
  /\ FingerTracker.view_square (mkPoint 600 240) 256 256 = mkRect 472 112 168 256
  /\ FingerTracker.m_TrackingRegion
       (FingerTracker.focus FingerTracker.init (mkPoint 1000 240) 256 256)
     = mkRect 639 112 233 256
  /\ FingerTracker.view_square (mkPoint 1000 240) 256 256 = mkRect 872 112 (-232) 256
  /\ FingerTracker.m_TrackingRegion
       (FingerTracker.focus FingerTracker.init (mkPoint 320 240) (-256) (-256))
     = mkRect 192 112 256 256
  /\ FingerTracker.view_square (mkPoint 320 240) (-256) (-256) = mkRect 448 368 (-256) (-256).
Proof.
  intros t0. split; [|repeat split; vm_compute; reflexivity].
  intros H. specialize (H 10%nat ltac:(lia)). vm_compute in H. discriminate.
Qed.

(** ** Settle-and-average capture *)

Section CaptureImage.
Import Calibrator.
Variable frames : nat -> Image.
Variable width height : Z.

Local Abbreviation zeros := (replicate (Z.to_nat (height * width * 3)) 0).

Hypothesis frame_size : forall k, length (frames k) = Z.to_nat (height * width * 3).

Lemma sum_length (acc : list Z) (ks : list nat) :
  length acc = Z.to_nat (height * width * 3) ->
  length (foldl (fun a k => zip_with Z.add a (frames k)) acc ks)
  = Z.to_nat (height * width * 3).
Proof.
  revert acc. induction ks as [|k ks IH]; intros acc Hacc; simpl; [exact Hacc|].
  apply IH. rewrite length_zip_with, Hacc, frame_size. lia.
Qed.

(** The averaging loop reads the next [n] frames and adds them up. *)
Lemma average_loop_spec (n : nat) (dst : Image) (average : list Z) (w : world) :
  length average = Z.to_nat (height * width * 3) ->
  average_loop frames n dst average w
  = Some (match n with O => dst | S n' => frames (cursor w + n')%nat end,
          foldl (fun a k => zip_with Z.add a (frames k)) average (seq (cursor w) n),
          mkWorld (cursor w + n) (log w ++ map EvRead (seq (cursor w) n))).
Proof.
  revert dst average w. induction n as [|n IH]; intros dst average w Hlen.
  - simpl. unfold mret, M_ret. destruct w as [c l]; simpl.
    by rewrite Nat.add_0_r, app_nil_r.
  - cbn [average_loop]. cbv [mbind M_bind mret M_ret next_frame accumulate cv_assert].
    cbn [cursor log]. rewrite bool_decide_true by (by rewrite frame_size, Hlen).
    rewrite IH by (rewrite length_zip_with, Hlen, frame_size; lia).
    cbn [cursor log seq foldl map]. f_equal. f_equal.
    + f_equal. destruct n; [by rewrite Nat.add_0_r | f_equal; lia].
    + f_equal; [lia|]. by rewrite <- app_assoc.
Qed.

(** C6, amended.  With [N_samples >= 1], after the pattern is shown
    and the settle time slept, six camera frames are consumed: three
    are dropped and three are read.  With [N_samples >= 2] all six are
    thrown away, the next [N_samples] frames are read and the image
    returned is their pixelwise mean cast to 8 bits.  With
    [N_samples = 1] nothing more is read: the image returned is the
    last of the six frames. *)
Theorem capture_image_frames (image : Image) (settle_time_ms capture_samples : Z)
        (w : world) :
  0 <= settle_time_ms -> 1 <= capture_samples ->
  let c := cursor w in
  let prelude :=
    [EvShow image; EvSleep settle_time_ms;
     EvDrop c; EvDrop (c + 1)%nat; EvDrop (c + 2)%nat;
     EvRead (c + 3)%nat; EvRead (c + 4)%nat; EvRead (c + 5)%nat] in
  capture_image frames width height image settle_time_ms capture_samples w
  = if capture_samples =? 1
    then Some (frames (c + 5)%nat, mkWorld (c + 6) (log w ++ prelude))
    else Some (mean_frames frames width height (c + 6) (Z.to_nat capture_samples),
               mkWorld (c + 6 + Z.to_nat capture_samples)
                       (log w ++ prelude
                              ++ map EvRead (seq (c + 6) (Z.to_nat capture_samples)))).
Proof.
  intros Hsettle Hsamples c prelude. unfold capture_image.
  unfold mbind, M_bind, cv_assert, emit, drop_frame, next_frame.
  destruct (0 <=? settle_time_ms) eqn:E1; [|lia].
  destruct (1 <=? capture_samples) eqn:E2; [|lia].
  cbn [cursor log].
  destruct (capture_samples =? 1) eqn:E3.
  - apply Z.eqb_eq in E3. subst capture_samples. cbn.
    unfold mret, M_ret. subst prelude c.
    rewrite <- !app_assoc. cbn [app].
    rewrite !Nat.add_succ_r, !Nat.add_0_r. reflexivity.
  - apply Z.eqb_neq in E3. destruct (1 <? capture_samples) eqn:E4; [|lia].
    rewrite average_loop_spec by apply length_replicate.
    cbn [cursor log]. unfold mret, M_ret, mean_frames, sum_frames. subst prelude c.
    rewrite Z2Nat.id by lia.
    rewrite <- !app_assoc. cbn [app].
    rewrite !Nat.add_succ_r, !Nat.add_0_r.
    replace (S (S (S (S (S (S (cursor w + Z.to_nat capture_samples)))))))
      with (S (S (S (S (S (S (cursor w)))))) + Z.to_nat capture_samples)%nat by lia.
    reflexivity.
Qed.

End CaptureImage.

(** A camera whose [k]-th frame is uniformly of intensity [10 k]. *)
Lemma capture_image_frames_witness :
  let frames := fun k : nat => replicate 3 (10 * Z.of_nat k) in
  Calibrator.capture_image frames 1 1 [] 1000 2 (Calibrator.mkWorld 0 [])
  = Some ([65; 65; 65],
          Calibrator.mkWorld 8
            [Calibrator.EvShow []; Calibrator.EvSleep 1000;
             Calibrator.EvDrop 0; Calibrator.EvDrop 1; Calibrator.EvDrop 2;
             Calibrator.EvRead 3; Calibrator.EvRead 4; Calibrator.EvRead 5;
             Calibrator.EvRead 6; Calibrator.EvRead 7]).
Proof.
  intros frames.
  rewrite (capture_image_frames frames 1 1 (fun k => eq_refl) [] 1000 2
             (Calibrator.mkWorld 0 [])) by lia.
  vm_compute. reflexivity.
Defined.

(** C6 as stated fails: the code does not read its samples right
    after three discarded frames.  On the camera above and two samples
    the specified routine averages frames 3 and 4, the code frames 6
    and 7. *)
Lemma capture_image_discards_six :
  let frames := fun k : nat => replicate 3 (10 * Z.of_nat k) in
  Calibrator.capture_spec frames 1 1 [] 1000 2 (Calibrator.mkWorld 0 [])
  = Some ([35; 35; 35],
          Calibrator.mkWorld 5
            [Calibrator.EvShow []; Calibrator.EvSleep 1000;
             Calibrator.EvDrop 0; Calibrator.EvDrop 1; Calibrator.EvDrop 2;
             Calibrator.EvRead 3; Calibrator.EvRead 4])
  /\ Calibrator.capture_image frames 1 1 [] 1000 2 (Calibrator.mkWorld 0 [])
     <> Calibrator.capture_spec frames 1 1 [] 1000 2 (Calibrator.mkWorld 0 []).
Proof.
  intros frames. split; [vm_compute; reflexivity|].
  vm_compute. discriminate.
Qed.

(** ** Prediction of a black screen *)

Section PredictBlack.
Import Common ViewCalibrator.

Lemma eqb_refl (x : f32) : x <> S754_nan -> F32.eqb x x = true.
Proof.
  intros Hx. unfold F32.eqb, SFeqb, SFcompare.
  destruct x as [s|s| |s m e]; [reflexivity | destruct s; reflexivity | congruence |].
  rewrite Z.compare_refl, Pos.compare_cont_refl. destruct s; reflexivity.
Qed.

Lemma mul_not_nan (x y : f32) :
  F32.is_finite x = true -> F32.is_finite y = true -> F32.mul x y <> S754_nan.
Proof.
  intros Hx Hy. unfold F32.mul, SFmul.
  destruct x as [sx|sx| |sx mx ex]; try discriminate;
    destruct y as [sy|sy| |sy my ey]; try discriminate.
  apply binary_round_aux_not_nan. lia.
Qed.

(** A product with a finite factor does not tell zeros apart. *)
Lemma mul_same_value (p a r : f32) :
  F32.same_value p a -> F32.is_finite p = true -> F32.is_finite r = true ->
  F32.eqb (F32.mul p r) (F32.mul a r) = true.
Proof.
  intros [-> | [Hp Ha]] Hfp Hfr.
  - apply eqb_refl, mul_not_nan; assumption.
  - destruct p as [sp| | |]; try discriminate. destruct a as [sa| | |]; try discriminate.
    destruct r as [sr|sr| |sr mr er]; try discriminate; reflexivity.
Qed.

(** One channel of [lerp] with factor zero: [v0 * (1.0f - 0) + v1 * 0]
    gives back [v0], except that a negative zero may come back
    positive. *)
Lemma lerp_zero_channel (v0 v1 : f32) :
  F32.finite v0 = true -> F32.finite v1 = true ->
  let r := F32.add (F32.mul v0 (F32.sub F32.one F32.zero)) (F32.mul v1 F32.zero) in
  F32.finite r = true /\ F32.same_value r v0 /\ (F32.is_negzero v0 = false -> r = v0).
Proof.
  intros H0 H1 r. subst r.
  change (F32.sub F32.one F32.zero) with F32.one.
  apply andb_true_iff in H0 as [Hv0 Hf0]. apply andb_true_iff in H1 as [Hv1 Hf1].
  rewrite (mul_one_r v0 Hv0).
  assert (Hz : exists s, F32.mul v1 F32.zero = S754_zero s).
  { destruct v1 as [s|s| |s m e]; try discriminate; eexists; reflexivity. }
  destruct Hz as [s ->].
  destruct v0 as [s0|s0| |s0 m0 e0]; try discriminate.
  - destruct s0, s; cbn; (split; [reflexivity|]); (split; [|try discriminate; reflexivity]);
      try (left; reflexivity); right; split; reflexivity.
  - cbn [F32.add SFadd]. split; [unfold F32.finite; by rewrite Hv0|].
    split; [left; reflexivity | reflexivity].
Qed.

Lemma same_value_trans (x y z : f32) :
  F32.same_value x y -> F32.same_value y z -> F32.same_value x z.
Proof.
  intros [-> | [Hx Hy]] [-> | [Hy' Hz]]; unfold F32.same_value; auto.
Qed.

Lemma lerp_zero (u v : Vec3f) :
  vfinite u = true -> vfinite v = true ->
  vfinite (lerp u v F32.zero) = true
  /\ vsame (lerp u v F32.zero) u
  /\ (vnegzero u = false -> lerp u v F32.zero = u).
Proof.
  intros Hu Hv. unfold vfinite in Hu, Hv.
  apply andb_true_iff in Hu as [Hu Hu2]. apply andb_true_iff in Hu as [Hu0 Hu1].
  apply andb_true_iff in Hv as [Hv Hv2]. apply andb_true_iff in Hv as [Hv0 Hv1].
  destruct (lerp_zero_channel (f0 u) (f0 v) Hu0 Hv0) as (A0 & B0 & C0).
  destruct (lerp_zero_channel (f1 u) (f1 v) Hu1 Hv1) as (A1 & B1 & C1).
  destruct (lerp_zero_channel (f2 u) (f2 v) Hu2 Hv2) as (A2 & B2 & C2).
  split; [|split].
  - unfold vfinite, lerp, vadd, vscale; cbn [f0 f1 f2]. by rewrite A0, A1, A2.
  - unfold vsame, lerp, vadd, vscale; cbn [f0 f1 f2]. auto.
  - intros Hn. unfold vnegzero in Hn.
    apply orb_false_iff in Hn as [Hn Hn2]. apply orb_false_iff in Hn as [Hn0 Hn1].
    destruct u as [u0 u1 u2]. unfold lerp, vadd, vscale; cbn [f0 f1 f2] in *.
    by rewrite (C0 Hn0), (C1 Hn1), (C2 Hn2).
Qed.

Lemma vsame_trans (u v w : Vec3f) : vsame u v -> vsame v w -> vsame u w.
Proof.
  intros (A0 & A1 & A2) (B0 & B1 & B2). repeat split; eapply same_value_trans; eassumption.
Qed.

(** Trilinear interpolation with all three factors zero gives back the
    first corner. *)
Lemma tlerp_zero (v000 v010 v110 v100 v001 v011 v111 v101 : Vec3f) :
  Forall (fun v => vfinite v = true) [v000; v010; v110; v100; v001; v011; v111; v101] ->
  let p := tlerp v000 v010 v110 v100 v001 v011 v111 v101 F32.zero F32.zero F32.zero in
  vfinite p = true /\ vsame p v000 /\ (vnegzero v000 = false -> p = v000).
Proof.
  intros Hfin p. subst p.
  repeat match goal with
         | H : Forall _ (_ :: _) |- _ => apply Forall_cons_1 in H; destruct H as [? H]
         end.
  unfold tlerp, blerp.
  destruct (lerp_zero v000 v100) as (Fa & Sa & Ea); [assumption..|].
  destruct (lerp_zero v010 v110) as (Fb & Sb & Eb); [assumption..|].
  destruct (lerp_zero v001 v101) as (Fc & Sc & Ec); [assumption..|].
  destruct (lerp_zero v011 v111) as (Fd & Sd & Ed); [assumption..|].
  destruct (lerp_zero (lerp v000 v100 F32.zero) (lerp v010 v110 F32.zero) Fa Fb)
    as (Fe & Se & Ee).
  destruct (lerp_zero (lerp v001 v101 F32.zero) (lerp v011 v111 F32.zero) Fc Fd)
    as (Ff & Sf & Ef).
  destruct (lerp_zero _ _ Fe Ff) as (Fg & Sg & Eg).
  split; [exact Fg|]. split.
  - eapply vsame_trans; [exact Sg|]. eapply vsame_trans; [exact Se | exact Sa].
  - intros Hn. rewrite (Ea Hn) in *. rewrite (Ee Hn) in *. by rewrite (Eg Hn).
Qed.

(** On a black pixel [predict] reads the cube corner [(0, 0, 0)] with
    all interpolation factors zero. *)
Lemma predict_pixel_black_reads (cm : colour_map) (reflectance : Vec3f) :
  predict_pixel cm reflectance black
  = (v000 ← cmap_at cm 0; v010 ← cmap_at cm 8; v110 ← cmap_at cm 9;
     v100 ← cmap_at cm 1; v001 ← cmap_at cm 64; v011 ← cmap_at cm 72;
     v111 ← cmap_at cm 73; v101 ← cmap_at cm 65;
     Some (vmul (tlerp v000 v010 v110 v100 v001 v011 v111 v101
                       F32.zero F32.zero F32.zero) reflectance)).
Proof. reflexivity. Qed.

Lemma cmap_at_finite (cm : colour_map) (i : Z) :
  length cm = 512%nat -> Forall (fun v => vfinite v = true) cm -> 0 <= i < 512 ->
  exists v, cmap_at cm i = Some v /\ vfinite v = true.
Proof.
  intros Hlen Hfin Hi. destruct (cmap_at_Some cm i) as [v Hv]; [lia|].
  exists v. split; [exact Hv|].
  unfold cmap_at in Hv. destruct (0 <=? i); [|discriminate].
  rewrite Forall_forall in Hfin. apply Hfin. by eapply list_elem_of_lookup_2.
Qed.

Lemma predict_pixel_black (cm : colour_map) (reflectance lut0 : Vec3f) :
  length cm = 512%nat -> Forall (fun v => vfinite v = true) cm ->
  vfinite reflectance = true -> cm !! 0%nat = Some lut0 ->
  exists out, predict_pixel cm reflectance black = Some out
              /\ veqb out (vmul lut0 reflectance) = true
              /\ (vnegzero lut0 = false -> out = vmul lut0 reflectance).
Proof.
  intros Hlen Hfin Hr H0. rewrite predict_pixel_black_reads.
  destruct (cmap_at_finite cm 0 Hlen Hfin) as (v000 & E000 & F000); [lia|].
  destruct (cmap_at_finite cm 8 Hlen Hfin) as (v010 & E010 & F010); [lia|].
  destruct (cmap_at_finite cm 9 Hlen Hfin) as (v110 & E110 & F110); [lia|].
  destruct (cmap_at_finite cm 1 Hlen Hfin) as (v100 & E100 & F100); [lia|].
  destruct (cmap_at_finite cm 64 Hlen Hfin) as (v001 & E001 & F001); [lia|].
  destruct (cmap_at_finite cm 72 Hlen Hfin) as (v011 & E011 & F011); [lia|].
  destruct (cmap_at_finite cm 73 Hlen Hfin) as (v111 & E111 & F111); [lia|].
  destruct (cmap_at_finite cm 65 Hlen Hfin) as (v101 & E101 & F101); [lia|].
  rewrite E000, E010, E110, E100, E001, E011, E111, E101. cbn [mbind option_bind].
  assert (v000 = lut0) as ->
    by (change (cmap_at cm 0) with (cm !! 0%nat) in E000; congruence).
  destruct (tlerp_zero lut0 v010 v110 v100 v001 v011 v111 v101) as (Fp & Sp & Ep).
  { repeat constructor; assumption. }
  eexists. split; [reflexivity|]. split.
  - destruct Sp as (S0 & S1 & S2).
    unfold vfinite in Fp, Hr.
    apply andb_true_iff in Fp as [Fp Fp2]. apply andb_true_iff in Fp as [Fp0 Fp1].
    apply andb_true_iff in Hr as [Hr Hr2]. apply andb_true_iff in Hr as [Hr0 Hr1].
    unfold F32.finite in *.
    apply andb_true_iff in Fp0 as [_ Fp0]. apply andb_true_iff in Fp1 as [_ Fp1].
    apply andb_true_iff in Fp2 as [_ Fp2].
    apply andb_true_iff in Hr0 as [_ Hr0]. apply andb_true_iff in Hr1 as [_ Hr1].
    apply andb_true_iff in Hr2 as [_ Hr2].
    unfold veqb, vmul; cbn [f0 f1 f2].
    rewrite (mul_same_value _ _ _ S0 Fp0 Hr0), (mul_same_value _ _ _ S1 Fp1 Hr1),
      (mul_same_value _ _ _ S2 Fp2 Hr2). reflexivity.
  - intros Hn. by rewrite (Ep Hn).
Qed.

(** C7.  With finite colour-map and reflectance entries, [predict]
    turns an all-black 8-bit image into, at each pixel, the reflectance
    triple of the pixel multiplied channel by channel with the
    colour-map entry at [(0, 0, 0)]: the two compare equal as floats,
    and are the same datum unless that entry holds a negative zero
    (whose product may then come out as a zero of the other sign). *)
Theorem predict_black (cm : colour_map) (refl : list Vec3f) (src : list Vec3b)
        (lut0 : Vec3f) :
  length cm = 512%nat -> Forall (fun v => vfinite v = true) cm ->
  Forall (fun v => vfinite v = true) refl ->
  cm !! Z.to_nat (xyz_to_3d_index 0 0 0 CMAP_SIZE) = Some lut0 ->
  Forall (fun c => c = black) src -> length refl = length src ->
  exists dst,
    predict cm refl src = Some dst
    /\ Forall2 (fun out r => veqb out (vmul lut0 r) = true
                             /\ (vnegzero lut0 = false -> out = vmul lut0 r))
               dst refl.
Proof.
  intros Hlen Hfin Hrefl H0 Hsrc. revert src Hsrc.
  induction Hrefl as [|r refl Hr Hrefl IH]; intros src Hsrc Hl.
  - destruct src; [|discriminate]. exists []. split; [reflexivity | constructor].
  - destruct src as [|c src]; [discriminate|].
    apply Forall_cons_1 in Hsrc as [-> Hsrc].
    destruct (IH src Hsrc) as (dst & Hdst & Hall); [simpl in Hl; lia|].
    destruct (predict_pixel_black cm r lut0 Hlen Hfin Hr H0) as (out & Hout & Heq & Hex).
    exists (out :: dst). split.
    + unfold predict in *. cbn [zip zip_with mapM]. rewrite Hout. cbn [mbind option_bind].
      rewrite Hdst. reflexivity.
    + constructor; [split; assumption | exact Hall].
Qed.

End PredictBlack.

Lemma predict_black_witness :
  let entry := mkVec3f (F32.of_int 12) (F32.of_int 14) (F32.of_int 9) in
  let half := F32.div F32.one (F32.of_int 2) in
  let refl := [mkVec3f F32.one half F32.one; mkVec3f half half F32.one] in
  ViewCalibrator.predict (replicate 512 entry) refl [black; black]
  = Some [mkVec3f (F32.of_int 12) (F32.of_int 7) (F32.of_int 9);
          mkVec3f (F32.of_int 6) (F32.of_int 7) (F32.of_int 9)].
Proof.
  intros entry half refl.
  destruct (predict_black (replicate 512 entry) refl [black; black] entry)
    as (dst & Hdst & Hall);
    [reflexivity | by apply Forall_replicate | by repeat constructor
     | reflexivity | by repeat constructor | reflexivity |].
  rewrite Hdst. f_equal. unfold refl in Hall.
  apply Forall2_cons_inv_r in Hall as (out1 & dst1 & [_ H1] & Hall & ->).
  apply Forall2_cons_inv_r in Hall as (out2 & dst2 & [_ H2] & Hall & ->).
  apply Forall2_nil_inv_r in Hall as ->.
  rewrite (H1 eq_refl), (H2 eq_refl). reflexivity.
Defined.

(** ** The touch test *)

Section TouchTest.
Import FingerTracker Touch.

Lemma bind_length_const {A B : Type} (f : A -> list B) (l : list A) (k : nat) :
  (forall a, length (f a) = k) -> length (l ≫= f) = (length l * k)%nat.
Proof.
  intros Hf. induction l as [|a l IH]; [reflexivity|].
  rewrite bind_cons, length_app, Hf, IH. simpl. lia.
Qed.

Lemma zrange_length (lo n : Z) : length (zrange lo n) = Z.to_nat n.
Proof. unfold zrange. by rewrite length_map, length_seq. Qed.

(** No more nonzero pixels than pixels. *)
Lemma count_in_bound (m : Mask) (r : Rect) :
  0 <= rwidth r -> 0 <= rheight r -> 0 <= count_in m r <= rwidth r * rheight r.
Proof.
  intros Hw Hh. unfold count_in. split; [lia|].
  etransitivity; [apply inj_le, length_filter|].
  rewrite (bind_length_const _ _ (Z.to_nat (rwidth r))).
  - rewrite zrange_length. nia.
  - intros y. rewrite (bind_length_const _ _ 1%nat) by reflexivity.
    rewrite zrange_length. lia.
Qed.

Lemma radius_ge_7 (c p : Point) : 7 <= radius c p.
Proof. unfold radius. pose proof (Z.sqrt_nonneg (pdot (psub c p) (psub c p))). lia. Qed.

(** For a centre of mass inside the frame the two corners handed to
    [cv::Rect] are in order, and the rectangle lies inside the mask. *)
Lemma touch_roi_clipped (m : Mask) (c p : Point) :
  2 <= cols m -> 2 <= rows m -> 0 <= px c < cols m -> 0 <= py c < rows m ->
  touch_roi m c p = clipped_roi m c p
  /\ 0 <= rwidth (clipped_roi m c p) /\ 0 <= rheight (clipped_roi m c p)
  /\ 0 <= rx (clipped_roi m c p) /\ 0 <= ry (clipped_roi m c p)
  /\ rx (clipped_roi m c p) + rwidth (clipped_roi m c p) <= cols m - 2
  /\ ry (clipped_roi m c p) + rheight (clipped_roi m c p) <= rows m - 2.
Proof.
  intros Hc Hr Hx Hy. pose proof (radius_ge_7 c p) as H7.
  unfold touch_roi, clipped_roi, rect_of_points. cbn [px py rx ry rwidth rheight].
  repeat split; try lia. f_equal; lia.
Qed.

Lemma countNonZero_roi_inside (m : Mask) (r : Rect) :
  0 <= rx r -> 0 <= ry r -> 0 <= rwidth r -> 0 <= rheight r ->
  rx r + rwidth r <= cols m -> ry r + rheight r <= rows m ->
  countNonZero_roi m r = Some (count_in m r).
Proof.
  intros. unfold countNonZero_roi, rect_inside.
  repeat match goal with
         | |- context [?a <=? ?b] =>
             let E := fresh in destruct (a <=? b) eqn:E; [clear E | lia]
         end.
  reflexivity.
Qed.

(** The single-precision ratio test decides as the exact ratio of the
    two counts does, for counts of up to [2^21] pixels. *)
Lemma ratio_test_exact (shadow foreground : Z) :
  0 <= shadow <= 2 ^ 21 -> 0 <= foreground <= 2 ^ 21 ->
  ratio_test shadow foreground = spec_decision shadow foreground.
Proof.
  intros Hs Hf. unfold ratio_test, spec_decision, ratio, F32.leb.
  change (F32.div (F32.of_int touch_thresh) (F32.of_int 100))
    with (F32.div (F32.of_int 20) (F32.of_int 100)).
  change (F32.div (F32.of_int hover_thresh) (F32.of_int 100))
    with (F32.div (F32.of_int 30) (F32.of_int 100)).
  destruct (Z.eq_dec foreground 0) as [-> | Hf0].
  - (* division by zero: NaN or infinity, neither compares below *)
    destruct (Z.eq_dec shadow 0) as [-> | Hs0]; [reflexivity|].
    destruct (of_int_pos shadow) as (k & _ & _ & ->); [lia|]. reflexivity.
  - destruct (Z.eq_dec shadow 0) as [-> | Hs0].
    + destruct (of_int_pos foreground) as (k & _ & _ & ->); [lia|].
      destruct (0 <? foreground) eqn:E; [|lia].
      destruct (100 * 0 <=? 20 * foreground) eqn:E'; [reflexivity | lia].
    + pose proof (leb_touch_thresh shadow foreground ltac:(lia) ltac:(lia)) as Ht.
      pose proof (leb_hover_thresh shadow foreground ltac:(lia) ltac:(lia)) as Hh.
      destruct (0 <? foreground) eqn:E; [|lia]. cbn [andb].
      destruct (SFleb _ (F32.div (F32.of_int 20) (F32.of_int 100))) eqn:Et.
      * destruct (100 * shadow <=? 20 * foreground) eqn:E'; [reflexivity|].
        apply Z.leb_gt in E'. pose proof (proj1 Ht eq_refl). lia.
      * destruct (100 * shadow <=? 20 * foreground) eqn:E'.
        { apply Z.leb_le in E'. assert (5 * shadow <= foreground) as H5 by lia.
          apply Ht in H5. congruence. }
        destruct (SFleb _ (F32.div (F32.of_int 30) (F32.of_int 100))) eqn:Eh.
        -- destruct (100 * shadow <=? 30 * foreground) eqn:E''; [reflexivity|].
           apply Z.leb_gt in E''. pose proof (proj1 Hh eq_refl). lia.
        -- destruct (100 * shadow <=? 30 * foreground) eqn:E''; [|reflexivity].
           apply Z.leb_le in E''. assert (10 * shadow <= 3 * foreground) as H10 by lia.
           apply Hh in H10. congruence.
Qed.

(** What [find_touch_action] returns for a chosen fingertip whose
    centre of mass lies in the frame. *)
Lemma find_touch_action_chosen (last_fingertip : Fingertip) (fingertips : list Fingertip)
      (foreground_mask shadow_mask : Mask) (chosen : Fingertip) :
  choose_fingertip (id last_fingertip) fingertips = Some chosen ->
  cols foreground_mask = cols shadow_mask -> rows foreground_mask = rows shadow_mask ->
  2 <= cols shadow_mask -> 2 <= rows shadow_mask ->
  cols shadow_mask * rows shadow_mask <= 2 ^ 21 ->
  0 <= px (com chosen) < cols shadow_mask -> 0 <= py (com chosen) < rows shadow_mask ->
  let roi := clipped_roi shadow_mask (com chosen) (point chosen) in
  find_touch_action last_fingertip fingertips foreground_mask shadow_mask
  = Returned match spec_decision (count_in shadow_mask roi) (count_in foreground_mask roi) with
             | Some touch => Some (point chosen, touch)
             | None => None
             end chosen.
Proof.
  intros Hch Hc Hr Hc2 Hr2 Harea Hx Hy roi.
  destruct (touch_roi_clipped shadow_mask (com chosen) (point chosen) Hc2 Hr2 Hx Hy)
    as (Hroi & Hw & Hh & Hx0 & Hy0 & Hx1 & Hy1).
  fold roi in Hroi, Hw, Hh, Hx0, Hy0, Hx1, Hy1.
  unfold find_touch_action. rewrite Hch, Hroi.
  rewrite (countNonZero_roi_inside shadow_mask roi) by lia.
  rewrite (countNonZero_roi_inside foreground_mask roi) by lia.
  pose proof (count_in_bound shadow_mask roi Hw Hh) as Bs.
  pose proof (count_in_bound foreground_mask roi Hw Hh) as Bf.
  assert (Hbox : rwidth roi * rheight roi <= cols shadow_mask * rows shadow_mask) by nia.
  rewrite ratio_test_exact by lia.
  destruct (spec_decision _ _); reflexivity.
Qed.

(** C3, amended.  For the selected fingertip with tip [t] and centre
    of mass [com] inside a frame of at most [2^21] pixels, with
    [r = floor |com - t| + 7], [roi] the square of side [2r] centred on
    [com] clipped to the columns below [W - 2] and the rows below
    [H - 2], and [rho] the count of nonzero shadow pixels in [roi] over
    the count of nonzero foreground pixels in [roi]: the decider
    returns a touch at [t] iff [rho <= 0.20], a hover at [t] iff
    [0.20 < rho <= 0.30], and no action otherwise (also when there is
    no foreground pixel in [roi]). *)
Theorem touch_decision (last_fingertip : Fingertip) (fingertips : list Fingertip)
        (foreground_mask shadow_mask : Mask) (chosen : Fingertip) :
  choose_fingertip (id last_fingertip) fingertips = Some chosen ->
  cols foreground_mask = cols shadow_mask -> rows foreground_mask = rows shadow_mask ->
  2 <= cols shadow_mask -> 2 <= rows shadow_mask ->
  cols shadow_mask * rows shadow_mask <= 2 ^ 21 ->
  0 <= px (com chosen) < cols shadow_mask -> 0 <= py (com chosen) < rows shadow_mask ->
  let r := Z.sqrt (pdot (psub (com chosen) (point chosen)) (psub (com chosen) (point chosen))) + 7 in
  let x0 := Z.max (px (com chosen) - r) 0 in
  let y0 := Z.max (py (com chosen) - r) 0 in
  let x1 := Z.min (px (com chosen) + r) (cols shadow_mask - 2) in
  let y1 := Z.min (py (com chosen) + r) (rows shadow_mask - 2) in
  let roi := mkRect x0 y0 (x1 - x0) (y1 - y0) in
  let shadow := count_in shadow_mask roi in
  let foreground := count_in foreground_mask roi in
  let result := find_touch_action last_fingertip fingertips foreground_mask shadow_mask in
  touch_roi shadow_mask (com chosen) (point chosen) = roi
  /\ (result = Returned (Some (point chosen, true)) chosen
      <-> 0 < foreground /\ 100 * shadow <= 20 * foreground)
  /\ (result = Returned (Some (point chosen, false)) chosen
      <-> 0 < foreground /\ 20 * foreground < 100 * shadow <= 30 * foreground)
  /\ (result = Returned None chosen
      <-> ~ (0 < foreground /\ 100 * shadow <= 30 * foreground)).
Proof.
  intros Hch Hc Hr Hc2 Hr2 Harea Hx Hy r x0 y0 x1 y1 roi shadow foreground result.
  destruct (touch_roi_clipped shadow_mask (com chosen) (point chosen) Hc2 Hr2 Hx Hy)
    as (Hroi & _).
  split; [exact Hroi|].
  pose proof (find_touch_action_chosen last_fingertip fingertips foreground_mask
                shadow_mask chosen Hch Hc Hr Hc2 Hr2 Harea Hx Hy) as Hres.
  change (clipped_roi shadow_mask (com chosen) (point chosen)) with roi in Hres.
  cbv zeta in Hres. fold shadow foreground result in Hres.
  rewrite Hres. unfold spec_decision.
  destruct (0 <? foreground) eqn:E0; cbn [andb];
    [apply Z.ltb_lt in E0 | apply Z.ltb_ge in E0];
    [destruct (100 * shadow <=? 20 * foreground) eqn:E1;
       [apply Z.leb_le in E1
       | apply Z.leb_gt in E1;
         destruct (100 * shadow <=? 30 * foreground) eqn:E2;
           [apply Z.leb_le in E2 | apply Z.leb_gt in E2]]
    |];
    (split; [|split]);
    (split;
     [intros HA; first [discriminate HA | lia]
     | intros HB; first [reflexivity | exfalso; lia]]).
Qed.

End TouchTest.

Lemma touch_decision_witness :
  let fingertips := [Samples.finger20] in
  Touch.find_touch_action Touch.no_fingertip fingertips Samples.fg20 Samples.sh20
  = Touch.Returned (Some (mkPoint 15 10, true)) Samples.finger20
  /\ count_in Samples.sh20 (mkRect 8 3 10 14) = 0
  /\ count_in Samples.fg20 (mkRect 8 3 10 14) = 28.
Proof.
  intros fingertips.
  destruct (touch_decision Touch.no_fingertip fingertips Samples.fg20 Samples.sh20
              Samples.finger20)
    as (_ & Htouch & _);
    [reflexivity | reflexivity | reflexivity | vm_compute; discriminate
     | vm_compute; discriminate | vm_compute; discriminate
     | vm_compute; split; [discriminate | reflexivity]
     | vm_compute; split; [discriminate | reflexivity] |].
  split; [|split; vm_compute; reflexivity].
  apply Htouch. vm_compute. split; [reflexivity | discriminate].
Defined.

(** C3 as stated fails: on the square clipped to the frame the shadow
    covers half of the foreground, which announces no action, yet the
    decider, which leaves out the last two columns, sees no shadow and
    returns a touch. *)
Lemma touch_roi_stops_short_of_frame :
  let fingertips := [Samples.finger20] in
  Touch.choose_fingertip 0 fingertips = Some Samples.finger20
  /\ Touch.spec_roi Samples.sh20 (mkPoint 15 10) (mkPoint 15 10) = mkRect 8 3 12 14
  /\ count_in Samples.sh20 (mkRect 8 3 12 14) = 28
  /\ count_in Samples.fg20 (mkRect 8 3 12 14) = 56
  /\ Touch.spec_action Samples.fg20 Samples.sh20 Samples.finger20 = None
  /\ Touch.find_touch_action Touch.no_fingertip fingertips Samples.fg20 Samples.sh20
     <> Touch.Returned (Touch.spec_action Samples.fg20 Samples.sh20 Samples.finger20)
                       Samples.finger20.
Proof.
  intros fingertips.
  repeat (split; [vm_compute; reflexivity|]).
  vm_compute. discriminate.
Qed.

(** ** The delay queue: warm-up and time-outs *)

Section QueueWarmUp.
Import MaskGenerator.
Context {Frame Screen : Type}.
Variable predict_screen : Screen -> Frame.

Local Abbreviation step := (predictor_step predict_screen).
Local Abbreviation run := (predictor_run predict_screen).
Local Abbreviation frames_of := (pushed_frames predict_screen).

(** Slots the write index has not reached yet keep what they held. *)
Lemma run_untouched (st : @state Frame) (cs : list (option Screen)) (j : nat) :
  (m_WriteIndex st + length cs <= j)%nat -> (j < length (m_FrameQueue st))%nat ->
  m_FrameQueue (run st cs) !! j = m_FrameQueue st !! j
  /\ m_WriteIndex (run st cs) = (m_WriteIndex st + length cs)%nat
  /\ length (m_FrameQueue (run st cs)) = length (m_FrameQueue st).
Proof.
  induction cs as [|c cs IH] using rev_ind; intros Hj HD.
  - simpl. rewrite Nat.add_0_r. done.
  - rewrite length_app in Hj. change (length [c]) with 1%nat in Hj.
    destruct IH as (Hq & Hw & Hl); [lia | lia |].
    rewrite run_snoc, length_app. change (length [c]) with 1%nat.
    unfold predictor_step at 1 2 3. cbn [m_FrameQueue m_WriteIndex].
    rewrite length_insert, Hl, Hw. split; [|split].
    + rewrite list_lookup_insert_ne by lia. exact Hq.
    + rewrite Nat.mod_small by lia. lia.
    + reflexivity.
Qed.

(** X1.  While fewer than [prediction_delay] frames have been pushed
    since [start], [read_prediction] returns the zeroed frame [start]
    put into the queue: the write index has not come round to a slot
    the producer wrote. *)
Theorem read_prediction_warm_up (zeros buf : Frame) (captures : list (option Screen)) :
  (length captures < prediction_delay)%nat ->
  read_prediction (run (start zeros buf) captures) = Some zeros.
Proof.
  intros Hn. unfold read_prediction.
  destruct (run_untouched (start zeros buf) captures (length captures)) as (Hq & Hw & _).
  - cbn [start m_WriteIndex]. lia.
  - cbn [start m_FrameQueue m_WriteIndex]. rewrite length_replicate. exact Hn.
  - rewrite Hw. cbn [start m_WriteIndex]. rewrite Nat.add_0_l, Hq.
    cbn [start m_FrameQueue]. apply lookup_replicate_2. exact Hn.
Qed.

(** X2.  What the producer pushes: the prediction of the screen buffer
    when a new one arrived; when the read timed out, the frame pushed
    by the iteration before it (for the first iteration, what the
    prediction buffer held), because [prediction_buffer] is not
    written in that case. *)
Theorem stale_prediction_repeats (st : @state Frame) (captures : list (option Screen)) :
  (forall k s, captures !! k = Some (Some s) ->
     frames_of st captures !! k = Some (predict_screen s))
  /\ (captures !! 0%nat = Some None ->
      frames_of st captures !! 0%nat = Some (prediction_buffer st))
  /\ (forall k, captures !! S k = Some None ->
        frames_of st captures !! S k = frames_of st captures !! k).
Proof.
  split; [|split].
  - revert st. induction captures as [|c cs IH]; intros st k s Hk; [done|].
    destruct k as [|k]; simpl in *.
    + injection Hk as ->. reflexivity.
    + by apply IH.
  - destruct captures as [|c cs]; [done|]. simpl. intros [= ->]. reflexivity.
  - revert st. induction captures as [|c cs IH]; intros st k Hk; [done|].
    destruct k as [|k]; simpl in *.
    + destruct cs as [|c' cs]; [done|]. simpl in *. injection Hk as ->. reflexivity.
    + by apply IH.
Qed.

End QueueWarmUp.

Lemma read_prediction_warm_up_witness :
  MaskGenerator.read_prediction
    (MaskGenerator.predictor_run (fun s : Z => 2 * s) (MaskGenerator.start 0 7) [Some 1; None])
  = Some 0.
Proof.
  apply (read_prediction_warm_up (fun s : Z => 2 * s) 0 7 [Some 1; None]).
  vm_compute. lia.
Defined.

(** ** Matching candidates to remembered fingers *)

Section Matching.
Import FingerTracker.

Local Abbreviation dist2 p c := (pdot (psub p (fst c)) (psub p (fst c))).

(** The scan over the candidates keeps the running minimum: either no
    candidate beats the bound it started with, or the result is the
    first candidate of least distance, strictly below that bound. *)
Lemma closest_candidate_spec (p : Point) (cands : list Candidate) (c bound idx : Z) :
  let r := closest_candidate p cands c bound idx in
  (r = idx /\ Forall (fun x : Candidate => bound <= dist2 p x) cands)
  \/ (exists k x, r = c + Z.of_nat k /\ cands !! k = Some x /\ dist2 p x < bound
        /\ Forall (fun y : Candidate => dist2 p x <= dist2 p y) cands
        /\ forall j y, (j < k)%nat -> cands !! j = Some y -> dist2 p x < dist2 p y).
Proof.
  revert c bound idx. induction cands as [|x cands IH]; intros c bound idx; simpl.
  - left. split; [reflexivity | constructor].
  - destruct (dist2 p x <? bound) eqn:E.
    + apply Z.ltb_lt in E.
      destruct (IH (c + 1) (dist2 p x) c) as [[Hr Hall] | (k & y & Hr & Hk & Hlt & Hmin & Hfirst)].
      * right. exists 0%nat, x. rewrite Hr. split; [lia|]. split; [reflexivity|].
        split; [exact E|]. split; [constructor; [lia | exact Hall]|].
        intros j y Hj. lia.
      * right. exists (S k), y. rewrite Hr. split; [lia|]. split; [exact Hk|].
        split; [lia|]. split; [constructor; [lia | exact Hmin]|].
        intros j z Hj Hz. destruct j as [|j]; simpl in Hz.
        -- injection Hz as <-. exact Hlt.
        -- apply (Hfirst j z); [lia | exact Hz].
    + apply Z.ltb_ge in E.
      destruct (IH (c + 1) bound idx) as [[Hr Hall] | (k & y & Hr & Hk & Hlt & Hmin & Hfirst)].
      * left. split; [exact Hr | constructor; [exact E | exact Hall]].
      * right. exists (S k), y. rewrite Hr. split; [lia|]. split; [exact Hk|].
        split; [exact Hlt|]. split; [constructor; [lia | exact Hmin]|].
        intros j z Hj Hz. destruct j as [|j]; simpl in Hz.
        -- injection Hz as <-. lia.
        -- apply (Hfirst j z); [lia | exact Hz].
Qed.

(** X3.  The search for the candidate of a remembered finger returns
    [-1] exactly when every candidate is at squared distance [75^2] or
    more; otherwise it returns the index of a candidate of least
    distance, strictly inside the tracking range, and the first one
    among equals. *)
Theorem find_match_closest (p : Point) (cands : list Candidate) :
  (find_match p cands = -1
   <-> Forall (fun x : Candidate => MAX_TRACKING_RANGE ^ 2 <= dist2 p x) cands)
  /\ (find_match p cands <> -1 ->
      exists x, 0 <= find_match p cands
        /\ cands !! Z.to_nat (find_match p cands) = Some x
        /\ dist2 p x < MAX_TRACKING_RANGE ^ 2
        /\ Forall (fun y : Candidate => dist2 p x <= dist2 p y) cands
        /\ forall j y, (j < Z.to_nat (find_match p cands))%nat -> cands !! j = Some y ->
             dist2 p x < dist2 p y).
Proof.
  unfold find_match.
  destruct (closest_candidate_spec p cands 0 (MAX_TRACKING_RANGE ^ 2) (-1))
    as [[Hr Hall] | (k & x & Hr & Hk & Hlt & Hmin & Hfirst)]; cbv zeta in *.
  - split; [split; [intros _; exact Hall | intros _; exact Hr]|].
    intros Hne. contradiction.
  - split.
    + split; [intros E; lia|]. intros Hall. exfalso.
      apply (proj1 (Forall_lookup _ _) Hall k x) in Hk. lia.
    + intros _. exists x. rewrite Hr. rewrite Z.add_0_l, Nat2Z.id.
      split; [lia|]. split; [exact Hk|]. split; [exact Hlt|]. split; [exact Hmin | exact Hfirst].
Qed.

End Matching.

(** ** The tracking memory *)

Section TrackingMemory.
Import FingerTracker.
Variable findContours : Mask -> Rect -> list Contour.
Variable convexHull : Contour -> list Z.
Variable arc_angle : Point -> Point -> f32.

Lemma last_map_Some {A : Type} (v : list A) (b : A) :
  List.last (map Some (v ++ [b])) None = Some b.
Proof. rewrite map_app. simpl. apply last_last. Qed.

(** Removing by swap-and-pop takes out exactly the entry at the index. *)
Lemma swap_remove_perm {A : Type} (v : list A) (i : nat) (x : A) :
  v !! i = Some x -> x :: swap_remove v i ≡ₚ v.
Proof.
  intros Hi. destruct v as [|a v0] using rev_ind; [done|]. clear IHv0.
  unfold swap_remove. rewrite last_map_Some.
  destruct (decide (i = length v0)) as [->|Hne].
  - rewrite lookup_app_r, Nat.sub_diag in Hi by lia. injection Hi as <-.
    rewrite insert_app_r_alt, Nat.sub_diag by lia. cbn [insert list_insert].
    rewrite removelast_last. apply Permutation_cons_append.
  - assert (Hlt : (i < length v0)%nat).
    { apply lookup_lt_Some in Hi. rewrite length_app in Hi. simpl in Hi. lia. }
    rewrite lookup_app_l in Hi by lia.
    rewrite insert_app_l by lia. rewrite removelast_last.
    rewrite insert_take_drop by lia.
    rewrite <- (take_drop_middle v0 i x Hi) at 3.
    rewrite <- app_assoc. cbn [app]. rewrite <- !Permutation_middle.
    rewrite app_nil_r. reflexivity.
Qed.

Lemma swap_remove_submseteq {A : Type} (v : list A) (i : nat) :
  swap_remove v i ⊆+ v.
Proof.
  destruct (v !! i) as [x|] eqn:Hi.
  - rewrite <- (swap_remove_perm v i x Hi) at 2. by apply submseteq_cons.
  - apply lookup_ge_None in Hi. unfold swap_remove.
    destruct v as [|a v0] using rev_ind; [done|]. clear IHv0.
    rewrite last_map_Some. rewrite list_insert_ge by lia.
    rewrite removelast_last. by apply submseteq_inserts_r.
Qed.

Lemma swap_remove_app_r {A : Type} (done l : list A) (i : nat) :
  l <> [] -> swap_remove (done ++ l) (length done + i) = done ++ swap_remove l i.
Proof.
  intros Hl. destruct l as [|b l0] using rev_ind; [done|]. clear IHl0 Hl.
  unfold swap_remove. rewrite app_assoc, !last_map_Some, <- app_assoc.
  rewrite insert_app_r. rewrite removelast_app; [reflexivity|].
  intros E. apply (f_equal length) in E. rewrite length_insert, length_app in E.
  simpl in E. lia.
Qed.

Lemma Forall_sub {A : Type} (P : A -> Prop) (l k : list A) :
  l ⊆+ k -> Forall P k -> Forall P l.
Proof.
  intros Hs Hk. apply submseteq_Permutation in Hs as [r Hr].
  rewrite Hr in Hk. by apply Forall_app in Hk as [Hl _].
Qed.

Lemma NoDup_sub {A : Type} (l k : list A) : l ⊆+ k -> NoDup k -> NoDup l.
Proof.
  intros Hs Hk. apply submseteq_Permutation in Hs as [r Hr].
  rewrite Hr in Hk. by apply NoDup_app in Hk as [Hl _].
Qed.

Local Abbreviation ids_of memory := (map (fun e : Fingertip * Z => id (fst e)) memory).

(** The matching loop moves ids from the memory to the output: no id
    is lost, none is made up, and what stays in the memory was there
    before. *)
Lemma match_loop_spec (n m : nat) (memory : list (Fingertip * Z))
      (cands : list Candidate) (out : list Fingertip) :
  forall memory1 cands1 out1,
    match_loop n m memory cands out = (memory1, cands1, out1) ->
    memory1 ⊆+ memory
    /\ map id out1 ++ ids_of memory1 ≡ₚ map id out ++ ids_of memory.
Proof.
  revert m memory cands out. induction n as [|n IH]; intros m memory cands out m1 c1 o1; simpl.
  - intros [= <- <- <-]. done.
  - destruct (memory !! m) as [[finger life]|] eqn:Hm; [|intros [= <- <- <-]; done].
    destruct (if 0 <=? find_match (point finger) cands
              then cands !! Z.to_nat (find_match (point finger) cands) else None)
      as [candidate|].
    + intros H. apply IH in H as [Hsub Hperm]. split.
      * etrans; [exact Hsub | apply swap_remove_submseteq].
      * rewrite Hperm, map_app. cbn [map id]. rewrite <- app_assoc. cbn [app].
        apply Permutation_app_head.
        change (id finger :: ids_of (swap_remove memory m))
          with (ids_of ((finger, life) :: swap_remove memory m)).
        by rewrite (swap_remove_perm memory m (finger, life) Hm).
    + apply IH.
Qed.

(** Fresh fingers get the ids [next_id], [next_id + 1], ... in the
    order of the candidates, and age one. *)
Lemma add_new_spec (cands : list Candidate) (next_id : Z) (out : list Fingertip) :
  exists fresh,
    add_new cands next_id out = (out ++ fresh, next_id + Z.of_nat (length cands))
    /\ map id fresh = map (fun k => next_id + Z.of_nat k) (seq 0 (length cands))
    /\ Forall (fun f => age f = 1) fresh
    /\ map (fun f => (point f, com f)) fresh = cands.
Proof.
  revert next_id out. induction cands as [|c cands IH]; intros next_id out; simpl.
  - exists []. rewrite app_nil_r, Z.add_0_r. done.
  - destruct (IH (next_id + 1) (out ++ [mkFingertip (fst c) (snd c) 1 next_id]))
      as (fresh & -> & Hids & Hage & Hc).
    exists (mkFingertip (fst c) (snd c) 1 next_id :: fresh).
    rewrite <- app_assoc. cbn [app]. split; [f_equal; lia|]. split; [|split].
    + cbn [map id]. rewrite Z.add_0_r. f_equal. rewrite Hids, <- fmap_S_seq.
      rewrite <- list_fmap_compose. apply list_fmap_ext. intros i k _. simpl. lia.
    + constructor; [reflexivity | exact Hage].
    + cbn [map point com]. rewrite Hc. by destruct c.
Qed.

(** The ageing loop, seen from the entries it has still to visit:
    every one of them loses one life, those left without are dropped. *)
Lemma age_loop_spec (n : nat) (done todo : list (Fingertip * Z)) :
  (length todo <= n)%nat ->
  exists kept,
    age_loop n (length done) (done ++ todo) = done ++ kept
    /\ map fst kept ⊆+ map fst todo
    /\ Forall (fun e => 1 <= e.2) kept
    /\ forall B, Forall (fun e => e.2 <= B) todo -> Forall (fun e => e.2 <= B - 1) kept.
Proof.
  revert done todo. induction n as [|n IH]; intros done todo Hn.
  - destruct todo; [|simpl in Hn; lia]. exists []. simpl. done.
  - destruct todo as [|[finger life] rest].
    + exists []. simpl. rewrite app_nil_r.
      rewrite (proj2 (lookup_ge_None _ _)) by lia. done.
    + cbn [age_loop]. rewrite lookup_app_r, Nat.sub_diag by lia. cbn [lookup list_lookup].
      rewrite insert_app_r_alt, Nat.sub_diag by lia. cbn [insert list_insert].
      destruct (life - 1 <=? 0) eqn:E.
      * pose proof (swap_remove_app_r done ((finger, life - 1) :: rest) 0 ltac:(done)) as Hs.
        rewrite Nat.add_0_r in Hs. rewrite Hs.
        pose proof (swap_remove_perm ((finger, life - 1) :: rest) 0 (finger, life - 1) eq_refl) as Hp.
        apply Permutation_cons_inv in Hp.
        destruct (IH done (swap_remove ((finger, life - 1) :: rest) 0)) as (kept & -> & Hsub & Hpos & Hle).
        { rewrite Hp. simpl in Hn. lia. }
        exists kept. split; [reflexivity|]. split; [|split].
        -- rewrite Hsub, Hp. cbn [map]. by apply submseteq_cons.
        -- exact Hpos.
        -- intros B HB. apply Hle. rewrite Hp. by apply Forall_cons_1 in HB as [_ HB].
      * apply Z.leb_gt in E.
        replace (done ++ (finger, life - 1) :: rest) with ((done ++ [(finger, life - 1)]) ++ rest)
          by (by rewrite <- app_assoc).
        replace (S (length done)) with (length (done ++ [(finger, life - 1)]))
          by (rewrite length_app; simpl; lia).
        destruct (IH (done ++ [(finger, life - 1)]) rest) as (kept & -> & Hsub & Hpos & Hle).
        { simpl in Hn. lia. }
        exists ((finger, life - 1) :: kept). rewrite <- app_assoc. split; [reflexivity|].
        split; [|split].
        -- cbn [map fst]. by apply submseteq_skip.
        -- constructor; [simpl; lia | exact Hpos].
        -- intros B HB. apply Forall_cons_1 in HB as [Hb HB]. constructor; [simpl in *; lia | by apply Hle].
Qed.

(** From the matching loop to the new memory, in one statement. *)
Lemma track_spec (memory : list (Fingertip * Z)) (cands : list Candidate) (next_id : Z) :
  exists memory1 tracked fresh kept,
    track memory cands next_id
    = (tracked ++ fresh, next_id + Z.of_nat (length fresh),
       kept ++ map (fun f => (f, MAX_TRACKING_LIFE)) (tracked ++ fresh))
    /\ memory1 ⊆+ memory
    /\ map id tracked ++ ids_of memory1 ≡ₚ ids_of memory
    /\ map id fresh = map (fun k => next_id + Z.of_nat k) (seq 0 (length fresh))
    /\ Forall (fun f => age f = 1) fresh
    /\ map fst kept ⊆+ map fst memory1
    /\ Forall (fun e => 1 <= e.2) kept
    /\ forall B, Forall (fun e => e.2 <= B) memory -> Forall (fun e => e.2 <= B - 1) kept.
Proof.
  unfold track.
  destruct (match_loop (length memory) 0 memory cands []) as [[memory1 cands1] tracked] eqn:Hm.
  apply match_loop_spec in Hm as [Hsub Hperm].
  destruct (add_new_spec cands1 next_id tracked) as (fresh & -> & Hids & Hage & Hc).
  assert (Hlen : length fresh = length cands1) by (by rewrite <- Hc, length_map).
  destruct (age_loop_spec (length memory1) [] memory1 ltac:(lia)) as (kept & Hk & Hks & Hpos & Hle).
  exists memory1, tracked, fresh, kept. unfold update_tracking_memory.
  simpl in Hk. rewrite Hk, <- Hlen. split; [reflexivity|].
  split; [exact Hsub|]. split; [exact Hperm|]. split; [by rewrite Hlen|].
  split; [exact Hage|]. split; [exact Hks|]. split; [exact Hpos|].
  intros B HB. apply Hle. by apply (Forall_sub _ memory1 memory).
Qed.


Lemma detect_track (t t' : tracker) (mask : Mask) (fs : list Fingertip) :
  detect findContours convexHull arc_angle t mask = Some (fs, t') ->
  exists cands,
    find_candidates findContours convexHull arc_angle (update_region t mask).2 mask = Some cands
    /\ track (m_TrackingMemory t) cands (m_NextID t) = (fs, m_NextID t', m_TrackingMemory t').
Proof.
  unfold detect. destruct (update_region t mask) as [timer region]. cbn [snd].
  destruct (find_candidates _ _ _ region mask) as [cands|]; [|discriminate].
  cbn [mbind option_bind].
  destruct (track (m_TrackingMemory t) cands (m_NextID t)) as [[fs0 next_id] memory] eqn:Ht.
  intros [= <- <-]. exists cands. split; [reflexivity | exact Ht].
Qed.

Lemma ids_of_remembered (kept : list (Fingertip * Z)) (fs : list Fingertip) :
  ids_of (kept ++ map (fun f => (f, MAX_TRACKING_LIFE)) fs) = ids_of kept ++ map id fs.
Proof. rewrite map_app, map_map. reflexivity. Qed.

(** X5.  Ids are never shared.  The tracking memory of a fresh tracker
    holds pairwise distinct ids, all below [m_NextID]; [focus] keeps
    that, and so does every [detect], whose returned fingertips have
    pairwise distinct ids as well; [m_NextID] never decreases. *)
Theorem fingertip_ids_distinct :
  let fresh_ids (t : tracker) :=
    NoDup (ids_of (m_TrackingMemory t))
    /\ Forall (fun e : Fingertip * Z => id e.1 < m_NextID t) (m_TrackingMemory t) in
  fresh_ids init
  /\ (forall t p width height, fresh_ids t -> fresh_ids (focus t p width height))
  /\ (forall t mask fs t',
        fresh_ids t ->
        detect findContours convexHull arc_angle t mask = Some (fs, t') ->
        NoDup (map id fs) /\ fresh_ids t' /\ m_NextID t <= m_NextID t').
Proof.
  cbv zeta. split; [|split].
  - split; [constructor | constructor].
  - intros t p width height H. exact H.
  - intros t mask fs t' [Hnd Hlt] Hd.
    apply detect_track in Hd as (cands & _ & Ht).
    destruct (track_spec (m_TrackingMemory t) cands (m_NextID t))
      as (memory1 & tracked & fresh & kept & Ht' & Hsub & Hperm & Hids & _ & Hks & _ & _).
    rewrite Ht in Ht'. injection Ht' as -> Hn Hm. rewrite Hm.
    assert (Hlt' : Forall (fun i => i < m_NextID t) (ids_of (m_TrackingMemory t))).
    { apply Forall_fmap. exact Hlt. }
    assert (Hold : ids_of kept ++ map id tracked ⊆+ ids_of (m_TrackingMemory t)).
    { rewrite <- Hperm, (Permutation_app_comm (map id tracked)).
      apply submseteq_skips_r.
      rewrite <- (map_map fst id kept), <- (map_map fst id memory1).
      by apply fmap_submseteq. }
    assert (Hfresh : Forall (fun i => m_NextID t <= i) (map id fresh)).
    { rewrite Hids. apply Forall_fmap, Forall_forall. intros k _. simpl. lia. }
    assert (Hndf : NoDup (map id fresh)).
    { rewrite Hids. apply NoDup_fmap_2; [intros a b; lia | apply NoDup_seq]. }
    assert (Hall : NoDup ((ids_of kept ++ map id tracked) ++ map id fresh)).
    { apply NoDup_app. split; [by apply (NoDup_sub _ _ Hold)|]. split; [|exact Hndf].
      intros x Hx Hx'.
      apply (Forall_sub _ _ _ Hold) in Hlt'.
      apply (proj1 (Forall_forall _ _) Hlt') in Hx.
      apply (proj1 (Forall_forall _ _) Hfresh) in Hx'. lia. }
    split; [|split; [split|]].
    + rewrite map_app. rewrite <- app_assoc in Hall. by apply NoDup_app in Hall as (_ & _ & H).
    + rewrite ids_of_remembered, map_app, app_assoc. exact Hall.
    + rewrite Hn. rewrite Forall_app. split.
      * apply (Forall_sub _ _ _ Hold), Forall_app in Hlt' as [Hk _].
        apply Forall_fmap in Hk. eapply Forall_impl; [exact Hk|]. intros e He. simpl in He. lia.
      * apply Forall_fmap, Forall_app. split.
        -- apply (Forall_sub _ _ _ Hold), Forall_app in Hlt' as [_ Hk].
           apply Forall_fmap in Hk. eapply Forall_impl; [exact Hk|]. intros e He. simpl in *. lia.
        -- apply Forall_fmap in Hfresh. rewrite Forall_forall. intros f Hf. simpl.
           apply list_elem_of_lookup in Hf as [k Hk].
           assert (Hk' : map id fresh !! k = Some (id f)) by (by rewrite list_lookup_fmap, Hk).
           rewrite Hids, list_lookup_fmap in Hk'.
           destruct (seq 0 (length fresh) !! k) as [j|] eqn:Hj; [|discriminate].
           apply lookup_seq in Hj as [-> Hj]. simpl in Hk'. injection Hk' as <-. lia.
    + rewrite Hn. lia.
Qed.

(** X4.  Lives stay between 1 and [MAX_TRACKING_LIFE].  This holds for
    a fresh tracker, is kept by [focus] and by [detect]; after a
    [detect] every returned fingertip is in the memory with a full
    life, and the entries with a full life are exactly the returned
    fingertips. *)
Theorem tracking_lives_bounded :
  let bounded (t : tracker) :=
    Forall (fun e : Fingertip * Z => 1 <= e.2 <= MAX_TRACKING_LIFE) (m_TrackingMemory t) in
  bounded init
  /\ (forall t p width height, bounded t -> bounded (focus t p width height))
  /\ (forall t mask fs t',
        bounded t ->
        detect findContours convexHull arc_angle t mask = Some (fs, t') ->
        bounded t'
        /\ Forall (fun f => (f, MAX_TRACKING_LIFE) ∈ m_TrackingMemory t') fs
        /\ Forall (fun e : Fingertip * Z =>
                     e.2 = MAX_TRACKING_LIFE -> e.1 ∈ fs) (m_TrackingMemory t')).
Proof.
  cbv zeta. split; [|split].
  - constructor.
  - intros t p width height H. exact H.
  - intros t mask fs t' Hb Hd.
    apply detect_track in Hd as (cands & _ & Ht).
    destruct (track_spec (m_TrackingMemory t) cands (m_NextID t))
      as (memory1 & tracked & fresh & kept & Ht' & _ & _ & _ & _ & _ & Hpos & Hle).
    rewrite Ht in Ht'. injection Ht' as -> _ Hm. rewrite Hm.
    assert (Hk : Forall (fun e : Fingertip * Z => 1 <= e.2 <= MAX_TRACKING_LIFE - 1) kept).
    { specialize (Hle MAX_TRACKING_LIFE).
      apply Forall_and. split; [exact Hpos|]. apply Hle.
      eapply Forall_impl; [exact Hb|]. intros e He. simpl in He. lia. }
    split; [|split].
    + apply Forall_app. split.
      * eapply Forall_impl; [exact Hk|]. intros e He. simpl in He. lia.
      * apply Forall_fmap, Forall_forall. intros f _. simpl. unfold MAX_TRACKING_LIFE. lia.
    + apply Forall_forall. intros f Hf. apply elem_of_app. right.
      apply list_elem_of_fmap. by exists f.
    + apply Forall_app. split.
      * eapply Forall_impl; [exact Hk|]. intros e He E. simpl in He. lia.
      * apply Forall_fmap, Forall_forall. intros f Hf _. exact Hf.
Qed.


Lemma match_loop_no_candidates (n m : nat) (memory : list (Fingertip * Z)) :
  match_loop n m memory [] [] = (memory, [], []).
Proof.
  revert m. induction n as [|n IH]; intros m; simpl; [reflexivity|].
  destruct (memory !! m) as [[finger life]|]; [|reflexivity].
  unfold find_match. simpl. apply IH.
Qed.

Lemma track_no_candidates (memory : list (Fingertip * Z)) (next_id : Z) :
  track memory [] next_id = ([], next_id, age_loop (length memory) 0 memory).
Proof.
  unfold track. rewrite match_loop_no_candidates. simpl.
  unfold update_tracking_memory. simpl. by rewrite app_nil_r.
Qed.

(** X6.  A finger that is not seen again is forgotten.  Over frames in
    which no candidate is found, every [detect] takes one life from
    every remembered finger and creates no id; after
    [MAX_TRACKING_LIFE] such frames the memory is empty. *)
Theorem unseen_fingers_forgotten (masks : list Mask) (t t' : tracker) :
  Forall (fun e : Fingertip * Z => e.2 <= MAX_TRACKING_LIFE) (m_TrackingMemory t) ->
  Forall (fun mask => forall region,
            find_candidates findContours convexHull arc_angle region mask = Some []) masks ->
  detect_all findContours convexHull arc_angle masks t = Some t' ->
  Forall (fun e : Fingertip * Z => e.2 <= MAX_TRACKING_LIFE - Z.of_nat (length masks))
         (m_TrackingMemory t')
  /\ (masks <> [] -> Forall (fun e : Fingertip * Z => 1 <= e.2) (m_TrackingMemory t'))
  /\ m_NextID t' = m_NextID t
  /\ ((Z.to_nat MAX_TRACKING_LIFE <= length masks)%nat -> m_TrackingMemory t' = []).
Proof.
  intros Hb Hnone Hall.
  assert (Hmain :
    Forall (fun e : Fingertip * Z => e.2 <= MAX_TRACKING_LIFE - Z.of_nat (length masks))
           (m_TrackingMemory t')
    /\ (masks <> [] -> Forall (fun e : Fingertip * Z => 1 <= e.2) (m_TrackingMemory t'))
    /\ m_NextID t' = m_NextID t).
  { revert t Hb Hall. generalize MAX_TRACKING_LIFE as B.
    induction masks as [|mask rest IH]; intros B t Hb Hall.
    - simpl in Hall. injection Hall as <-. simpl. rewrite Z.sub_0_r. done.
    - apply Forall_cons_1 in Hnone as [Hm Hrest]. simpl in Hall.
      destruct (detect findContours convexHull arc_angle t mask) as [[fs t1]|] eqn:Hd;
        [|discriminate].
      cbn [mbind option_bind snd] in Hall.
      apply detect_track in Hd as (cands & Hc & Ht).
      rewrite Hm in Hc. injection Hc as <-. rewrite track_no_candidates in Ht.
      injection Ht as _ Hn Hmem.
      destruct (age_loop_spec (length (m_TrackingMemory t)) [] (m_TrackingMemory t) ltac:(lia))
        as (kept & Hk & _ & Hpos & Hle).
      simpl in Hk. rewrite Hk in Hmem. specialize (Hle B Hb). rewrite Hmem in Hle, Hpos.
      destruct (IH Hrest (B - 1) t1 Hle Hall) as (H1 & H2 & H3).
      split; [|split].
      + eapply Forall_impl; [exact H1|]. intros e He. simpl in *. lia.
      + intros _. destruct rest as [|m2 rest']; [|apply H2; done].
        simpl in Hall. injection Hall as <-. exact Hpos.
      + congruence. }
  destruct Hmain as (H1 & H2 & H3).
  split; [exact H1|]. split; [exact H2|]. split; [exact H3|].
  intros Hlen.
  assert (Hne : masks <> []) by (intros ->; simpl in Hlen; unfold MAX_TRACKING_LIFE in Hlen; lia).
  specialize (H2 Hne).
  destruct (m_TrackingMemory t') as [|e mem]; [reflexivity|].
  apply Forall_cons_1 in H1 as [H1 _]. apply Forall_cons_1 in H2 as [H2 _].
  unfold MAX_TRACKING_LIFE in *. lia.
Qed.

End TrackingMemory.


Lemma unseen_fingers_forgotten_witness :
  let f := FingerTracker.mkFingertip (mkPoint 570 110) (mkPoint 581 110) 4 0 in
  let t := FingerTracker.mkTracker (mkRect 0 0 640 480) 0 1
             [(f, FingerTracker.MAX_TRACKING_LIFE)] in
  exists t',
    FingerTracker.detect_all (fun _ _ => []) (fun _ => []) Angle.arc_angle
      (replicate 10 Samples.blank) t = Some t'
    /\ FingerTracker.m_TrackingMemory t' = [].
Proof.
  intros f t. eexists. split; [vm_compute; reflexivity|].
  refine (proj2 (proj2 (proj2
            (unseen_fingers_forgotten (fun _ _ => []) (fun _ => []) Angle.arc_angle
               (replicate 10 Samples.blank) t _ _ _ _))) _).
  - repeat constructor. vm_compute. discriminate.
  - apply Forall_forall. intros mask _ region. reflexivity.
  - vm_compute. reflexivity.
  - vm_compute. lia.
Defined.

(** ** The first finger *)

Section FirstFinger.
Import FingerTracker Touch.
Variable findContours : Mask -> Rect -> list Contour.
Variable convexHull : Contour -> list Z.
Variable arc_angle : Point -> Point -> f32.


End FirstFinger.


(** ** The envelope of the arc test *)

Section ArcEnvelope.
Import FingerTracker.
Variable arc_angle : Point -> Point -> f32.
Variable region : Rect.
Variable contour : Contour.

(** A number cannot be at once no smaller than [lo] and no larger than
    a [hi] below [lo]. *)
Lemma ltb_gap (a lo hi : spec_float) :
  a <> S754_nan -> SFltb hi lo = true -> SFltb a lo || SFltb hi a = true.
Proof.
  intros Ha. unfold SFltb, SFcompare.
  destruct a as [sa|sa| |sa ma ea]; [| | congruence |];
    destruct lo as [sl|sl| |sl ml el]; destruct hi as [sh|sh| |sh mh eh];
    try discriminate; try reflexivity;
    repeat match goal with s : bool |- _ => destruct s end;
    try discriminate; try reflexivity;
    repeat match goal with
           | |- context [Z.compare ?x ?y] => destruct (Z.compare_spec x y)
           | |- context [Pos.compare_cont Eq ?x ?y] =>
               change (Pos.compare_cont Eq x y) with (Pos.compare x y);
               destruct (Pos.compare_spec x y)
           end;
    cbn; try discriminate; try reflexivity; intros; try lia.
Qed.

(** From step 255 on the upper envelope lies below the lower one. *)
Lemma envelope_closed (i : Z) :
  255 <= i <= 453 -> SFltb (arc_char_max i) (arc_char_min i) = true.
Proof.
  intros Hi.
  assert (H : forallb (fun k => SFltb (arc_char_max (255 + Z.of_nat k))
                                      (arc_char_min (255 + Z.of_nat k)))
                      (seq 0 199) = true) by (vm_compute; reflexivity).
  rewrite forallb_forall in H. specialize (H (Z.to_nat (i - 255))).
  rewrite Z2Nat.id in H by lia. replace (255 + (i - 255)) with i in H by lia.
  apply H. apply in_seq. lia.
Qed.

Lemma arc_walk_bound (index : Z) (ref : Point) (n : nat) (i score s : Z) :
  (forall v u, arc_angle v u <> S754_nan) ->
  4 <= i -> i + Z.of_nat n <= 454 ->
  arc_walk arc_angle region contour index ref n i score = Some s ->
  score <= s <= score + Z.max 0 (255 - i).
Proof.
  intros Hnan. revert i score. induction n as [|n IH]; intros i score Hi Hn; simpl.
  - intros [= <-]. lia.
  - destruct (at_ contour (wrap64 (index - i + size contour) mod size contour)) as [prev|];
      [|discriminate].
    destruct (at_ contour (wrap64 (index + i) mod size contour)) as [next|]; [|discriminate].
    cbn [mbind option_bind].
    destruct (edge_test region prev || edge_test region next); [intros [= <-]; lia|].
    destruct (SFltb _ _ || SFltb _ _) eqn:E; [intros [= <-]; lia|].
    destruct (Z_lt_le_dec i 255) as [Hlt|Hge].
    + intros H. apply IH in H; lia.
    + rewrite (ltb_gap _ _ _ (Hnan _ _) (envelope_closed i ltac:(lia))) in E. discriminate.
Qed.

(** X7.  The arc score is at most 251, not [ARC_TEST_LENGTH].  From
    step 255 on [arc_char_max] lies below [arc_char_min], so no angle
    passes the test and the walk stops at step 254 at the latest; a
    point on the edge of the region scores 0.  The angle is any number
    (not NaN), as [fmod] of an [atan2] of integers is. *)
Theorem arc_score_at_most_251 (index s : Z) :
  (forall v u, arc_angle v u <> S754_nan) ->
  arc_score arc_angle region contour index = Some s ->
  0 <= s <= 251
  /\ (forall ref, at_ contour index = Some ref -> edge_test region ref = true -> s = 0).
Proof.
  intros Hnan. unfold arc_score.
  destruct (at_ contour index) as [ref|]; [|discriminate]. cbn [mbind option_bind].
  destruct (edge_test region ref) eqn:E.
  - intros [= <-]. split; [lia | reflexivity].
  - intros H. apply arc_walk_bound in H; [|exact Hnan|lia|unfold ARC_TEST_LENGTH; lia].
    split; [lia|]. intros r [= <-] E'. congruence.
Qed.

End ArcEnvelope.

Lemma arc_score_at_most_251_witness :
  FingerTracker.arc_score Samples.angle_or_zero (full_frame Samples.blank) Samples.round_blob 103
  = Some 55 /\ 0 <= 55 <= 251.
Proof.
  split; [vm_compute; reflexivity|].
  apply (arc_score_at_most_251 Samples.angle_or_zero (full_frame Samples.blank) Samples.round_blob
           103 55).
  - intros v u. unfold Samples.angle_or_zero. destruct (Angle.arc_angle v u); discriminate.
  - vm_compute. reflexivity.
Defined.

(** ** The loop over the hull: breaks and traversal *)

Section HullTraversal.
Import FingerTracker HullWalk.
Variable convexHull : Contour -> list Z.
Variable arc_angle : Point -> Point -> f32.
Variable region : Rect.
Variable contour : Contour.

Lemma cluster_step_count (index : Z) (st st' : cluster_state) :
  cluster_step arc_angle region contour index st = Some st' ->
  last st' = index
  /\ exists a b, at_ contour (last st) = Some a /\ at_ contour index = Some b
     /\ ((NONMAX_PROXIMIITY <? pdot (psub b a) (psub b a)) = false ->
         m_Candidates st' = m_Candidates st)
     /\ (length (m_Candidates st') <= length (m_Candidates st) + 1)%nat
     /\ (exists more, m_Candidates st' = m_Candidates st ++ more).
Proof.
  unfold cluster_step.
  destruct (arc_score arc_angle region contour index) as [score|]; [|discriminate].
  cbn [mbind option_bind].
  destruct (at_ contour index) as [ci|]; cbn [mbind option_bind]; [|discriminate].
  destruct (at_ contour (last st)) as [cl|]; cbn [mbind option_bind]; [|discriminate].
  destruct (NONMAX_PROXIMIITY <? pdot (psub ci cl) (psub ci cl)) eqn:Ejump.
  - destruct (best st =? -1).
    + cbn [mbind option_bind best_score m_Candidates last].
      destruct (ARC_MIN_SCORE <? score); intros [= <-]; cbn [last m_Candidates];
        (split; [reflexivity|]); exists cl, ci;
        (split; [reflexivity|]); (split; [reflexivity|]);
        (split; [intros E'; rewrite Ejump in E'; discriminate|]);
        (split; [lia|]); exists []; by rewrite app_nil_r.
    + destruct (at_ contour (best st)) as [tip|]; cbn [mbind option_bind]; [|discriminate].
      destruct (centre_of_mass contour (best st)) as [c|]; cbn [mbind option_bind]; [|discriminate].
      cbn [mbind option_bind best_score m_Candidates last].
      destruct (ARC_MIN_SCORE <? score); intros [= <-]; cbn [last m_Candidates];
        (split; [reflexivity|]); exists cl, ci;
        (split; [reflexivity|]); (split; [reflexivity|]);
        (split; [intros E'; rewrite Ejump in E'; discriminate|]);
        (split; [rewrite length_app; simpl; lia|]); by eexists.
  - cbn [mbind option_bind best_score m_Candidates last].
    destruct (best_score st <? score); intros [= <-]; cbn [last m_Candidates];
      (split; [reflexivity|]); exists cl, ci;
      (split; [reflexivity|]); (split; [reflexivity|]); (split; [intros _; reflexivity|]);
      (split; [lia|]); exists []; by rewrite app_nil_r.
Qed.

(** X25.  Candidates come from breaks only.  Over the hull points
    visited, the loop adds at most one candidate for every point that
    lies farther than the clustering distance from the point visited
    before it, and it never removes or changes a candidate already
    emitted. *)
Theorem candidates_only_at_breaks (order : list Z) (st st' : cluster_state) :
  cluster_loop arc_angle region contour (map Some order) st = Some st' ->
  (length (m_Candidates st')
   <= length (m_Candidates st) + breaks contour (last st) order)%nat
  /\ exists more, m_Candidates st' = m_Candidates st ++ more.
Proof.
  revert st. induction order as [|i rest IH]; intros st; simpl.
  - intros [= <-]. split; [lia|]. exists []. by rewrite app_nil_r.
  - destruct (cluster_step arc_angle region contour i st) as [st1|] eqn:Hstep; [|discriminate].
    cbn [mbind option_bind]. intros Hloop.
    apply cluster_step_count in Hstep as (Hlast & a & b & Ha & Hb & Hquiet & Hlen & more1 & Hm1).
    apply IH in Hloop as (Hlen' & more2 & Hm2).
    rewrite Ha, Hb. rewrite Hlast in Hlen'. split.
    + destruct (NONMAX_PROXIMIITY <? pdot (psub b a) (psub b a)) eqn:E.
      * lia.
      * rewrite (Hquiet eq_refl) in Hlen'. lia.
    + exists (more1 ++ more2). by rewrite Hm2, Hm1, app_assoc.
Qed.

Lemma find_offset_spec (hull : list Z) (start offset : Z) :
  find_offset region contour hull start = Some offset ->
  exists k, offset = start + Z.of_nat k /\ (k <= length hull)%nat
    /\ (forall j h p, (j < k)%nat -> hull !! j = Some h -> at_ contour h = Some p ->
          edge_test region p = false)
    /\ (forall h, hull !! k = Some h ->
          exists p, at_ contour h = Some p /\ edge_test region p = true).
Proof.
  revert start. induction hull as [|h0 hull IH]; intros start; simpl.
  - intros [= <-]. exists 0%nat. split; [lia|]. split; [lia|]. split; [intros; lia | intros ? [=]].
  - destruct (at_ contour h0) as [p0|] eqn:Hp0; [|discriminate]. cbn [mbind option_bind].
    destruct (edge_test region p0) eqn:Ee.
    + intros [= <-]. exists 0%nat. split; [lia|]. split; [lia|]. split; [intros; lia|].
      intros h [= <-]. by exists p0.
    + intros H. apply IH in H as (k & -> & Hk & Hbefore & Hat).
      exists (S k). split; [lia|]. split; [simpl; lia|]. split.
      * intros j h p Hj Hh Hp. destruct j as [|j]; simpl in Hh.
        -- injection Hh as <-. congruence.
        -- apply (Hbefore j h p); [lia | exact Hh | exact Hp].
      * exact Hat.
Qed.

(** X26.  The traversal of the hull.  [offset] is the position of the
    first hull point on the edge of the region, or the size of the
    hull when there is none; the loop then visits the hull rotated by
    [offset], that is every hull point exactly once. *)
Theorem hull_traversal (hull : list Z) (offset : Z) :
  find_offset region contour hull 0 = Some offset ->
  (0 <= offset <= Z.of_nat (length hull))
  /\ (forall j h p, (j < Z.to_nat offset)%nat -> hull !! j = Some h ->
        at_ contour h = Some p -> edge_test region p = false)
  /\ (forall h, hull !! Z.to_nat offset = Some h ->
        exists p, at_ contour h = Some p /\ edge_test region p = true)
  /\ visit_order hull offset = map Some (rotate (Z.to_nat offset) hull)
  /\ rotate (Z.to_nat offset) hull ≡ₚ hull.
Proof.
  intros H. apply find_offset_spec in H as (k & -> & Hk & Hbefore & Hat).
  rewrite Z.add_0_l, Nat2Z.id.
  split; [lia|]. split; [exact Hbefore|]. split; [exact Hat|]. split.
  - unfold visit_order. apply list_eq. intros i.
    rewrite !list_lookup_fmap.
    destruct (decide (i < length hull)%nat) as [Hi|Hi].
    + rewrite lookup_seq_lt by exact Hi. rewrite lookup_rotate_r by exact Hi.
      cbn [fmap option_fmap option_map]. unfold rotate_nat_add. rewrite Nat.add_0_l.
      set (idx := Z.to_nat ((Z.of_nat k + Z.of_nat i) mod Z.of_nat (length hull))).
      destruct (hull !! idx) as [h|] eqn:E; [reflexivity|]. exfalso.
      apply lookup_ge_None in E. unfold idx in E.
      pose proof (Z.mod_pos_bound (Z.of_nat k + Z.of_nat i) (Z.of_nat (length hull)) ltac:(lia)).
      lia.
    + rewrite lookup_seq_ge by lia.
      rewrite (proj2 (lookup_ge_None _ _)) by (rewrite length_rotate; lia). reflexivity.
  - unfold rotate. by rewrite Permutation_app_comm, take_drop.
Qed.
End HullTraversal.


Lemma candidates_only_at_breaks_witness :
  let region := full_frame Samples.blank in
  let st := FingerTracker.mkCluster 0 (-1) FingerTracker.ARC_MIN_SCORE [] in
  exists st',
    FingerTracker.cluster_loop Angle.arc_angle region Samples.arm
      (map Some Samples.arm_hull) st = Some st'
    /\ HullWalk.breaks Samples.arm 0 Samples.arm_hull = 3%nat
    /\ (length (FingerTracker.m_Candidates st') <= 0 + 3)%nat.
Proof.
  intros region st. eexists. split; [vm_compute; reflexivity|].
  split; [vm_compute; reflexivity|].
  refine (proj1 (candidates_only_at_breaks Angle.arc_angle region Samples.arm
                   Samples.arm_hull st _ _)).
  vm_compute. reflexivity.
Defined.

Lemma hull_traversal_witness :
  FingerTracker.find_offset (full_frame Samples.blank) Samples.round_blob
    Samples.round_blob_hull 0 = Some 13
  /\ FingerTracker.visit_order Samples.round_blob_hull 13
     = map Some (rotate 13 Samples.round_blob_hull).
Proof.
  assert (H : FingerTracker.find_offset (full_frame Samples.blank) Samples.round_blob
                Samples.round_blob_hull 0 = Some 13) by (vm_compute; reflexivity).
  split; [exact H|].
  destruct (hull_traversal (full_frame Samples.blank) Samples.round_blob
              Samples.round_blob_hull 13 H) as (_ & _ & _ & Hv & _).
  exact Hv.
Defined.

(** ** The mouse buttons *)

Section MouseButtons.
Import Mouse.

Local Abbreviation held_of b := (m_LeftClickDown b, m_RightClickDown b).

Lemma perform_tracks (c : call) (b : buttons) :
  held_of (perform c b).1 = foldl press (held_of b) (perform c b).2
  /\ releases_held (held_of b) (perform c b).2 = true.
Proof. destruct c, b as [[] []]; split; reflexivity. Qed.

Lemma releases_held_app (held : bool * bool) (s1 s2 : list input) :
  releases_held held (s1 ++ s2)
  = releases_held held s1 && releases_held (foldl press held s1) s2.
Proof.
  revert held. induction s1 as [|i s1 IH]; intros held; simpl; [reflexivity|].
  rewrite IH. by rewrite andb_assoc.
Qed.

Lemma perform_all_tracks (calls : list call) (b : buttons) :
  held_of (perform_all calls b).1 = foldl press (held_of b) (perform_all calls b).2
  /\ releases_held (held_of b) (perform_all calls b).2 = true.
Proof.
  revert b. induction calls as [|c calls IH]; intros b; simpl; [done|].
  destruct (perform_tracks c b) as [H1 H2].
  destruct (perform c b) as [b1 sent1]. simpl in H1, H2.
  destruct (IH b1) as [H3 H4].
  destruct (perform_all calls b1) as [b2 sent2]. simpl in *.
  rewrite foldl_app, releases_held_app, <- H1, H2, H4. done.
Qed.

(** X9.  The two flags follow the buttons.  After any sequence of
    [hold_left], [hold_right] and [release_hold] on a fresh [Mouse],
    the flags say which buttons the inputs sent have left down, no
    release was sent for a button that was not down, and one more
    [release_hold] leaves both up, a second one sending nothing. *)
Theorem mouse_flags_track_buttons (calls : list call) :
  let '(b, sent) := perform_all calls released in
  (m_LeftClickDown b, m_RightClickDown b) = foldl press (false, false) sent
  /\ releases_held (false, false) sent = true
  /\ (release_hold b).1 = released
  /\ (release_hold (release_hold b).1).2 = [].
Proof.
  destruct (perform_all_tracks calls released) as [H1 H2].
  destruct (perform_all calls released) as [b sent]. simpl in H1, H2.
  split; [exact H1|]. split; [exact H2|]. split; reflexivity.
Qed.

End MouseButtons.

(** ** The processing loop *)

Section MainLoop.
Import FingerTracker Touch Mouse Main.
Variable findContours : Mask -> Rect -> list Contour.
Variable convexHull : Contour -> list Z.
Variable arc_angle : Point -> Point -> f32.
Context {Cursor : Type}.
Variable move : Cursor -> Point -> bool -> Cursor.

Local Abbreviation turn := (Main.turn findContours convexHull arc_angle move).
Local Abbreviation turns := (Main.turns findContours convexHull arc_angle move).

(** What one turn does to the mouse. *)
Lemma turn_mouse (s s1 : state) (fg sh : Mask) (a : option (Point * bool)) :
  turn s fg sh = Some (s1, a) ->
  match a with
  | Some (_, true) =>
      mouse s1 = mkButtons true (m_RightClickDown (mouse s))
      /\ sent s1 = sent s ++ [MOUSEEVENTF_LEFTDOWN]
  | Some (_, false) => mouse s1 = mouse s /\ sent s1 = sent s
  | None => mouse s1 = released /\ sent s1 = sent s ++ (release_hold (mouse s)).2
  end.
Proof.
  unfold Main.turn.
  destruct (detect _ _ _ _ fg) as [[fingertips tracker1]|]; [|discriminate].
  cbn [mbind option_bind].
  destruct (find_touch_action _ _ _ _) as [|[[point [|]]|] last]; [discriminate| | |].
  - intros [= <- <-]. split; reflexivity.
  - intros [= <- <-]. cbn. rewrite app_nil_r. split; reflexivity.
  - intros [= <- <-]. split; reflexivity.
Qed.

Local Abbreviation touches actions :=
  (filter (fun a : option (Point * bool) => is_touch a = true) actions).

(** X10.  The buttons over a run of the loop.  A turn with a touch
    sends one left press, a turn with a hover sends nothing, a turn
    without action releases: the left button is down after the run
    exactly as [left_after] says (a hover that follows a touch keeps
    it down), the right button is never pressed, one left press is
    sent per touch, and no release is sent for a button that is up. *)
Theorem loop_buttons (c : Cursor) (frames : list (Mask * Mask)) (s : state)
        (actions : list (option (Point * bool))) :
  turns (start c) frames = Some (s, actions) ->
  length actions = length frames
  /\ m_LeftClickDown (mouse s) = left_after false actions
  /\ m_RightClickDown (mouse s) = false
  /\ Forall (fun i => i = MOUSEEVENTF_LEFTDOWN \/ i = MOUSEEVENTF_LEFTUP) (sent s)
  /\ length (filter (fun i => i = MOUSEEVENTF_LEFTDOWN) (sent s)) = length (touches actions)
  /\ releases_held (false, false) (sent s) = true.
Proof.
  assert (Hgen : forall frames s0 s actions,
    turns s0 frames = Some (s, actions) ->
    m_RightClickDown (mouse s0) = false ->
    length actions = length frames
    /\ m_LeftClickDown (mouse s) = left_after (m_LeftClickDown (mouse s0)) actions
    /\ m_RightClickDown (mouse s) = false
    /\ exists more, sent s = sent s0 ++ more
       /\ Forall (fun i => i = MOUSEEVENTF_LEFTDOWN \/ i = MOUSEEVENTF_LEFTUP) more
       /\ length (filter (fun i => i = MOUSEEVENTF_LEFTDOWN) more) = length (touches actions)
       /\ releases_held (m_LeftClickDown (mouse s0), false) more = true).
  { clear. induction frames as [|[fg sh] rest IH]; intros s0 s actions; simpl.
    - intros [= <- <-] Hr. split; [reflexivity|]. split; [reflexivity|]. split; [exact Hr|].
      exists []. rewrite app_nil_r. done.
    - destruct (turn s0 fg sh) as [[s1 a]|] eqn:Ht; [|discriminate].
      cbn [mbind option_bind].
      destruct (turns s1 rest) as [[s2 acts]|] eqn:Hts; [|discriminate].
      cbn [mbind option_bind]. intros [= <- <-] Hr.
      apply turn_mouse in Ht.
      assert (Hr1 : m_RightClickDown (mouse s1) = false).
      { destruct a as [[p [|]]|]; destruct Ht as [Hm _]; rewrite Hm; [exact Hr | exact Hr | reflexivity]. }
      destruct (IH s1 s2 acts Hts Hr1) as (Hlen & Hleft & Hright & more & Hsent & Hall & Hcount & Hrel).
      split; [simpl; lia|]. split; [|split; [exact Hright|]].
      + rewrite Hleft. unfold left_after. cbn [foldl]. f_equal.
        destruct a as [[p [|]]|]; destruct Ht as [Hm _]; rewrite Hm; cbn;
          [by rewrite orb_true_r | by rewrite orb_false_r | reflexivity].
      + destruct a as [[p [|]]|]; destruct Ht as [Hm Hs].
        * exists (MOUSEEVENTF_LEFTDOWN :: more). rewrite Hsent, Hs, <- app_assoc.
          split; [reflexivity|]. split; [constructor; [by left | exact Hall]|].
          rewrite Hm in Hrel. cbn [m_LeftClickDown] in Hrel.
          split; [|cbn; exact Hrel].
          rewrite filter_cons_True by reflexivity.
          rewrite (filter_cons_True _ (Some (p, true))) by reflexivity.
          simpl. by rewrite Hcount.
        * exists more. rewrite Hsent, Hs. split; [reflexivity|]. split; [exact Hall|].
          rewrite Hm in Hrel. split; [|exact Hrel].
          rewrite filter_cons_False by discriminate. exact Hcount.
        * rewrite Hm in Hrel. cbn [released m_LeftClickDown] in Hrel.
          unfold release_hold in Hs. rewrite Hr in Hs. cbn [snd] in Hs. rewrite app_nil_r in Hs.
          rewrite filter_cons_False by discriminate.
          destruct (m_LeftClickDown (mouse s0)) eqn:El.
          -- exists (MOUSEEVENTF_LEFTUP :: more). rewrite Hsent, Hs, <- app_assoc.
             split; [reflexivity|]. split; [constructor; [by right | exact Hall]|].
             split; [|cbn; exact Hrel].
             rewrite filter_cons_False by discriminate. exact Hcount.
          -- exists more. rewrite Hsent, Hs, app_nil_r. done. }
  intros H. destruct (Hgen frames (start c) s actions H eq_refl)
    as (Hlen & Hleft & Hright & more & Hsent & Hall & Hcount & Hrel).
  cbn [start sent app] in Hsent. subst more. done.
Qed.

(** X11.  The focus follows the action.  After a turn that acted on a
    point of the view, the tracking region holds exactly the pixels of
    the square of side 256 around that point that lie in the view and
    not on its last column or row; it lies inside a frame of
    640 x 480, and it holds the point itself unless the point is on
    the last column or row.  The countdown is re-armed, so the next
    [detect] works in that region, whatever the countdown was. *)
Theorem focus_follows_action (s s1 : state) (fg sh : Mask) (p : Point) (touch : bool) :
  turn s fg sh = Some (s1, Some (p, touch)) ->
  0 <= px p < CALIB_OUTPUT_WIDTH -> 0 <= py p < CALIB_OUTPUT_HEIGHT ->
  let region := m_TrackingRegion (finger_tracker s1) in
  (forall q, rect_contains region q
             <-> (px p - 128 <= px q < px p + 128 /\ py p - 128 <= py q < py p + 128)
                 /\ 0 <= px q < CALIB_OUTPUT_WIDTH - 1
                 /\ 0 <= py q < CALIB_OUTPUT_HEIGHT - 1)
  /\ (rect_contains region p
      <-> px p < CALIB_OUTPUT_WIDTH - 1 /\ py p < CALIB_OUTPUT_HEIGHT - 1)
  /\ (forall mask, cols mask = CALIB_OUTPUT_WIDTH -> rows mask = CALIB_OUTPUT_HEIGHT ->
        rect_inside region mask = true)
  /\ m_TrackingResetTimer (finger_tracker s1) = FOCUS_RESET_TIME
  /\ forall mask, update_region (finger_tracker s1) mask = (FOCUS_RESET_TIME - 1, region).
Proof.
  intros Ht Hx Hy region.
  assert (Hs1 : exists t, finger_tracker s1 = focus t p 256 256).
  { revert Ht. unfold Main.turn.
    destruct (detect _ _ _ _ fg) as [[fingertips tracker1]|]; [|discriminate].
    cbn [mbind option_bind].
    destruct (find_touch_action _ _ _ _) as [|[[point [|]]|] last]; try discriminate;
      intros [= <- <- <-]; by exists tracker1. }
  destruct Hs1 as [t Hs1]. subst region. rewrite Hs1.
  assert (Hpix : forall q,
            rect_contains (m_TrackingRegion (focus t p 256 256)) q
            <-> (px p - 128 <= px q < px p + 128 /\ py p - 128 <= py q < py p + 128)
                /\ 0 <= px q < CALIB_OUTPUT_WIDTH - 1
                /\ 0 <= py q < CALIB_OUTPUT_HEIGHT - 1).
  { intros q. unfold rect_contains, focus, rect_of_points; simpl.
    change (256 ÷ 2) with 128.
    unfold CALIB_OUTPUT_WIDTH, CALIB_OUTPUT_HEIGHT in *. lia. }
  split; [exact Hpix|]. split; [|split; [|split]].
  - rewrite Hpix. lia.
  - intros mask Hc Hr. unfold rect_inside, focus, rect_of_points; simpl.
    change (256 ÷ 2) with 128. rewrite Hc, Hr.
    unfold CALIB_OUTPUT_WIDTH, CALIB_OUTPUT_HEIGHT in *.
    repeat (apply andb_true_iff; split); apply Z.leb_le; lia.
  - reflexivity.
  - intros mask. reflexivity.
Qed.

End MainLoop.


Lemma loop_buttons_witness :
  let frames := [(Samples.arm_mask, Samples.blank); (Samples.blank, Samples.blank);
                 (Samples.blank, Samples.blank)] in
  exists s actions,
    Main.turns Samples.see_arm (fun _ => Samples.arm_hull) Angle.arc_angle
      (fun (c : unit) _ _ => c) (Main.start tt) frames
    = Some (s, actions)
    /\ actions = [Some (mkPoint 570 110, true); None; None]
    /\ Main.sent s = [Mouse.MOUSEEVENTF_LEFTDOWN; Mouse.MOUSEEVENTF_LEFTUP]
    /\ Mouse.m_LeftClickDown (Main.mouse s) = Main.left_after false actions
    /\ Mouse.m_RightClickDown (Main.mouse s) = false.
Proof.
  intros frames. eexists _, _. split; [vm_compute; reflexivity|].
  split; [reflexivity|]. split; [reflexivity|].
  refine (let H := loop_buttons Samples.see_arm (fun _ => Samples.arm_hull)
                     Angle.arc_angle (fun (c : unit) _ _ => c) tt frames _ _ _
          in conj (proj1 (proj2 H)) (proj1 (proj2 (proj2 H)))).
  vm_compute. reflexivity.
Defined.

Lemma focus_follows_action_witness :
  exists s1,
    Main.turn Samples.see_arm (fun _ => Samples.arm_hull) Angle.arc_angle
      (fun (c : unit) _ _ => c) (Main.start tt) Samples.arm_mask Samples.blank
    = Some (s1, Some (mkPoint 570 110, true))
    /\ FingerTracker.m_TrackingRegion (Main.finger_tracker s1) = mkRect 442 0 197 238
    /\ rect_inside (FingerTracker.m_TrackingRegion (Main.finger_tracker s1)) Samples.blank
       = true.
Proof.
  eexists. split; [vm_compute; reflexivity|]. split; [reflexivity|].
  refine (proj1 (proj2 (proj2
            (focus_follows_action Samples.see_arm (fun _ => Samples.arm_hull)
               Angle.arc_angle (fun (c : unit) _ _ => c) (Main.start tt) _ Samples.arm_mask
               Samples.blank (mkPoint 570 110) true _ _ _))) Samples.blank eq_refl eq_refl).
  - vm_compute. reflexivity.
  - vm_compute. split; [discriminate | reflexivity].
  - vm_compute. split; [discriminate | reflexivity].
Defined.

(** ** The chessboard pattern *)

Section Chessboard.
Import Utility.

Lemma lookup_join_replicate {A : Type} (l : list A) (n i : nat) :
  (i < n * length l)%nat -> mjoin (replicate n l) !! i = l !! (i mod length l)%nat.
Proof.
  revert i. induction n as [|n IH]; intros i Hi; [simpl in Hi; lia|].
  assert (Hl : length l <> 0%nat) by (intros E; rewrite E in Hi; lia).
  change (mjoin (replicate (S n) l)) with (l ++ mjoin (replicate n l)).
  destruct (decide (i < length l)%nat) as [Hlt|Hge].
  - rewrite lookup_app_l by exact Hlt. by rewrite Nat.mod_small.
  - rewrite lookup_app_r by lia. rewrite IH by lia. f_equal.
    replace i with ((i - length l) + 1 * length l)%nat at 2 by lia.
    by rewrite Nat.Div0.mod_add.
Qed.

Lemma length_join_replicate {A : Type} (l : list A) (n : nat) :
  length (mjoin (replicate n l)) = (n * length l)%nat.
Proof.
  induction n as [|n IH]; [reflexivity|].
  change (mjoin (replicate (S n) l)) with (l ++ mjoin (replicate n l)).
  rewrite length_app, IH. lia.
Qed.

(** X12.  [make_chessboard] returns an image exactly for the even
    sizes of at least 2 x 2; the image has [height] rows of [width]
    pixels, and pixel [(r, c)] is [colour_1] when [r + c] is even and
    [colour_2] when it is odd. *)
Theorem make_chessboard_cells {A : Type} (width height : Z) (colour_1 colour_2 : A) :
  (is_Some (make_chessboard width height colour_1 colour_2)
   <-> Z.even width = true /\ Z.even height = true /\ 2 <= width /\ 2 <= height)
  /\ forall image, make_chessboard width height colour_1 colour_2 = Some image ->
       Z.of_nat (length image) = height
       /\ Forall (fun row => Z.of_nat (length row) = width) image
       /\ forall r c, 0 <= r < height -> 0 <= c < width ->
            image !! Z.to_nat r ≫= (fun row => row !! Z.to_nat c)
            = Some (if Z.even (r + c) then colour_1 else colour_2).
Proof.
  unfold make_chessboard, repeat.
  assert (Hrem : forall n, (Z.rem n 2 =? 0) = Z.even n).
  { intros n. destruct (Z.eqb_spec (Z.rem n 2) 0) as [E|E]; symmetry.
    - apply Z.even_spec. apply Z.rem_divide in E as [k Hk]; [|lia]. exists k. lia.
    - destruct (Z.even n) eqn:Ev; [|reflexivity]. exfalso. apply E.
      apply Z.even_spec in Ev as [k Hk]. apply Z.rem_divide; [lia|]. exists k. lia. }
  rewrite !Hrem.
  destruct (Z.even width) eqn:Ew, (Z.even height) eqn:Eh; cbn [andb];
    try (split; [split; [intros [? [=]] | intros (? & ? & _); discriminate] | intros ? [=]]).
  destruct (Z.ltb_spec 1 width) as [Hw|Hw], (Z.ltb_spec 1 height) as [Hh|Hh]; cbn [andb];
    try (split; [split; [intros [? [=]] | intros (_ & _ & ? & ?); lia] | intros ? [=]]).
  assert (Hqw : width = 2 * (width ÷ 2)).
  { rewrite Z.quot_div_nonneg by lia. apply Zeven_bool_iff, Zeven_div2 in Ew.
    rewrite Z.div2_div in Ew. exact Ew. }
  assert (Hqh : height = 2 * (height ÷ 2)).
  { rewrite Z.quot_div_nonneg by lia. apply Zeven_bool_iff, Zeven_div2 in Eh.
    rewrite Z.div2_div in Eh. exact Eh. }
  destruct (Z.ltb_spec 0 (height ÷ 2)) as [Hh2|Hh2]; [|lia].
  destruct (Z.ltb_spec 0 (width ÷ 2)) as [Hw2|Hw2]; [|lia].
  cbn [andb]. split; [split; [intros _; repeat split; lia | intros _; by eexists]|].
  intros image [= <-].
  set (nx := Z.to_nat (width ÷ 2)). set (ny := Z.to_nat (height ÷ 2)).
  set (tile := fun row : list A => mjoin (replicate nx row)).
  cbn [map].
  split; [|split].
  - rewrite length_join_replicate. cbn [length]. lia.
  - apply Forall_forall. intros row Hrow.
    apply list_elem_of_lookup in Hrow as [i Hi].
    assert (Hlt : (i < ny * 2)%nat).
    { apply lookup_lt_Some in Hi. by rewrite length_join_replicate in Hi. }
    rewrite lookup_join_replicate in Hi by exact Hlt. cbn [length] in Hi.
    pose proof (Nat.mod_upper_bound i 2 ltac:(lia)) as Hm2.
    destruct (i mod 2)%nat as [|[|?]]; [| |lia];
      injection Hi as <-; unfold tile; rewrite length_join_replicate; cbn [length]; lia.
  - intros r c Hr Hc.
    rewrite lookup_join_replicate by (cbn [length]; lia). cbn [length].
    assert (Hrm : (Z.to_nat r mod 2)%nat = Z.to_nat (r mod 2)).
    { rewrite (Z2Nat.inj_mod r 2) by lia. reflexivity. }
    assert (Hcm : (Z.to_nat c mod 2)%nat = Z.to_nat (c mod 2)).
    { rewrite (Z2Nat.inj_mod c 2) by lia. reflexivity. }
    assert (Hev : Z.even (r + c) = ((r mod 2) =? (c mod 2))).
    { rewrite Zeven_mod, Z.add_mod by lia.
      destruct (Z.mod_pos_bound r 2 ltac:(lia)), (Z.mod_pos_bound c 2 ltac:(lia)).
      assert (Hcases : (r mod 2 = 0 \/ r mod 2 = 1) /\ (c mod 2 = 0 \/ c mod 2 = 1)) by lia.
      destruct Hcases as [[-> | ->] [-> | ->]]; reflexivity. }
    rewrite Hrm, Hev.
    destruct (Z.mod_pos_bound r 2 ltac:(lia)), (Z.mod_pos_bound c 2 ltac:(lia)).
    assert (Hcases : (r mod 2 = 0 \/ r mod 2 = 1) /\ (c mod 2 = 0 \/ c mod 2 = 1)) by lia.
    destruct Hcases as [[Er | Er] [Ec | Ec]]; rewrite Er;
      first [change (Z.to_nat 0) with 0%nat | change (Z.to_nat 1) with 1%nat];
      simpl; fold nx; rewrite lookup_join_replicate by (cbn [length]; lia); cbn [length];
      rewrite Hcm, Ec; reflexivity.
Qed.
End Chessboard.

(** ** The relative error test *)

Section ErrorWithin.
Import Utility.

Lemma binary_round_aux_sign (s : bool) (m e : Z) (l : location) :
  0 <= m ->
  let x := binary_round_aux F32.prec F32.emax s m e l in
  x = S754_zero s \/ x = S754_infinity s \/ exists m' e', x = S754_finite s m' e'.
Proof.
  intros Hm. cbv zeta. unfold binary_round_aux.
  pose proof (shr_fexp_nonneg m e l Hm) as H1.
  destruct (shr_fexp F32.prec F32.emax m e l) as [mrs' e'].
  simpl in H1.
  pose proof (shr_fexp_nonneg (round_nearest_even (shr_m mrs') (loc_of_shr_record mrs')) e' loc_Exact
                (round_nearest_even_nonneg _ _ H1)) as H2.
  destruct (shr_fexp F32.prec F32.emax _ e' loc_Exact) as [mrs'' e''].
  simpl in H2.
  destruct (shr_m mrs'') as [|p|p]; [by left | | lia].
  destruct (e'' <=? F32.emax - F32.prec); [right; right; by eexists _, _ | right; by left].
Qed.

Lemma binary_normalize_not_nan (m e : Z) :
  binary_normalize F32.prec F32.emax m e false <> S754_nan.
Proof.
  unfold binary_normalize, binary_round.
  destruct m as [|p|p]; [discriminate | |];
    destruct (shl_align _ _ _) as [mz ez]; apply binary_round_aux_not_nan; lia.
Qed.

Lemma sub_finite_not_nan (x y : f32) :
  F32.is_finite x = true -> F32.is_finite y = true -> F32.sub x y <> S754_nan.
Proof.
  destruct x as [sx|sx| |sx mx ex], y as [sy|sy| |sy my ey]; try discriminate; intros _ _;
    unfold F32.sub, SFsub;
    first [apply binary_normalize_not_nan | destruct sx, sy; discriminate | discriminate].
Qed.

Lemma div_core_nonneg (m1 m2 : positive) (e1 e2 : Z) :
  0 <= (SFdiv_core_binary F32.prec F32.emax (Zpos m1) e1 (Zpos m2) e2).1.1.
Proof.
  unfold SFdiv_core_binary.
  set (s := _ - _ - _).
  set (m' := match s with Z0 => _ | Zpos _ => _ | Zneg _ => _ end).
  assert (Hm' : 0 <= m').
  { unfold m'. destruct s; [lia | | lia]. apply Z.shiftl_nonneg. lia. }
  pose proof (Z_div_mod m' (Zpos m2) ltac:(lia)) as Hdm.
  destruct (Z.div_eucl m' (Zpos m2)) as [q r]. simpl. nia.
Qed.

(** X13.  [error_within] is a relative test for positive [actual]
    only.  With [actual = +0] it fails for every sample and every
    tolerance other than [+infinity]; with a negative [actual] it
    holds for every finite sample and every tolerance that is not
    negative, however far the sample is. *)
Theorem error_within_needs_positive_actual :
  (forall sample percentage_error,
      percentage_error <> S754_infinity false ->
      error_within (S754_zero false) sample percentage_error = false)
  /\ (forall m e sample percentage_error,
        F32.is_finite sample = true ->
        F32.leb F32.zero percentage_error = true ->
        error_within (S754_finite true m e) sample percentage_error = true).
Proof.
  split.
  - intros sample pct Hp. unfold error_within.
    destruct sample as [[]|[]| |s m e]; destruct pct as [[]|[]| |[] mp ep];
      try reflexivity; congruence.
  - intros m e sample pct Hs Hp. unfold error_within.
    pose proof (sub_finite_not_nan (S754_finite true m e) sample eq_refl Hs) as Hn.
    destruct (F32.sub (S754_finite true m e) sample) as [sd|sd| |sd md ed]; [| | congruence |].
    + destruct pct as [[]|[]| |[] mp ep]; try discriminate; reflexivity.
    + destruct pct as [[]|[]| |[] mp ep]; try discriminate; reflexivity.
    + cbn [SFabs]. unfold F32.div, SFdiv. cbn [xorb].
      pose proof (div_core_nonneg md m ed e) as Hq.
      destruct (SFdiv_core_binary F32.prec F32.emax (Z.pos md) ed (Z.pos m) e) as [[q e'] l].
      simpl in Hq.
      destruct (binary_round_aux_sign true q e' l Hq) as [-> | [-> | (m' & e'' & ->)]];
        destruct pct as [[]|[]| |[] mp ep]; try discriminate; reflexivity.
Qed.
End ErrorWithin.

(** ** The photometric patterns and their samples *)

Section PhotometricModel.
Import Common ViewCalibrator Photometric.

(** X14.  Node and index.  For a node of the 8x8x8 grid
    [xyz_to_3d_index] gives an index of the colour map, and the
    decomposition [find_photometric_model] applies to a map index
    gives the node back; conversely every index below 512 decomposes
    into a node of the grid whose index it is. *)
Theorem node_index_round_trip :
  (forall x y z, 0 <= x < CMAP_SIZE -> 0 <= y < CMAP_SIZE -> 0 <= z < CMAP_SIZE ->
     0 <= xyz_to_3d_index x y z CMAP_SIZE < 512
     /\ node_of_index (xyz_to_3d_index x y z CMAP_SIZE) = (x, y, z))
  /\ (forall i, 0 <= i < 512 ->
        let '(x, y, z) := node_of_index i in
        (0 <= x < CMAP_SIZE /\ 0 <= y < CMAP_SIZE /\ 0 <= z < CMAP_SIZE)
        /\ xyz_to_3d_index x y z CMAP_SIZE = i).
Proof.
  unfold node_of_index, xyz_to_3d_index, CMAP_SIZE. split.
  - intros x y z Hx Hy Hz. split; [lia|].
    rewrite !Z.quot_div_nonneg by lia.
    change (8 * 8) with 64.
    assert (H1 : ((z * 8 + y) * 8 + x) mod 8 = x).
    { symmetry. apply Z.mod_unique with (q := z * 8 + y); lia. }
    assert (H2 : ((z * 8 + y) * 8 + x) / 8 = z * 8 + y).
    { symmetry. apply Z.div_unique with (r := x); lia. }
    assert (H3 : (z * 8 + y) mod 8 = y).
    { symmetry. apply Z.mod_unique with (q := z); lia. }
    assert (H4 : ((z * 8 + y) * 8 + x) / 64 = z).
    { symmetry. apply Z.div_unique with (r := y * 8 + x); lia. }
    rewrite H2, H4. rewrite !Z.rem_mod_nonneg by lia. rewrite H1, H3. reflexivity.
  - intros i Hi.
    rewrite !Z.quot_div_nonneg by lia.
    rewrite !Z.rem_mod_nonneg by (try apply Z.div_pos; lia).
    change (8 * 8) with 64.
    pose proof (Z.div_mod i 8 ltac:(lia)) as D1.
    pose proof (Z.mod_pos_bound i 8 ltac:(lia)) as B1.
    pose proof (Z.div_mod (i / 8) 8 ltac:(lia)) as D2.
    pose proof (Z.mod_pos_bound (i / 8) 8 ltac:(lia)) as B2.
    assert (H64 : i / 64 = i / 8 / 8) by (rewrite Z.div_div by lia; reflexivity).
    rewrite H64. split; [|lia].
    split; [lia|]. split; [lia|]. split; [apply Z.div_pos; [apply Z.div_pos|]; lia|].
    apply Z.div_lt_upper_bound; [lia|]. apply Z.div_lt_upper_bound; lia.
Qed.

Lemma pattern_lookup (k i : Z) :
  0 <= i < 256 -> pattern k !! Z.to_nat i = Some (pattern_pixel k i).
Proof.
  intros Hi. unfold pattern, range. rewrite !list_lookup_fmap.
  rewrite lookup_seq_lt by (change (Z.to_nat 256) with 256%nat; lia).
  simpl. rewrite Z2Nat.id by lia. reflexivity.
Qed.

(** X15.  The colour map holds, at the index of a node, the colour
    measured on the pattern cell that displayed the colour of this
    node: [cell_of_slot] of the index is a cell [(r, c)] of pattern
    [k], pixel [r * 16 + c] of that pattern carries the three levels
    of the node, and the slot is filled with [measured k r c].  The
    eight levels are 0, 36, 73, 109, 146, 182, 219, 255. *)
Theorem colour_map_holds_node_samples (measured : Z -> Z -> Z -> Vec3f)
        (cm cm' : colour_map) (x y z : Z) :
  length cm = 512%nat ->
  fill_colour_map measured PATTERN_ROWS PATTERN_COLS cm = Some cm' ->
  0 <= x < CMAP_SIZE -> 0 <= y < CMAP_SIZE -> 0 <= z < CMAP_SIZE ->
  let '(k, r, c) := cell_of_slot (xyz_to_3d_index x y z CMAP_SIZE) in
  (0 <= k < 2 /\ 0 <= r < PATTERN_ROWS /\ 0 <= c < PATTERN_COLS)
  /\ pattern k !! Z.to_nat (r * PATTERN_COLS + c) = Some (level x, level y, level z)
  /\ cmap_at cm' (xyz_to_3d_index x y z CMAP_SIZE) = Some (measured k r c)
  /\ map level (range CMAP_SIZE) = [0; 36; 73; 109; 146; 182; 219; 255].
Proof.
  intros Hlen Hfill Hx Hy Hz.
  destruct (proj1 node_index_round_trip x y z Hx Hy Hz) as [Hj Hnode].
  set (j := xyz_to_3d_index x y z CMAP_SIZE) in *.
  unfold cell_of_slot, PATTERN_ROWS, PATTERN_COLS.
  pose proof (Z.div_mod j 256 ltac:(lia)) as D1.
  pose proof (Z.mod_pos_bound j 256 ltac:(lia)) as B1.
  pose proof (Z.div_mod (j mod 256) 16 ltac:(lia)) as D2.
  pose proof (Z.mod_pos_bound (j mod 256) 16 ltac:(lia)) as B2.
  assert (H16 : j mod 16 = (j mod 256) mod 16).
  { symmetry. apply Z.mod_unique with (q := 16 * (j / 256) + j mod 256 / 16); lia. }
  assert (Hk : 0 <= j / 256 < 2).
  { split; [apply Z.div_pos; lia | apply Z.div_lt_upper_bound; lia]. }
  assert (Hr : 0 <= j mod 256 / 16 < 16).
  { split; [apply Z.div_pos; lia | apply Z.div_lt_upper_bound; lia]. }
  split; [split; [exact Hk | split; [exact Hr | rewrite H16; lia]]|].
  split; [|split; [|vm_compute; reflexivity]].
  - replace (j mod 256 / 16 * 16 + j mod 16) with (j mod 256) by lia.
    rewrite pattern_lookup by lia. unfold pattern_pixel.
    replace (j / 256 * 256 + j mod 256) with j by lia.
    rewrite Hnode. reflexivity.
  - assert (Hcm : cm' = map (fun i => measured (i / 256) (i mod 256 / 16) (i mod 16)) (range 512))
      by (rewrite (fill_colour_map_spec measured cm Hlen) in Hfill; congruence).
    rewrite Hcm.
    unfold cmap_at. destruct (Z.leb_spec 0 j) as [_|]; [|lia].
    unfold range. rewrite !list_lookup_fmap.
    rewrite lookup_seq_lt by (change (Z.to_nat 512) with 512%nat; lia).
    simpl. rewrite Z2Nat.id by lia. reflexivity.
Qed.

Lemma sample_reads_spec (width height r c row col : Z) :
  (row, col) ∈ sample_reads width height r c
  <-> r * sample_height height <= row < (r + 1) * sample_height height
      /\ c * sample_width width <= col < (c + 1) * sample_width width.
Proof.
  unfold sample_reads, sample_roi. cbn [rx ry rwidth rheight].
  rewrite list_elem_of_bind. split.
  - intros (rr & Hin & Hrr). apply range_spec in Hrr.
    apply list_elem_of_bind in Hin as (rc & Hin & Hrc). apply range_spec in Hrc.
    apply list_elem_of_singleton in Hin. injection Hin as -> ->. lia.
  - intros [Hrow Hcol]. exists (row - r * sample_height height).
    split; [|apply range_spec; lia].
    apply list_elem_of_bind. exists (col - c * sample_width width).
    split; [|apply range_spec; lia].
    apply list_elem_of_singleton. f_equal; lia.
Qed.

(** X16.  The sample regions.  Every pixel read for a pattern cell
    lies inside the corrected capture and in the block of that cell;
    no pixel is read for two cells; every pixel of the 16 x 16 blocks
    is read for the cell of its block; and the blocks cover the whole
    capture when its width and height are multiples of 16. *)
Theorem sample_regions_tile (width height : Z) :
  0 <= width -> 0 <= height ->
  (forall r c row col,
      0 <= r < PATTERN_ROWS -> 0 <= c < PATTERN_COLS ->
      (row, col) ∈ sample_reads width height r c ->
      0 <= row < height /\ 0 <= col < width
      /\ row / sample_height height = r /\ col / sample_width width = c)
  /\ (forall r c r' c' row col,
        (row, col) ∈ sample_reads width height r c ->
        (row, col) ∈ sample_reads width height r' c' -> r = r' /\ c = c')
  /\ (forall row col,
        0 <= row < PATTERN_ROWS * sample_height height ->
        0 <= col < PATTERN_COLS * sample_width width ->
        (row, col) ∈ sample_reads width height (row / sample_height height)
                                  (col / sample_width width))
  /\ (Z.rem width PATTERN_COLS = 0 -> PATTERN_COLS * sample_width width = width)
  /\ (Z.rem height PATTERN_ROWS = 0 -> PATTERN_ROWS * sample_height height = height).
Proof.
  intros Hw Hh. unfold PATTERN_ROWS, PATTERN_COLS.
  assert (Hsw : sample_width width = width / 16)
    by (unfold sample_width, PATTERN_COLS; apply Z.quot_div_nonneg; lia).
  assert (Hsh : sample_height height = height / 16)
    by (unfold sample_height, PATTERN_ROWS; apply Z.quot_div_nonneg; lia).
  pose proof (Z.div_mod width 16 ltac:(lia)) as Dw.
  pose proof (Z.mod_pos_bound width 16 ltac:(lia)) as Bw.
  pose proof (Z.div_mod height 16 ltac:(lia)) as Dh.
  pose proof (Z.mod_pos_bound height 16 ltac:(lia)) as Bh.
  assert (Hsw0 : 0 <= sample_width width) by (rewrite Hsw; apply Z.div_pos; lia).
  assert (Hsh0 : 0 <= sample_height height) by (rewrite Hsh; apply Z.div_pos; lia).
  split; [|split; [|split; [|split]]].
  - intros r c row col Hr Hc Hin. apply sample_reads_spec in Hin as [Hrow Hcol].
    split; [nia|]. split; [nia|]. split.
    + symmetry. apply Z.div_unique with (r := row - r * sample_height height); lia.
    + symmetry. apply Z.div_unique with (r := col - c * sample_width width); lia.
  - intros r c r' c' row col H1 H2.
    apply sample_reads_spec in H1 as [Hr1 Hc1]. apply sample_reads_spec in H2 as [Hr2 Hc2].
    split; nia.
  - intros row col Hrow Hcol. apply sample_reads_spec.
    assert (0 < sample_height height) by lia. assert (0 < sample_width width) by lia.
    pose proof (Z.div_mod row (sample_height height) ltac:(lia)).
    pose proof (Z.mod_pos_bound row (sample_height height) ltac:(lia)).
    pose proof (Z.div_mod col (sample_width width) ltac:(lia)).
    pose proof (Z.mod_pos_bound col (sample_width width) ltac:(lia)).
    split; lia.
  - intros Hrem. rewrite Z.rem_mod_nonneg in Hrem by lia. lia.
  - intros Hrem. rewrite Z.rem_mod_nonneg in Hrem by lia. lia.
Qed.

End PhotometricModel.

Lemma colour_map_holds_node_samples_witness :
  let measured := fun k r c : Z =>
    mkVec3f (F32.of_int k) (F32.of_int r) (F32.of_int c) in
  let black := mkVec3f F32.zero F32.zero F32.zero in
  exists cm',
    ViewCalibrator.fill_colour_map measured 16 16 (replicate 512 black) = Some cm'
    /\ Photometric.pattern 1 !! 152%nat = Some (0, 109, 219)
    /\ ViewCalibrator.cmap_at cm' 408 = Some (measured 1 9 8).
Proof.
  intros measured black.
  destruct (ViewCalibrator.fill_colour_map measured 16 16 (replicate 512 black))
    as [cm'|] eqn:Hfill; [|vm_compute in Hfill; discriminate].
  exists cm'. split; [reflexivity|].
  assert (Hb : forall n, 0 <= n < 8 -> 0 <= n < ViewCalibrator.CMAP_SIZE) by (intros n Hn; exact Hn).
  pose proof (colour_map_holds_node_samples measured (replicate 512 black) cm' 0 3 6
                eq_refl Hfill (Hb 0 ltac:(lia)) (Hb 3 ltac:(lia)) (Hb 6 ltac:(lia))) as H.
  change (ViewCalibrator.cell_of_slot (Common.xyz_to_3d_index 0 3 6 ViewCalibrator.CMAP_SIZE))
    with (1, 9, 8) in H. cbv iota beta in H.
  destruct H as (_ & Hp & Hc & _).
  split; [exact Hp | exact Hc].
Defined.

Lemma sample_regions_tile_witness :
  (37, 455) ∈ Photometric.sample_reads 640 480 1 11
  /\ Photometric.sample_width 640 = 40 /\ Photometric.sample_height 480 = 30.
Proof.
  destruct (sample_regions_tile 640 480) as (_ & _ & Hcover & _); [lia | lia |].
  split; [|split; reflexivity].
  apply (Hcover 37 455);
    [change (0 <= 37 < 16 * 30) | change (0 <= 455 < 16 * 40)]; lia.
Defined.

(** ** The interpolation of [predict] *)

Section Interpolation.
Import Common ViewCalibrator Photometric.

(** Every 8-bit channel value gets a cube cell and a factor between
    zero and one. *)
Lemma channel_factor_checked (b : Byte.byte) :
  match channel_index b, channel_factor b with
  | Some x, Some f => (0 <=? x) && (x <=? 6) && F32.leb F32.zero f && F32.leb f F32.one
  | _, _ => false
  end = true.
Proof. destruct b; vm_compute; reflexivity. Qed.

Lemma channel_factor_unit (b : Byte.byte) :
  exists x f, channel_index b = Some x /\ 0 <= x <= 6
              /\ channel_factor b = Some f
              /\ F32.leb F32.zero f = true /\ F32.leb f F32.one = true.
Proof.
  pose proof (channel_factor_checked b) as H.
  destruct (channel_index b) as [x|]; [|discriminate].
  destruct (channel_factor b) as [f|]; [|discriminate].
  apply andb_true_iff in H as [H H4]. apply andb_true_iff in H as [H H3].
  apply andb_true_iff in H as [H1 H2].
  exists x, f. split; [reflexivity|]. split; [lia|]. split; [reflexivity|]. by split.
Qed.

Lemma corner_reads (cm : colour_map) (x y z : Z) :
  length cm = 512%nat -> 0 <= x <= 6 -> 0 <= y <= 6 -> 0 <= z <= 6 ->
  exists v000 v010 v110 v100 v001 v011 v111 v101,
    map (cmap_at cm) (corner_indices x y z)
    = map Some [v000; v010; v110; v100; v001; v011; v111; v101].
Proof.
  intros Hlen Hx Hy Hz.
  assert (Hread : forall i, 0 <= i < 512 -> is_Some (cmap_at cm i))
    by (intros i Hi; apply cmap_at_Some; lia).
  unfold corner_indices, xyz_to_3d_index, CMAP_SIZE. cbn [map].
  destruct (Hread ((z * 8 + y) * 8 + x) ltac:(lia)) as [v000 ->].
  destruct (Hread ((z * 8 + (y + 1)) * 8 + x) ltac:(lia)) as [v010 ->].
  destruct (Hread ((z * 8 + (y + 1)) * 8 + (x + 1)) ltac:(lia)) as [v110 ->].
  destruct (Hread ((z * 8 + y) * 8 + (x + 1)) ltac:(lia)) as [v100 ->].
  destruct (Hread (((z + 1) * 8 + y) * 8 + x) ltac:(lia)) as [v001 ->].
  destruct (Hread (((z + 1) * 8 + (y + 1)) * 8 + x) ltac:(lia)) as [v011 ->].
  destruct (Hread (((z + 1) * 8 + (y + 1)) * 8 + (x + 1)) ltac:(lia)) as [v111 ->].
  destruct (Hread (((z + 1) * 8 + y) * 8 + (x + 1)) ltac:(lia)) as [v101 ->].
  by exists v000, v010, v110, v100, v001, v011, v111, v101.
Qed.

(** X17.  [predict] interpolates, it never extrapolates.  For every
    8-bit pixel and every colour map of 512 entries the predicted
    pixel is the reflectance times the trilinear interpolation of the
    eight entries at the corners of the cell of the pixel, with the
    three factors between 0 and 1. *)
Theorem predict_interpolates (cm : colour_map) (reflectance : Vec3f) (colour : Vec3b) :
  length cm = 512%nat ->
  exists x y z fx fy fz v000 v010 v110 v100 v001 v011 v111 v101,
    (channel_index (b0 colour) = Some x /\ channel_factor (b0 colour) = Some fx)
    /\ (channel_index (b1 colour) = Some y /\ channel_factor (b1 colour) = Some fy)
    /\ (channel_index (b2 colour) = Some z /\ channel_factor (b2 colour) = Some fz)
    /\ map (cmap_at cm) (corner_indices x y z)
       = map Some [v000; v010; v110; v100; v001; v011; v111; v101]
    /\ predict_pixel cm reflectance colour
       = Some (vmul (tlerp v000 v010 v110 v100 v001 v011 v111 v101 fx fy fz) reflectance)
    /\ Forall (fun f => F32.leb F32.zero f = true /\ F32.leb f F32.one = true) [fx; fy; fz].
Proof.
  intros Hlen.
  destruct (channel_factor_unit (b0 colour)) as (x & fx & Hx & Bx & Hfx & Lx).
  destruct (channel_factor_unit (b1 colour)) as (y & fy & Hy & By & Hfy & Ly).
  destruct (channel_factor_unit (b2 colour)) as (z & fz & Hz & Bz & Hfz & Lz).
  destruct (corner_reads cm x y z Hlen Bx By Bz)
    as (v000 & v010 & v110 & v100 & v001 & v011 & v111 & v101 & Hreads).
  exists x, y, z, fx, fy, fz, v000, v010, v110, v100, v001, v011, v111, v101.
  split; [by split|]. split; [by split|]. split; [by split|].
  split; [exact Hreads|].
  split; [|constructor; [exact Lx | constructor; [exact Ly | constructor; [exact Lz | constructor]]]].
  unfold corner_indices in Hreads. cbn [map] in Hreads.
  injection Hreads as R0 R1 R2 R3 R4 R5 R6 R7.
  unfold channel_factor in Hfx, Hfy, Hfz.
  change (cube_index (F32.mul (F32.of_int (byte_to_Z (b0 colour))) (F32.div F32.one (F32.of_int 255))))
    with (channel_index (b0 colour)) in Hfx.
  change (cube_index (F32.mul (F32.of_int (byte_to_Z (b1 colour))) (F32.div F32.one (F32.of_int 255))))
    with (channel_index (b1 colour)) in Hfy.
  change (cube_index (F32.mul (F32.of_int (byte_to_Z (b2 colour))) (F32.div F32.one (F32.of_int 255))))
    with (channel_index (b2 colour)) in Hfz.
  rewrite Hx in Hfx. rewrite Hy in Hfy. rewrite Hz in Hfz.
  cbn [mbind option_bind] in Hfx, Hfy, Hfz.
  apply (inj Some) in Hfx, Hfy, Hfz. subst fx fy fz.
  unfold predict_pixel.
  change (cube_index (f0 (vdiv (vec3f_of_3b colour) (F32.of_int 255))))
    with (channel_index (b0 colour)).
  change (cube_index (f1 (vdiv (vec3f_of_3b colour) (F32.of_int 255))))
    with (channel_index (b1 colour)).
  change (cube_index (f2 (vdiv (vec3f_of_3b colour) (F32.of_int 255))))
    with (channel_index (b2 colour)).
  rewrite Hx, Hy, Hz. cbn [mbind option_bind].
  rewrite R0, R1, R2, R3, R4, R5, R6, R7. reflexivity.
Qed.
End Interpolation.

Lemma predict_interpolates_witness :
  exists p, ViewCalibrator.predict_pixel (replicate 512 (mkVec3f F32.one F32.one F32.one))
              (mkVec3f F32.one F32.one F32.one) (mkVec3b Byte.xff Byte.x80 Byte.x00) = Some p.
Proof.
  destruct (predict_interpolates (replicate 512 (mkVec3f F32.one F32.one F32.one))
              (mkVec3f F32.one F32.one F32.one) (mkVec3b Byte.xff Byte.x80 Byte.x00) eq_refl)
    as (x & y & z & fx & fy & fz & v000 & v010 & v110 & v100 & v001 & v011 & v111 & v101
        & _ & _ & _ & _ & Hp & _).
  eexists. exact Hp.
Defined.

Section ReadBack.
Import Common ViewCalibrator Photometric.

(** X18.  The calibration colours are read back next to their node.
    For the level displayed for node [x], [predict] looks into cell
    [x] with a factor of at most 0.02, or into cell [x - 1] with a
    factor of at least 0.98: the prediction of a calibration colour is
    the measured colour of its node to within two hundredths of the
    step to the neighbour. *)
Theorem calibration_levels_read_back (x : Z) :
  0 <= x < CMAP_SIZE ->
  exists b cell f,
    byte_to_Z b = level x
    /\ channel_index b = Some cell
    /\ channel_factor b = Some f
    /\ ((cell = x /\ F32.leb f (F32.div (F32.of_int 2) (F32.of_int 100)) = true)
        \/ (cell = x - 1 /\ F32.leb (F32.div (F32.of_int 98) (F32.of_int 100)) f = true)).
Proof.
  intros Hx. unfold CMAP_SIZE in Hx.
  assert (Hc : x = 0 \/ x = 1 \/ x = 2 \/ x = 3 \/ x = 4 \/ x = 5 \/ x = 6 \/ x = 7) by lia.
  destruct Hc as [-> | [-> | [-> | [-> | [-> | [-> | [-> | ->]]]]]]].
  - exists Byte.x00. eexists _, _. split; [vm_compute; reflexivity|].
    split; [vm_compute; reflexivity|]. split; [vm_compute; reflexivity|].
    left. split; vm_compute; reflexivity.
  - exists Byte.x24. eexists _, _. split; [vm_compute; reflexivity|].
    split; [vm_compute; reflexivity|]. split; [vm_compute; reflexivity|].
    right. split; vm_compute; reflexivity.
  - exists Byte.x49. eexists _, _. split; [vm_compute; reflexivity|].
    split; [vm_compute; reflexivity|]. split; [vm_compute; reflexivity|].
    left. split; vm_compute; reflexivity.
  - exists Byte.x6d. eexists _, _. split; [vm_compute; reflexivity|].
    split; [vm_compute; reflexivity|]. split; [vm_compute; reflexivity|].
    right. split; vm_compute; reflexivity.
  - exists Byte.x92. eexists _, _. split; [vm_compute; reflexivity|].
    split; [vm_compute; reflexivity|]. split; [vm_compute; reflexivity|].
    left. split; vm_compute; reflexivity.
  - exists Byte.xb6. eexists _, _. split; [vm_compute; reflexivity|].
    split; [vm_compute; reflexivity|]. split; [vm_compute; reflexivity|].
    right. split; vm_compute; reflexivity.
  - exists Byte.xdb. eexists _, _. split; [vm_compute; reflexivity|].
    split; [vm_compute; reflexivity|]. split; [vm_compute; reflexivity|].
    left. split; vm_compute; reflexivity.
  - exists Byte.xff. eexists _, _. split; [vm_compute; reflexivity|].
    split; [vm_compute; reflexivity|]. split; [vm_compute; reflexivity|].
    right. split; vm_compute; reflexivity.
Qed.
End ReadBack.

Lemma calibration_levels_read_back_witness :
  exists b cell f,
    byte_to_Z b = Photometric.level 3
    /\ ViewCalibrator.channel_index b = Some cell
    /\ Photometric.channel_factor b = Some f
    /\ ((cell = 3 /\ F32.leb f (F32.div (F32.of_int 2) (F32.of_int 100)) = true)
        \/ (cell = 3 - 1 /\ F32.leb (F32.div (F32.of_int 98) (F32.of_int 100)) f = true)).
Proof. apply (calibration_levels_read_back 3). vm_compute. split; [discriminate | reflexivity]. Defined.

(** ** The corners of the screen *)

Section ScreenCorners.
Import ScreenDetection.

Local Abbreviation in_quadrant centre q :=
  (fun corner : Point2f => quadrant centre corner = q).

(** Slot [q] ends up with the last corner sorted into it, or with what
    it held before. *)
Lemma sorted_slot (centre : Point2f) (corners init : list Point2f) (q : nat) (d : Point2f) :
  init !! q = Some d ->
  foldl (fun ordered corner => <[quadrant centre corner := corner]> ordered) init corners !! q
  = Some (default d (last (filter (in_quadrant centre q) corners))).
Proof.
  intros Hq. induction corners as [|c corners IH] using rev_ind; [exact Hq|].
  rewrite foldl_app, filter_app. cbn [foldl].
  destruct (decide (quadrant centre c = q)) as [E|E].
  - rewrite filter_cons_True by exact E. rewrite filter_nil, last_snoc, E.
    apply list_lookup_insert_eq. apply lookup_lt_is_Some. by eexists.
  - rewrite filter_cons_False by exact E. rewrite filter_nil, app_nil_r.
    rewrite list_lookup_insert_ne by exact E. exact IH.
Qed.

Lemma sorted_length (centre : Point2f) (corners init : list Point2f) :
  length (foldl (fun ordered corner => <[quadrant centre corner := corner]> ordered)
                init corners) = length init.
Proof.
  revert init. induction corners as [|c corners IH]; intros init; [reflexivity|].
  simpl. by rewrite IH, length_insert.
Qed.

Lemma last_filter_cases {A : Type} (P : A -> Prop) `{!forall x, Decision (P x)} (l : list A) :
  (last (filter P l) = None /\ Forall (fun x => ~ P x) l)
  \/ (exists x, last (filter P l) = Some x /\ x ∈ l /\ P x).
Proof.
  induction l as [|a l IH] using rev_ind; [left; split; [reflexivity | constructor]|].
  rewrite filter_app. destruct (decide (P a)) as [Ha|Ha].
  - right. exists a. rewrite filter_cons_True, filter_nil, last_snoc by exact Ha.
    split; [reflexivity|]. split; [|exact Ha]. apply elem_of_app. right. by left.
  - rewrite filter_cons_False, filter_nil, app_nil_r by exact Ha.
    destruct IH as [[Hn Hall] | (x & Hx & Hin & HP)].
    + left. split; [exact Hn|]. apply Forall_app. split; [exact Hall | by constructor].
    + right. exists x. split; [exact Hx|]. split; [|exact HP]. apply elem_of_app. by left.
Qed.

(** The re-ordering loop, slot by slot. *)
Lemma order_corners_slots (corners ordered : list Point2f) :
  order_corners corners = Some ordered ->
  exists centre,
    centroid corners = Some centre
    /\ length ordered = 4%nat
    /\ (forall q, (q < 4)%nat ->
          ordered !! q
          = Some (default origin2f (last (filter (in_quadrant centre q) corners))))
    /\ (forall q, (q < 4)%nat ->
          Forall (fun corner => quadrant centre corner <> q) corners ->
          ordered !! q = Some origin2f)
    /\ (forall q corner,
          ordered !! q = Some corner ->
          Exists (in_quadrant centre q) corners ->
          corner ∈ corners /\ quadrant centre corner = q).
Proof.
  unfold order_corners. destruct (centroid corners) as [centre|]; [|discriminate].
  cbn [mbind option_bind]. intros [= <-]. exists centre.
  assert (Hslot : forall q, (q < 4)%nat ->
            foldl (fun ordered corner => <[quadrant centre corner := corner]> ordered)
                  (replicate 4 origin2f) corners !! q
            = Some (default origin2f (last (filter (in_quadrant centre q) corners)))).
  { intros q Hq. apply sorted_slot. by apply lookup_replicate_2. }
  split; [reflexivity|]. split; [by rewrite sorted_length|].
  split; [exact Hslot|]. split.
  - intros q Hq Hnone. rewrite Hslot by exact Hq.
    destruct (last_filter_cases (in_quadrant centre q) corners)
      as [[-> _] | (x & _ & Hin & HP)]; [reflexivity|].
    exfalso. by apply (proj1 (Forall_forall _ _) Hnone x Hin).
  - intros q corner Hc Hex.
    assert (Hq : (q < 4)%nat).
    { apply lookup_lt_Some in Hc. rewrite sorted_length in Hc. exact Hc. }
    rewrite Hslot in Hc by exact Hq.
    destruct (last_filter_cases (in_quadrant centre q) corners)
      as [[_ Hall] | (x & Hx & Hin & HP)].
    + exfalso. apply Exists_exists in Hex as (y & Hy & HPy).
      by apply (proj1 (Forall_forall _ _) Hall y Hy).
    + rewrite Hx in Hc. injection Hc as <-. by split.
Qed.

(** X19.  The end of [detect_screen].  A result is returned only for a
    contour of four vertices that all lie strictly inside the border
    of the mask.  Slot [q] of the result holds the last refined corner
    whose quadrant around the centroid is [q]: a corner of that
    quadrant when there is one, and the default point [(0, 0)] when
    there is none -- two corners in one quadrant leave a slot at
    [(0, 0)] without any failure. *)
Theorem corners_sorted_by_quadrant (cornerSubPix : list Point2f -> list Point2f)
        (cols rows : Z) (screen_contour : list Point) (ordered : list Point2f) :
  ordered_screen_corners cornerSubPix cols rows screen_contour = Some (Some ordered) ->
  let corners := cornerSubPix (map of_point screen_contour) in
  length screen_contour = 4%nat
  /\ Forall (fun vertex => 0 < px vertex < cols - 1 /\ 0 < py vertex < rows - 1)
            screen_contour
  /\ exists centre,
       centroid corners = Some centre
       /\ length ordered = 4%nat
       /\ (forall q, (q < 4)%nat ->
             ordered !! q
             = Some (default origin2f (last (filter (in_quadrant centre q) corners))))
       /\ (forall q, (q < 4)%nat ->
             Forall (fun corner => quadrant centre corner <> q) corners ->
             ordered !! q = Some origin2f)
       /\ (forall q corner,
             ordered !! q = Some corner ->
             Exists (in_quadrant centre q) corners ->
             corner ∈ corners /\ quadrant centre corner = q).
Proof.
  intros H corners. unfold ordered_screen_corners in H.
  destruct (Nat.eqb_spec (length screen_contour) 4) as [Hlen|Hlen]; [|discriminate].
  cbn [negb] in H.
  destruct (existsb (touches_border cols rows) screen_contour) eqn:Hb; [discriminate|].
  fold corners in H.
  destruct (order_corners corners) as [ordered0|] eqn:Ho; [|discriminate].
  cbn [mbind option_bind] in H. injection H as <-.
  split; [exact Hlen|]. split; [|by apply order_corners_slots].
  apply Forall_forall. intros vertex Hin.
  assert (Hv : touches_border cols rows vertex = false).
  { destruct (touches_border cols rows vertex) eqn:E; [|reflexivity].
    assert (existsb (touches_border cols rows) screen_contour = true); [|congruence].
    apply existsb_exists. exists vertex. split; [by apply list_elem_of_In | exact E]. }
  unfold touches_border in Hv.
  apply orb_false_iff in Hv as [Hv H4]. apply orb_false_iff in Hv as [Hv H3].
  apply orb_false_iff in Hv as [H1 H2].
  apply Z.leb_gt in H1, H2, H3, H4. lia.
Qed.

(** The centre of the ideal corners is the middle of the output: the
    origin lies to its upper left, the far corner does not. *)
Lemma ideal_centre_checked :
  forallb (fun n =>
             let w := F32.of_int (1 + Z.of_nat n) in
             let o := F32.of_int 0 in
             let q := F32.div F32.one (F32.of_int 4) in
             let cx := F32.mul (F32.add (F32.add (F32.add o o) w) w) q in
             let cy := F32.mul (F32.add (F32.add (F32.add o w) w) o) q in
             SFltb o cx && negb (SFltb w cx) && SFltb o cy && negb (SFltb w cy))
          (seq 0 (Z.to_nat 8192)) = true.
Proof. vm_compute. reflexivity. Qed.

(** X20.  The ideal screen corners of [find_geometric_model] are listed
    in the order [detect_screen] gives the detected ones: sorted by
    the re-ordering loop, they come out unchanged.  The corners paired
    by position for the homography are therefore corresponding
    corners; checked for every output size up to 8192 x 8192. *)
Theorem ideal_corners_in_detection_order (width height : Z) :
  0 < width <= 8192 -> 0 < height <= 8192 ->
  order_corners (ideal_screen_corners width height)
  = Some (ideal_screen_corners width height).
Proof.
  intros Hw Hh. pose proof ideal_centre_checked as H. rewrite forallb_forall in H.
  pose proof (H (Z.to_nat (width - 1)) ltac:(apply in_seq; lia)) as Hx.
  pose proof (H (Z.to_nat (height - 1)) ltac:(apply in_seq; lia)) as Hy.
  clear H. cbv zeta in Hx, Hy.
  rewrite Z2Nat.id in Hx, Hy by lia.
  replace (1 + (width - 1)) with width in Hx by lia.
  replace (1 + (height - 1)) with height in Hy by lia.
  apply andb_true_iff in Hx as [Hx _]. apply andb_true_iff in Hx as [Hx Hx3].
  apply andb_true_iff in Hx as [Hx1 Hx2]. apply negb_true_iff in Hx2.
  apply andb_true_iff in Hy as [Hy Hy2]. apply andb_true_iff in Hy as [_ Hy1].
  apply negb_true_iff in Hy2.
  unfold order_corners, centroid, ideal_screen_corners.
  cbn [lookup list_lookup mbind option_bind x2f y2f foldl].
  unfold quadrant, scale2f, add2f. cbn [x2f y2f].
  rewrite Hx1, Hx2, Hy1, Hy2. reflexivity.
Qed.
End ScreenCorners.

Lemma corners_sorted_by_quadrant_witness :
  let screen_contour := [mkPoint 600 20; mkPoint 30 25; mkPoint 610 400; mkPoint 25 410] in
  let ordered := map ScreenDetection.of_point
                     [mkPoint 30 25; mkPoint 25 410; mkPoint 610 400; mkPoint 600 20] in
  ScreenDetection.ordered_screen_corners (fun corners => corners) 640 480 screen_contour
  = Some (Some ordered)
  /\ length screen_contour = 4%nat
  /\ length ordered = 4%nat.
Proof.
  intros screen_contour ordered.
  assert (H : ScreenDetection.ordered_screen_corners (fun corners => corners) 640 480
                screen_contour = Some (Some ordered)) by (vm_compute; reflexivity).
  split; [exact H|].
  destruct (corners_sorted_by_quadrant (fun corners => corners) 640 480 screen_contour ordered H)
    as (Hlen & _ & centre & _ & Hlen' & _).
  split; [exact Hlen | exact Hlen'].
Defined.

Lemma ideal_corners_in_detection_order_witness :
  ScreenDetection.order_corners (ScreenDetection.ideal_screen_corners 640 480)
  = Some (ScreenDetection.ideal_screen_corners 640 480).
Proof. apply (ideal_corners_in_detection_order 640 480); lia. Defined.

(** ** The frame period of the webcam *)

Section FramePeriod.
Import Webcam.

Lemma latency_checked :
  forallb (fun n => let f := 1 + Z.of_nat n in
                    bool_decide (latency_ms f = Some ((2000 + f) / (2 * f))))
          (seq 0 (Z.to_nat 4096)) = true.
Proof. vm_compute. reflexivity. Qed.

(** X21.  For a frame rate between 1 and 4096 the latency is
    [1000 / framerate] milliseconds rounded to the nearest integer,
    halves upwards; a frame rate of 0, which the stream may report,
    leaves it undefined. *)
Theorem latency_is_rounded_period (framerate : Z) :
  1 <= framerate <= 4096 ->
  latency_ms framerate = Some ((2000 + framerate) / (2 * framerate))
  /\ latency_ms 0 = None.
Proof.
  intros Hf. split; [|reflexivity].
  pose proof latency_checked as H. rewrite forallb_forall in H.
  specialize (H (Z.to_nat (framerate - 1)) ltac:(apply in_seq; lia)).
  cbv zeta in H. apply bool_decide_eq_true in H.
  rewrite Z2Nat.id in H by lia. replace (1 + (framerate - 1)) with framerate in H by lia.
  exact H.
Qed.
End FramePeriod.

Lemma latency_is_rounded_period_witness :
  Webcam.latency_ms 30 = Some 33 /\ Webcam.latency_ms 0 = None.
Proof. apply (latency_is_rounded_period 30). lia. Defined.

(** ** The shadow mask *)

Section ShadowMask.
Import Segmentation.

Lemma count_in_le (a b : Mask) (r : Rect) :
  (forall x y, nonzero a x y = true -> nonzero b x y = true) ->
  count_in a r <= count_in b r.
Proof.
  intros Hab. unfold count_in. apply inj_le.
  generalize (y ← zrange (ry r) (rheight r); x ← zrange (rx r) (rwidth r); [(x, y)]).
  intros l. induction l as [|p l IH]; [reflexivity|].
  destruct (decide (nonzero a p.1 p.2 = true)) as [Ha|Ha].
  - rewrite (filter_cons_True _ p) by exact Ha.
    rewrite (filter_cons_True _ p) by (by apply Hab). simpl. lia.
  - rewrite (filter_cons_False _ p) by exact Ha.
    destruct (decide (nonzero b p.1 p.2 = true)) as [Hb|Hb].
    + rewrite (filter_cons_True _ p) by exact Hb. simpl. lia.
    + rewrite (filter_cons_False _ p) by exact Hb. exact IH.
Qed.

(** X22.  The shadow mask lies inside the foreground mask.  Both
    masks hold 0 and 255 only.  With the threshold
    [m_AmbientIntensity + SHADOW_OFFSET] below 255, a pixel is shadow
    exactly when it is foreground and its grey value does not exceed
    the threshold, so a region never counts more shadow than
    foreground pixels; from 255 on every pixel is shadow. *)
Theorem shadow_within_foreground (m_AmbientIntensity : f32) (smoothed gray : Gray)
        (foreground_mask shadow_mask : Gray) (thresh : Z) :
  masks m_AmbientIntensity smoothed gray = Some (foreground_mask, shadow_mask) ->
  shadow_thresh m_AmbientIntensity = Some thresh ->
  0 <= thresh ->
  (forall x y, 0 <= gray x y <= 255) ->
  (forall x y,
      (foreground_mask x y = 0 \/ foreground_mask x y = 255)
      /\ (shadow_mask x y = 0 \/ shadow_mask x y = 255)
      /\ (thresh < 255 ->
          (shadow_mask x y <> 0 <-> foreground_mask x y <> 0 /\ gray x y <= thresh))
      /\ (255 <= thresh -> shadow_mask x y = 255))
  /\ (thresh < 255 -> forall cols rows roi,
        count_in (mask_of cols rows shadow_mask) roi
        <= count_in (mask_of cols rows foreground_mask) roi).
Proof.
  unfold masks. intros Hm Ht H0 Hgray. rewrite Ht in Hm. cbn [mbind option_bind] in Hm.
  injection Hm as <- <-.
  assert (Hpix : forall x y,
      (threshold_binary 192 smoothed x y = 0 \/ threshold_binary 192 smoothed x y = 255)
      /\ (threshold_binary_inv thresh
            (setTo 255 (bitwise_not (threshold_binary 192 smoothed)) gray) x y = 0
          \/ threshold_binary_inv thresh
               (setTo 255 (bitwise_not (threshold_binary 192 smoothed)) gray) x y = 255)
      /\ (thresh < 255 ->
          (threshold_binary_inv thresh
             (setTo 255 (bitwise_not (threshold_binary 192 smoothed)) gray) x y <> 0
           <-> threshold_binary 192 smoothed x y <> 0 /\ gray x y <= thresh))
      /\ (255 <= thresh ->
          threshold_binary_inv thresh
            (setTo 255 (bitwise_not (threshold_binary 192 smoothed)) gray) x y = 255)).
  { intros x y. specialize (Hgray x y).
    unfold threshold_binary_inv, setTo, bitwise_not, threshold_binary.
    destruct (192 <? smoothed x y); cbn [Z.sub Z.eqb Z.pos_sub Z.opp];
      change (255 - 255 =? 0) with true; change (255 - 0 =? 0) with false; cbv iota;
      destruct (Z.ltb_spec thresh 255); destruct (Z.ltb_spec thresh (gray x y));
      repeat split; intros; try lia; try (right; reflexivity); try (left; reflexivity). }
  split; [exact Hpix|].
  intros Hlt cols rows roi. apply count_in_le. intros x y. unfold mask_of. cbn [nonzero].
  rewrite !negb_true_iff, !Z.eqb_neq. intros Hs.
  destruct (Hpix x y) as (_ & _ & Hiff & _). by apply Hiff.
Qed.
End ShadowMask.

Lemma shadow_within_foreground_witness :
  let smoothed := fun x y : Z => if x <? 10 then 255 else 0 in
  let gray := fun x y : Z => if y <? 5 then 40 else 200 in
  exists foreground_mask shadow_mask,
    Segmentation.masks (F32.of_int 30) smoothed gray = Some (foreground_mask, shadow_mask)
    /\ count_in (Segmentation.mask_of 20 20 shadow_mask) (mkRect 0 0 20 20)
       <= count_in (Segmentation.mask_of 20 20 foreground_mask) (mkRect 0 0 20 20).
Proof.
  intros smoothed gray. eexists _, _. split; [reflexivity|].
  refine (proj2 (shadow_within_foreground (F32.of_int 30) smoothed gray _ _ 80
                   eq_refl eq_refl _ _) _ 20 20 (mkRect 0 0 20 20)).
  - lia.
  - intros x y. unfold gray. destruct (y <? 5); lia.
  - lia.
Defined.

(** ** [capture_image]: failure and a still scene *)

Section CaptureEdges.
Import Calibrator.
Variable frames : nat -> Image.
Variable width height : Z.

Hypothesis frame_size : forall k, length (frames k) = Z.to_nat (height * width * 3).


Lemma sum_static (f : Image) (acc : list Z) (ks : list nat) (n : Z) :
  (forall k, frames k = f) -> acc = map (Z.mul n) f ->
  foldl (fun a k => zip_with Z.add a (frames k)) acc ks
  = map (Z.mul (n + Z.of_nat (length ks))) f.
Proof.
  intros Hf. revert acc n. induction ks as [|k ks IH]; intros acc n ->; simpl.
  - by rewrite Z.add_0_r.
  - rewrite (IH _ (n + 1)).
    + f_equal. apply f_equal. lia.
    + rewrite Hf. clear. induction f as [|v f IHf]; [reflexivity|].
      simpl. rewrite IHf. f_equal. lia.
Qed.

Lemma mean_checked :
  forallb (fun n =>
             forallb (fun v =>
                        F64.saturate_u8 (F64.div (F64.of_int ((2 + Z.of_nat n) * Z.of_nat v))
                                                 (F64.of_int (2 + Z.of_nat n)))
                        =? Z.of_nat v)
                     (seq 0 256))
          (seq 0 63) = true.
Proof. vm_compute. reflexivity. Qed.

Lemma mean_of_copies (n v : Z) :
  2 <= n <= 64 -> 0 <= v <= 255 ->
  F64.saturate_u8 (F64.div (F64.of_int (n * v)) (F64.of_int n)) = v.
Proof.
  intros Hn Hv. pose proof mean_checked as H. rewrite forallb_forall in H.
  specialize (H (Z.to_nat (n - 2)) ltac:(apply in_seq; lia)).
  rewrite forallb_forall in H.
  specialize (H (Z.to_nat v) ltac:(apply in_seq; lia)).
  apply Z.eqb_eq in H. rewrite !Z2Nat.id in H by lia.
  replace (2 + (n - 2)) with n in H by lia. exact H.
Qed.

(** X24.  A scene that does not change is captured as it is: when
    every frame of the camera is the same 8-bit image, the image
    returned for 1 to 64 samples is that image, the mean bringing in
    no rounding error; six frames are consumed, and as many more as
    samples when there are two or more. *)
Theorem static_scene_captured_exactly (image f : Image) (settle_time_ms capture_samples : Z)
        (w : world) :
  (forall k, frames k = f) ->
  Forall (fun v => 0 <= v <= 255) f ->
  0 <= settle_time_ms -> 1 <= capture_samples <= 64 ->
  exists w',
    capture_image frames width height image settle_time_ms capture_samples w = Some (f, w')
    /\ cursor w' = (cursor w + 6 + (if (capture_samples =? 1)%Z then 0 else Z.to_nat capture_samples))%nat.
Proof.
  intros Hf Hpix Hs Hn. unfold capture_image.
  unfold mbind, M_bind, cv_assert, emit, drop_frame, next_frame.
  destruct (Z.leb_spec 0 settle_time_ms) as [_|]; [|lia].
  destruct (Z.leb_spec 1 capture_samples) as [_|]; [|lia].
  cbn [cursor log].
  destruct (Z.ltb_spec 1 capture_samples) as [H1|H1].
  - rewrite (average_loop_spec frames width height frame_size) by apply length_replicate.
    cbn [cursor log]. unfold mret, M_ret. eexists. split.
    + f_equal. f_equal.
      rewrite (sum_static f _ _ 0 Hf).
      * rewrite length_seq, Z.add_0_l, Z2Nat.id by lia. unfold divide_convert.
        rewrite map_map. rewrite <- (map_id f) at 2. apply map_ext_Forall.
        eapply Forall_impl; [exact Hpix|]. intros v Hv. cbv beta in Hv |- *.
        apply mean_of_copies; lia.
      * rewrite <- (frame_size 0%nat), Hf. clear.
        induction f as [|v f IHf]; [reflexivity|]. simpl. by rewrite <- IHf.
    + cbn [cursor]. destruct (capture_samples =? 1)%Z eqn:E; [apply Z.eqb_eq in E; lia|].
      rewrite !Nat.add_succ_r, Nat.add_0_r. reflexivity.
  - assert (capture_samples = 1) by lia. subst. unfold mret, M_ret. eexists. split.
    + by rewrite Hf.
    + cbn [cursor]. change (1 =? 1) with true. cbv iota.
      rewrite !Nat.add_succ_r, !Nat.add_0_r. reflexivity.
Qed.
End CaptureEdges.

Lemma static_scene_captured_exactly_witness :
  exists w',
    Calibrator.capture_image (fun _ => [12; 200; 255]) 1 1 [] 1000 6 (Calibrator.mkWorld 0 [])
    = Some ([12; 200; 255], w')
    /\ Calibrator.cursor w' = 12%nat.
Proof.
  apply (static_scene_captured_exactly (fun _ => [12; 200; 255]) 1 1 (fun _ => eq_refl)
           [] [12; 200; 255] 1000 6 (Calibrator.mkWorld 0 [])).
  - reflexivity.
  - repeat constructor; lia.
  - lia.
  - lia.
Defined.


